(** * korean-practice-hub: the TTS asset pipeline of [scripts/build_tts.py]

    A shallow embedding of the build script that fills [audio/tts/] for the
    Hub: it collects the Korean texts of [data/vocab.json] and
    [data/sentences.json], names one artifact per text, copies what the
    TTS-Central store already has, synthesizes the rest behind a semaphore,
    writes [manifest.json] and removes orphaned [.mp3] files.

    Conventions of the model.
    - A Python [str] is a [string] holding its UTF-8 bytes.  On well-formed
      UTF-8 the byte-wise lexicographic order is the code-point order that
      [sorted] uses, and [text.encode('utf-8')] is the identity.
    - A directory is a finite map from names to file contents.  The output
      directory [AUDIO_DIR] is a directory of regular files; writing and
      removing them does not fail.  A name of the reference manifest is
      looked up as what the path [os.path.join(CENTRAL_AUDIO, name)]
      denotes: nothing, a regular file, or something that exists and is not
      a regular file (the name [''] denotes the audio directory itself).
      [os.path.exists] is true in the last two cases, and [shutil.copy2]
      raises in the last.  The failures that the model has are [kr[-1]] on
      an empty string, an unreadable reference manifest, a reference to a
      path that is not a regular file, and a failing [tts.save].
    - [edge_tts] is an oracle from a text to its audio, or to a failure;
      what a failed or cancelled [tts.save] leaves at its path is not
      modelled.
    - The event loop is a schedule: the list of the tasks that take a step,
      in the order in which the loop runs them, up to the moment at which
      [main] is resumed with the result or the exception of
      [asyncio.gather].  A task that fails does not stop the others: they
      go on taking steps for as long as the schedule says.
    - [hashlib.md5] is the MD5 of RFC 1321, written out over 32-bit words
      held in [N]. *)

From Stdlib Require Import NArith Ascii String List Decimal DecimalNat DecimalString Lia.
From stdpp Require Import gmap strings list sorting.

Local Open Scope string_scope.
Local Open Scope list_scope.
Local Open Scope nat_scope.

(** ** Bytes and hexadecimal *)

Definition bytes := list N.

Definition string_bytes (s : string) : bytes :=
  map N_of_ascii (list_ascii_of_string s).

Definition hex_chars : list ascii :=
  ["0"; "1"; "2"; "3"; "4"; "5"; "6"; "7"; "8"; "9"; "a"; "b"; "c"; "d"; "e"; "f"]%char.

Definition hex_digit (n : N) : ascii :=
  nth (N.to_nat (n mod 16)) hex_chars "0"%char.


Definition byte_hex (b : N) : list ascii :=
  [hex_digit (b / 16); hex_digit b].

Definition hex_of_bytes (bs : bytes) : string :=
  string_of_list_ascii (concat (map byte_hex bs)).

(** ** MD5 (RFC 1321), the function behind [hashlib.md5] *)

Module MD5.
Local Open Scope N_scope.

Definition modulus : N := 2 ^ 32.

Definition add32 (a b : N) : N := (a + b) mod modulus.
Definition not32 (a : N) : N := N.lxor (a mod modulus) 0xffffffff.
Definition rotl32 (x c : N) : N :=
  N.lor (N.shiftl x c mod modulus) (N.shiftr (x mod modulus) (32 - c)).

Definition shifts : list N :=
  [7; 12; 17; 22; 7; 12; 17; 22; 7; 12; 17; 22; 7; 12; 17; 22;
   5;  9; 14; 20; 5;  9; 14; 20; 5;  9; 14; 20; 5;  9; 14; 20;
   4; 11; 16; 23; 4; 11; 16; 23; 4; 11; 16; 23; 4; 11; 16; 23;
   6; 10; 15; 21; 6; 10; 15; 21; 6; 10; 15; 21; 6; 10; 15; 21].

Definition sines : list N :=
  [0xd76aa478; 0xe8c7b756; 0x242070db; 0xc1bdceee;
   0xf57c0faf; 0x4787c62a; 0xa8304613; 0xfd469501;
   0x698098d8; 0x8b44f7af; 0xffff5bb1; 0x895cd7be;
   0x6b901122; 0xfd987193; 0xa679438e; 0x49b40821;
   0xf61e2562; 0xc040b340; 0x265e5a51; 0xe9b6c7aa;
   0xd62f105d; 0x02441453; 0xd8a1e681; 0xe7d3fbc8;
   0x21e1cde6; 0xc33707d6; 0xf4d50d87; 0x455a14ed;
   0xa9e3e905; 0xfcefa3f8; 0x676f02d9; 0x8d2a4c8a;
   0xfffa3942; 0x8771f681; 0x6d9d6122; 0xfde5380c;
   0xa4beea44; 0x4bdecfa9; 0xf6bb4b60; 0xbebfbc70;
   0x289b7ec6; 0xeaa127fa; 0xd4ef3085; 0x04881d05;
   0xd9d4d039; 0xe6db99e5; 0x1fa27cf8; 0xc4ac5665;
   0xf4292244; 0x432aff97; 0xab9423a7; 0xfc93a039;
   0x655b59c3; 0x8f0ccc92; 0xffeff47d; 0x85845dd1;
   0x6fa87e4f; 0xfe2ce6e0; 0xa3014314; 0x4e0811a1;
   0xf7537e82; 0xbd3af235; 0x2ad7d2bb; 0xeb86d391].

Record state := State { sa : N; sb : N; sc : N; sd : N }.

Definition initial : state :=
  State 0x67452301 0xefcdab89 0x98badcfe 0x10325476.

(** Little-endian 32-bit words of a 64-byte block. *)
Fixpoint words (block : bytes) : list N :=
  match block with
  | b0 :: b1 :: b2 :: b3 :: rest =>
      (b0 + 256 * b1 + 65536 * b2 + 16777216 * b3) :: words rest
  | _ => []
  end.

Definition mix (i : N) (b c d : N) : N * N :=
  if i <? 16 then (N.lor (N.land b c) (N.land (not32 b) d), i)
  else if i <? 32 then (N.lor (N.land d b) (N.land (not32 d) c), (5 * i + 1) mod 16)
  else if i <? 48 then (N.lxor (N.lxor b c) d, (3 * i + 5) mod 16)
  else (N.lxor c (N.lor b (not32 d)), (7 * i) mod 16).

Definition round (m : list N) (st : state) (i : nat) : state :=
  let '(f, g) := mix (N.of_nat i) (sb st) (sc st) (sd st) in
  let f' := add32 (add32 (add32 f (sa st)) (nth i sines 0)) (nth (N.to_nat g) m 0) in
  State (sd st) (add32 (sb st) (rotl32 f' (nth i shifts 0))) (sb st) (sc st).

Definition compress (st : state) (block : bytes) : state :=
  let st' := fold_left (round (words block)) (seq 0 64) st in
  State (add32 (sa st) (sa st')) (add32 (sb st) (sb st'))
        (add32 (sc st) (sc st')) (add32 (sd st) (sd st')).

Definition le_bytes (count : nat) (w : N) : bytes :=
  map (fun k => (w / 256 ^ N.of_nat k) mod 256) (seq 0 count).

Definition padding (len : nat) : bytes :=
  0x80 :: repeat 0 ((119 - len mod 64) mod 64)%nat
    ++ le_bytes 8 (8 * N.of_nat len).

Fixpoint blocks (fuel : nat) (msg : bytes) : list bytes :=
  match fuel, msg with
  | S fuel, _ :: _ => firstn 64 msg :: blocks fuel (skipn 64 msg)
  | _, _ => []
  end.

Definition final (msg : bytes) : state :=
  let padded := msg ++ padding (length msg) in
  fold_left compress (blocks (length padded) padded) initial.

Definition digest (msg : bytes) : bytes :=
  let st := final msg in
  le_bytes 4 (sa st) ++ le_bytes 4 (sb st) ++ le_bytes 4 (sc st) ++ le_bytes 4 (sd st).

Definition hexdigest (msg : bytes) : string := hex_of_bytes (digest msg).
End MD5.

(** ** Python values used by the script *)

(** Exceptions that the script lets escape. *)
Inductive error :=
  | IndexError        (* [kr[-1]] on an empty string *)
  | ReadError         (* [open] or [json.load] failed on an existing file *)
  | CopyError         (* [shutil.copy2] raised: the source is not a regular file *)
  | SynthesisError.   (* [tts.save] raised *)

Inductive result (A : Type) :=
  | Ok (a : A)
  | Raise (e : error).
Arguments Ok {A} a.
Arguments Raise {A} e.

Definition bind {A B} (c : result A) (k : A → result B) : result B :=
  match c with
  | Ok a => k a
  | Raise e => Raise e
  end.

Notation "'let*' x := c 'in' k" := (bind c (fun x => k))
  (at level 10, x pattern, c at level 100, k at level 200).

(** A [for] loop whose body may raise. *)
Fixpoint for_each {A S} (body : A → S → result S) (xs : list A) (s : S) : result S :=
  match xs with
  | [] => Ok s
  | x :: xs => let* s' := body x s in for_each body xs s'
  end.

(** A [for] loop whose body has effects that stay when it raises: the state
    after the last iteration that ended, and the exception that ended the
    loop if one did. *)
Fixpoint for_loop {A S} (body : S → A → result S) (xs : list A) (s : S)
  : S * option error :=
  match xs with
  | [] => (s, None)
  | x :: xs =>
      match body s x with
      | Ok s' => for_loop body xs s'
      | Raise e => (s, Some e)
      end
  end.

(** [enumerate(xs)] *)
Definition enumerate {A} (xs : list A) : list (nat * A) :=
  zip (seq 0 (length xs)) xs.

(** A [dict] of strings keeps its keys in insertion order; assigning to a
    key that is present replaces the value in place. *)
Definition dict := list (string * string).

Fixpoint dict_set (k v : string) (d : dict) : dict :=
  match d with
  | [] => [(k, v)]
  | (k', v') :: d' =>
      if decide (k = k') then (k, v) :: d' else (k', v') :: dict_set k v d'
  end.

Definition dict_keys (d : dict) : list string := d.*1.
Definition dict_values (d : dict) : list string := d.*2.

(** [s.endswith(suffix)] *)
Definition endswith (s suffix : string) : bool :=
  let n := String.length s in
  let k := String.length suffix in
  (k <=? n)%nat && String.eqb (substring (n - k) k s) suffix.

(** ** [has_jongseong] *)

(** Code points of a UTF-8 string; [need] continuation bytes are still
    expected for the code point accumulated in [acc]. *)
Fixpoint utf8_decode_from (bs : bytes) (need : nat) (acc : N) : list N :=
  match bs with
  | [] => []
  | b :: rest =>
      match need with
      | S k =>
          let acc' := (acc * 64 + b mod 64)%N in
          match k with
          | O => acc' :: utf8_decode_from rest 0 0
          | S _ => utf8_decode_from rest k acc'
          end
      | O =>
          if (b <? 0x80)%N then b :: utf8_decode_from rest 0 0
          else if (b <? 0xE0)%N then utf8_decode_from rest 1 (b mod 32)%N
          else if (b <? 0xF0)%N then utf8_decode_from rest 2 (b mod 16)%N
          else utf8_decode_from rest 3 (b mod 8)%N
      end
  end.

Definition code_points (s : string) : list N :=
  utf8_decode_from (string_bytes s) 0 0.

(** [has_jongseong(char)], on [ord(char)]. *)
Definition has_jongseong (code : N) : bool :=
  if ((code <? 0xAC00) || (0xD7AF <? code))%N then false
  else negb ((code - 0xAC00) mod 28 =? 0)%N.

(** [kr + (yes if has_jongseong(kr[-1]) else no)] *)
Definition with_particle (kr yes no : string) : result string :=
  match last (code_points kr) with
  | None => Raise IndexError
  | Some code => Ok (kr +:+ (if has_jongseong code then yes else no))
  end.

(** ** The input documents

    The records give [data/vocab.json] and [data/sentences.json] the shape
    the extractor reads: a list stands for an array that [.get(key, [])]
    defaults to empty, a plain [string] for a field read with [x['kr']], an
    [option] for a key tested with [in]. *)

Record place := Place {
  place_kr : string;
  formE : option string;       (* [p['formE']['kr']] *)
  formEseo : option string     (* [p['formEseo']['kr']] *)
}.

Record verb := Verb {
  past : option string;
  present : option string;
  future : option string
}.

Record situation := Situation {
  correct : option string;
  options : list string
}.

Record vocab := Vocab {
  action_subjects : list string;
  action_times : list string;
  action_places : list place;
  action_objects : list string;
  action_verbs : list verb;
  describe_subjects : list string;
  describe_adjectives : list string;
  describe_adverbs : list string;
  flashcards_categories : list (list string);   (* the cards of each category *)
  intro_topics : list string;
  intro_nouns : list string;
  quiz_situations : list situation
}.

(** [sentences.json]: chapters of sentences, each with an optional ['kr'];
    [None] when the file does not exist. *)
Definition sentences := option (list (list (option string))).

(** ** [extract_all_texts] *)

Definition add (x : string) (texts : gset string) : gset string := {[x]} ∪ texts.

Definition add_opt (x : option string) (texts : gset string) : gset string :=
  match x with
  | Some x => add x texts
  | None => texts
  end.

Definition add_list (xs : list string) (texts : gset string) : gset string :=
  foldl (fun t x => add x t) texts xs.

Definition add_with_particle (yes no : string) (kr : string) (texts : gset string)
  : result (gset string) :=
  let texts := add kr texts in
  let* x := with_particle kr yes no in
  Ok (add x texts).

Definition collect_texts (data : vocab) (sdata : sentences) : result (gset string) :=
  let texts : gset string := ∅ in
  (* Action *)
  let texts := add_list (action_subjects data) texts in
  let texts := add_list (action_times data) texts in
  let texts :=
    foldl (fun t p => add_opt (formEseo p) (add_opt (formE p) (add (place_kr p) t)))
          texts (action_places data) in
  let* texts := for_each (add_with_particle "을" "를") (action_objects data) texts in
  let texts :=
    foldl (fun t v => add_opt (future v) (add_opt (present v) (add_opt (past v) t)))
          texts (action_verbs data) in
  (* Describe *)
  let* texts := for_each (add_with_particle "이" "가") (describe_subjects data) texts in
  let texts := add_list (describe_adjectives data) texts in
  let texts := add_list (describe_adverbs data) texts in
  (* Flashcards *)
  let texts := foldl (fun t cards => add_list cards t) texts (flashcards_categories data) in
  (* Intro *)
  let texts := add_list (intro_topics data) texts in
  let* texts := for_each (add_with_particle "이에요" "예요") (intro_nouns data) texts in
  (* Quiz *)
  let texts :=
    foldl (fun t s => add_list (options s) (add_opt (correct s) t))
          texts (quiz_situations data) in
  (* Sentences *)
  let texts :=
    match sdata with
    | Some chapters =>
        foldl (fun t ch => foldl (fun t s => add_opt s t) t ch) texts chapters
    | None => texts
    end in
  Ok texts.

(** [sorted(texts)] on a set of strings. *)
Definition sorted (texts : gset string) : list string :=
  merge_sort String.le (elements texts).

Definition extract_all_texts (data : vocab) (sdata : sentences) : result (list string) :=
  let* texts := collect_texts data sdata in
  let texts := texts ∖ {[""]} in
  Ok (sorted texts).

(** ** [repo_filename] and [text_to_filename] *)

Fixpoint zero_pad (k : nat) (d : uint) : uint :=
  match k with
  | O => d
  | S k => D0 (zero_pad k d)
  end.

(** [f'{index:04d}'] *)
Definition format_04d (index : nat) : string :=
  let d := Nat.to_uint index in
  NilEmpty.string_of_uint (zero_pad (4 - nb_digits d) d).

Definition repo_filename (text : string) (index : nat) : string :=
  let h := substring 0 6 (MD5.hexdigest (string_bytes text)) in
  format_04d index +:+ "_" +:+ h +:+ ".mp3".

(** The same function in [generate_tts.py]. *)
Definition text_to_filename (text : string) (index : nat) : string :=
  let h := substring 0 6 (MD5.hexdigest (string_bytes text)) in
  format_04d index +:+ "_" +:+ h +:+ ".mp3".

(** ** [json.dump(manifest, f, ensure_ascii=False, indent=2)] *)

Definition dquote : ascii := "034"%char.
Definition newline : ascii := "010"%char.

Definition json_escape (c : ascii) : string :=
  let n := N_of_ascii c in
  if (n =? 34)%N then String "\" (String dquote "")
  else if (n =? 92)%N then "\\"
  else if (n =? 8)%N then "\b"
  else if (n =? 12)%N then "\f"
  else if (n =? 10)%N then "\n"
  else if (n =? 13)%N then "\r"
  else if (n =? 9)%N then "\t"
  else if (n <? 32)%N then "\u00" +:+ string_of_list_ascii (byte_hex n)
  else String c "".

Fixpoint json_escape_all (s : string) : string :=
  match s with
  | EmptyString => ""
  | String c s => json_escape c +:+ json_escape_all s
  end.

Definition json_string (s : string) : string :=
  String dquote (json_escape_all s) +:+ String dquote "".

Definition json_item (kv : string * string) : string :=
  json_string kv.1 +:+ ": " +:+ json_string kv.2.

Definition json_dumps (d : dict) : string :=
  match d with
  | [] => "{}"
  | _ =>
      let indent := String newline "  " in
      "{" +:+ indent
          +:+ String.concat ("," +:+ indent) (map json_item d)
          +:+ String newline "}"
  end.

(** ** Files *)

(** A directory: entry name to file content. *)
Abbreviation directory := (gmap string string).

Definition MANIFEST_NAME : string := "manifest.json".

(** [os.listdir] *)
Definition listdir (dir : directory) : list string := elements (dom dir).

(** [open(name, 'w')]: the file is created, or truncated when it exists. *)
Definition open_w (name : string) (dir : directory) : directory :=
  <[name := ""]> dir.

(** [f.write(data)] on the file opened at [name]. *)
Definition write (name data : string) (dir : directory) : directory :=
  match dir !! name with
  | Some written => <[name := written +:+ data]> dir
  | None => dir
  end.

(** The reference manifest [CENTRAL_MANIFEST] as the script finds it. *)
Inductive manifest_file :=
  | Missing                               (* [os.path.exists] is false *)
  | Unreadable                            (* exists, [open] or [json.load] raises *)
  | Readable (entries : gmap string string).

(** What a path below [CENTRAL_AUDIO] denotes when [os.path.exists] is true
    of it: a regular file, which [shutil.copy2] copies, or something else (a
    directory, as for the name [''], which denotes [CENTRAL_AUDIO] itself),
    on which [shutil.copy2] raises. *)
Inductive node :=
  | File (content : string)
  | Other.

(** [CENTRAL_AUDIO]: what [os.path.join(CENTRAL_AUDIO, name)] denotes, for
    the names for which it denotes something. *)
Abbreviation audio_tree := (gmap string node).

(** The tree of an audio directory that exists and holds the regular
    files [files]: the name [''] denotes the directory itself.  The empty
    tree is that of an audio directory that does not exist. *)
Definition audio_directory (files : directory) : audio_tree :=
  <["" := Other]> (File <$> files).

(** TTS-Central: its manifest and its [audio/] directory. *)
Record central := Central {
  central_manifest_file : manifest_file;
  central_audio : audio_tree
}.

(** [edge_tts]: the audio for a text, or [None] when [tts.save] raises. *)
Abbreviation synthesizer := (string → option string).

(** ** [main]: cache resolution (the [for i, text in enumerate(texts)] loop) *)

Definition load_central_manifest (f : manifest_file) : result (gmap string string) :=
  match f with
  | Missing => Ok ∅
  | Unreadable => Raise ReadError
  | Readable entries => Ok entries
  end.

(** The variables of [main] that the loop updates; [store] is [AUDIO_DIR]. *)
Record plan := Plan {
  manifest : dict;
  to_generate : list (string * string);   (* (text, entry name of fpath) *)
  copied : nat;
  store : directory
}.

(** One iteration of the loop.  [os.path.exists(central_path)] is true of
    whatever the path denotes; [shutil.copy2] copies a regular file and
    raises on anything else, which ends the loop and [main]. *)
Definition resolve_step (central_manifest : gmap string string) (central_audio : audio_tree)
    (p : plan) (item : nat * string) : result plan :=
  let '(i, text) := item in
  let fname := repo_filename text i in
  let manifest' := dict_set text fname (manifest p) in
  let miss := Plan manifest' (to_generate p ++ [(text, fname)]) (copied p) (store p) in
  match central_manifest !! text with
  | Some central_fname =>
      match central_audio !! central_fname with
      | Some (File audio) =>
          Ok (Plan manifest' (to_generate p) (copied p + 1) (<[fname := audio]> (store p)))
      | Some Other => Raise CopyError
      | None => Ok miss
      end
  | None => Ok miss
  end.

(** The loop: the variables when it ends, and the exception of
    [shutil.copy2] if that is what ended it; the copies of the earlier
    iterations are in the store then. *)
Definition resolve (central_manifest : gmap string string) (central_audio : audio_tree)
    (texts : list string) (dir : directory) : plan * option error :=
  for_loop (resolve_step central_manifest central_audio) (enumerate texts) (Plan [] [] 0 dir).

(** ** [generate_tts] behind [asyncio.Semaphore(5)], and [asyncio.gather]

    Task [i] runs [generate_tts] for the [i]-th pending item.  It waits at
    [async with sem], is in flight from the moment it holds a slot (it calls
    [tts.save] without suspending in between) and ends done or failed; the
    slot is given back on either exit of the [async with] block.  The event
    loop is driven by a schedule: the list of tasks that take their next
    step, in the order the loop runs them. *)

Inductive task := Waiting | InFlight | Done | Failed.

Global Instance task_eq_dec : EqDecision task.
Proof. solve_decision. Defined.

Record gate := Gate {
  sem_value : nat;              (* slots that no task in the block holds *)
  tasks : list task;
  calls : list string;          (* texts handed to [tts.save], in call order *)
  counter : nat;                (* [counter[0]] *)
  gate_store : directory
}.

Definition SEM_LIMIT : nat := 5.

Definition gate_init (pending : list (string * string)) (dir : directory) : gate :=
  Gate SEM_LIMIT (replicate (length pending) Waiting) [] 0 dir.

Inductive gathered := Returned | Raised | Pending.

(** What [await asyncio.gather] of the tasks gives [main] when it is resumed:
    the exception of a task that has failed, or nothing when all are done.
    [gather] cancels no task. *)
Definition gather (g : gate) : gathered :=
  if bool_decide (Failed ∈ tasks g) then Raised
  else if bool_decide (Forall (eq Done) (tasks g)) then Returned
  else Pending.

Definition in_flight (g : gate) : nat :=
  length (filter (eq InFlight) (tasks g)).

(** Task [i] of [generate_tts] takes its next step: it enters the
    [async with sem] block when a slot is free, or it leaves the block with
    [tts.save] done or raised.  The failure of another task changes nothing
    for it: the slot that the failed task gave back can be taken, and a
    task in flight can still save its file. *)
Definition generate_tts_step (synth : synthesizer) (pending : list (string * string))
    (g : gate) (i : nat) : gate :=
  match tasks g !! i, pending !! i with
  | Some Waiting, Some (text, fpath) =>
      match sem_value g with
      | O => g                                  (* [sem.acquire()] blocks *)
      | S free =>
          Gate free (<[i := InFlight]> (tasks g)) (calls g ++ [text])
               (counter g) (gate_store g)
      end
  | Some InFlight, Some (text, fpath) =>
      match synth text with
      | Some audio =>
          Gate (S (sem_value g)) (<[i := Done]> (tasks g)) (calls g)
               (S (counter g)) (<[fpath := audio]> (gate_store g))
      | None =>
          Gate (S (sem_value g)) (<[i := Failed]> (tasks g)) (calls g)
               (counter g) (gate_store g)
      end
  | _, _ => g
  end.

Definition gate_run (synth : synthesizer) (pending : list (string * string))
    (schedule : list nat) (g : gate) : gate :=
  foldl (generate_tts_step synth pending) g schedule.

(** The same steps as a transition relation: what one task can do. *)
Inductive gate_transition (synth : synthesizer) (pending : list (string * string))
    (g : gate) (i : nat) : gate → Prop :=
  | step_acquire text fpath free :
      tasks g !! i = Some Waiting →
      pending !! i = Some (text, fpath) → sem_value g = S free →
      gate_transition synth pending g i
        (Gate free (<[i := InFlight]> (tasks g)) (calls g ++ [text])
              (counter g) (gate_store g))
  | step_saved text fpath audio :
      tasks g !! i = Some InFlight →
      pending !! i = Some (text, fpath) → synth text = Some audio →
      gate_transition synth pending g i
        (Gate (S (sem_value g)) (<[i := Done]> (tasks g)) (calls g)
              (S (counter g)) (<[fpath := audio]> (gate_store g)))
  | step_failed text fpath :
      tasks g !! i = Some InFlight →
      pending !! i = Some (text, fpath) → synth text = None →
      gate_transition synth pending g i
        (Gate (S (sem_value g)) (<[i := Failed]> (tasks g)) (calls g)
              (counter g) (gate_store g))
  | step_blocked :
      gate_transition synth pending g i g.

(** A schedule that lets every task acquire and finish in turn. *)
Definition sequential_schedule (n : nat) : list nat :=
  flat_map (fun i => [i; i]) (seq 0 n).

(** ** [main]: writing the manifest and cleaning orphans *)

(** The states of [AUDIO_DIR] that the [with open(mpath, 'w')] block goes
    through: after [open], and after [json.dump] and the closing flush. *)
Definition write_manifest_steps (m : dict) (dir : directory) : list directory :=
  let opened := open_w MANIFEST_NAME dir in
  [opened; write MANIFEST_NAME (json_dumps m) opened].

Definition write_manifest (m : dict) (dir : directory) : directory :=
  write MANIFEST_NAME (json_dumps m) (open_w MANIFEST_NAME dir).

Definition is_orphan (valid : gset string) (f : string) : bool :=
  endswith f ".mp3" && bool_decide (f ∉ valid).

Definition clean_step (valid : gset string) (acc : directory * nat) (f : string)
  : directory * nat :=
  if is_orphan valid f then (delete f acc.1, S acc.2) else acc.

(** The [# Clean orphans] loop; returns the directory and [removed]. *)
Definition clean_orphans (m : dict) (dir : directory) : directory * nat :=
  let valid : gset string := list_to_set (dict_values m) in
  foldl (clean_step valid) (dir, 0) (listdir dir).

(** ** [main] *)

Record summary := Summary {
  total : nat;        (* [len(texts)] *)
  n_copied : nat;
  n_generate : nat;   (* [len(to_generate)] *)
  n_removed : nat
}.

Inductive outcome :=
  | Completed (report : summary) (dir : directory)
  | Aborted (e : error) (dir : directory)     (* an exception left [main] *)
  | Unfinished (dir : directory).             (* the schedule ends with [main] waiting *)

Definition final_store (o : outcome) : directory :=
  match o with
  | Completed _ dir | Aborted _ dir | Unfinished dir => dir
  end.

(** The part of [main] up to the end of the resolution loop: the texts and
    the variables of [main] there, or the exception that left [main]
    before. *)
Definition prepare (data : vocab) (sdata : sentences) (c : central) (dir : directory)
  : result (list string * plan) :=
  let* texts := extract_all_texts data sdata in
  let* central_manifest := load_central_manifest (central_manifest_file c) in
  match resolve central_manifest (central_audio c) texts dir with
  | (p, None) => Ok (texts, p)
  | (_, Some e) => Raise e
  end.

(** The gate as [main] uses it: skipped when [to_generate] is empty. *)
Definition synthesize (synth : synthesizer) (schedule : list nat) (p : plan) : gate :=
  match to_generate p with
  | [] => Gate SEM_LIMIT [] [] 0 (store p)
  | pending => gate_run synth pending schedule (gate_init pending (store p))
  end.

(** The part of [main] from [if to_generate:] on. *)
Definition finish (texts : list string) (p : plan) (synth : synthesizer)
    (schedule : list nat) : outcome :=
  let g := synthesize synth schedule p in
  match gather g with
  | Raised => Aborted SynthesisError (gate_store g)
  | Pending => Unfinished (gate_store g)
  | Returned =>
      let dir1 := write_manifest (manifest p) (gate_store g) in
      let '(dir2, removed) := clean_orphans (manifest p) dir1 in
      Completed (Summary (length texts) (copied p) (length (to_generate p)) removed) dir2
  end.

(** [main]; an exception leaves it with the store as it is at that moment:
    untouched while the documents are read, with the copies made so far
    when [shutil.copy2] raises, and with what the tasks have saved when
    [asyncio.gather] raises. *)
Definition main (data : vocab) (sdata : sentences) (c : central)
    (synth : synthesizer) (schedule : list nat) (dir : directory) : outcome :=
  match extract_all_texts data sdata with
  | Raise e => Aborted e dir
  | Ok texts =>
      match load_central_manifest (central_manifest_file c) with
      | Raise e => Aborted e dir
      | Ok central_manifest =>
          match resolve central_manifest (central_audio c) texts dir with
          | (p, Some e) => Aborted e (store p)
          | (p, None) => finish texts p synth schedule
          end
      end
  end.

(** ** Sample inputs *)

Definition sample_vocab : vocab :=
  Vocab ["안녕"] [] [] [] [] [] [] [] [["사랑해요"; "안녕"]] ["학교"; ""] [] [].

Definition sample_central : central :=
  Central (Readable {["안녕" := "a1.mp3"]}) (audio_directory {["a1.mp3" := "ANNYEONG"]}).

Definition sample_synth : synthesizer := fun text => Some ("AUDIO " +:+ text).

Definition sample_store : directory :=
  {["manifest.json" := "{}"; "0007_c0ffee.mp3" := "OLD"; "notes.txt" := "keep"]}.

(** A synthesizer that fails on one text. *)
Definition sample_failing_synth : synthesizer :=
  fun text => if decide (text = "학교") then None else Some ("AUDIO " +:+ text).

Definition sample_schedule : list nat := sequential_schedule 2.

(** The texts of [sample_vocab], and the store after a complete run. *)
Definition sample_texts : list string := ["사랑해요"; "안녕"; "학교"].

Definition sample_manifest : dict :=
  [("사랑해요", "0000_137a01.mp3"); ("안녕", "0001_ef1c51.mp3"); ("학교", "0002_09b9db.mp3")].

(** ** Shapes that the statements below talk about *)

Definition is_digit_char (c : ascii) : bool :=
  bool_decide (c ∈ ["0"; "1"; "2"; "3"; "4"; "5"; "6"; "7"; "8"; "9"]%char).

Definition all_chars (P : ascii → bool) (s : string) : Prop :=
  Forall (fun c => P c = true) (list_ascii_of_string s).


(** What the resolution loop copies for a text: the content of the regular
    file that the reference manifest names, when there is one. *)
Definition cached (central_manifest : gmap string string) (central_audio : audio_tree)
    (text : string) : option string :=
  match central_manifest !! text with
  | Some central_fname =>
      match central_audio !! central_fname with
      | Some (File audio) => Some audio
      | _ => None
      end
  | None => None
  end.

(** The reference of a text names something that is not a regular file. *)
Definition uncopyable (central_manifest : gmap string string) (central_audio : audio_tree)
    (text : string) : Prop :=
  ∃ central_fname,
    central_manifest !! text = Some central_fname
    ∧ central_audio !! central_fname = Some Other.

Definition item_name (it : nat * string) : string * string :=
  (it.2, repo_filename it.2 it.1).

(** The manifest that the resolution loop builds from the sorted texts. *)
Definition named (texts : list string) : list (string * string) :=
  map item_name (enumerate texts).


(** ** Well-formed texts and what the extractor names *)

(** The bytes are a sequence of complete UTF-8 characters (one lead byte
    and the continuation bytes it announces); [need] continuation bytes are
    still expected. *)
Fixpoint utf8_valid_from (bs : bytes) (need : nat) : bool :=
  match bs with
  | [] => match need with O => true | S _ => false end
  | b :: rest =>
      match need with
      | S k => (0x80 <=? b)%N && (b <? 0xC0)%N && utf8_valid_from rest k
      | O =>
          if (b <? 0x80)%N then utf8_valid_from rest 0
          else if (b <? 0xC0)%N then false
          else if (b <? 0xE0)%N then utf8_valid_from rest 1
          else if (b <? 0xF0)%N then utf8_valid_from rest 2
          else if (b <? 0xF8)%N then utf8_valid_from rest 3
          else false
      end
  end.

Definition well_formed (s : string) : Prop :=
  utf8_valid_from (string_bytes s) 0 = true.

(** [t] is [kr] or [kr] with the particle that [with_particle] chooses. *)
Definition particle_form (yes no kr t : string) : Prop :=
  t = kr ∨ with_particle kr yes no = Ok t.

(** The strings that the documents name where [collect_texts] reads. *)
Definition named_in (data : vocab) (sdata : sentences) (t : string) : Prop :=
  t ∈ action_subjects data
  ∨ t ∈ action_times data
  ∨ (∃ p, p ∈ action_places data
          ∧ (t = place_kr p ∨ formE p = Some t ∨ formEseo p = Some t))
  ∨ (∃ kr, kr ∈ action_objects data ∧ particle_form "을" "를" kr t)
  ∨ (∃ v, v ∈ action_verbs data
          ∧ (past v = Some t ∨ present v = Some t ∨ future v = Some t))
  ∨ (∃ kr, kr ∈ describe_subjects data ∧ particle_form "이" "가" kr t)
  ∨ t ∈ describe_adjectives data
  ∨ t ∈ describe_adverbs data
  ∨ (∃ cards, cards ∈ flashcards_categories data ∧ t ∈ cards)
  ∨ t ∈ intro_topics data
  ∨ (∃ kr, kr ∈ intro_nouns data ∧ particle_form "이에요" "예요" kr t)
  ∨ (∃ s, s ∈ quiz_situations data ∧ (correct s = Some t ∨ t ∈ options s))
  ∨ (∃ chapters ch, sdata = Some chapters ∧ ch ∈ chapters ∧ Some t ∈ ch).

(** The nouns to which the extractor attaches a particle. *)
Definition particle_nouns (data : vocab) : list string :=
  action_objects data ++ describe_subjects data ++ intro_nouns data.

(** The audio that a run stores for a text: the copy from TTS-Central when
    resolution finds one, the synthesized audio otherwise. *)
Definition audio_for (central_manifest : gmap string string) (central_audio : audio_tree)
    (synth : synthesizer) (text : string) : option string :=
  match cached central_manifest central_audio text with
  | Some audio => Some audio
  | None => synth text
  end.


(** * [generate_tts.py]

    The script at the root of the repository: it synthesizes every text,
    without TTS-Central and without removing anything.  [has_jongseong],
    [text_to_filename] and [generate] are the functions of [build_tts.py]
    under other names ([generate] counts in a global instead of a list cell),
    so the gate above stands for [generate] too. *)

Module GenerateTts.

(** [extract_all_texts(data)]: the set of the texts of [vocab.json]. *)
Definition extract_all_texts (data : vocab) : result (gset string) :=
  let texts : gset string := ∅ in
  (* Action data *)
  let texts := add_list (action_subjects data) texts in
  let texts := add_list (action_times data) texts in
  let texts :=
    foldl (fun t p => add_opt (formEseo p) (add_opt (formE p) (add (place_kr p) t)))
          texts (action_places data) in
  let* texts := for_each (add_with_particle "을" "를") (action_objects data) texts in
  let texts :=
    foldl (fun t v => add_opt (future v) (add_opt (present v) (add_opt (past v) t)))
          texts (action_verbs data) in
  (* Describe data *)
  let* texts := for_each (add_with_particle "이" "가") (describe_subjects data) texts in
  let texts := add_list (describe_adjectives data) texts in
  let texts := add_list (describe_adverbs data) texts in
  (* Flashcard extra vocabulary *)
  let texts := foldl (fun t cards => add_list cards t) texts (flashcards_categories data) in
  (* Intro data *)
  let texts := add_list (intro_topics data) texts in
  let* texts := for_each (add_with_particle "이에요" "예요") (intro_nouns data) texts in
  (* Quiz data *)
  let texts :=
    foldl (fun t s => add_list (options s) (add_opt (correct s) t))
          texts (quiz_situations data) in
  Ok texts.

(** [extract_sentence_texts(sentences_path)] *)
Definition extract_sentence_texts (sdata : sentences) : gset string :=
  let texts : gset string := ∅ in
  match sdata with
  | None => texts
  | Some chapters =>
      foldl (fun t ch => foldl (fun t s => add_opt s t) t ch) texts chapters
  end.

(** The first lines of [main]: the sorted texts. *)
Definition required_texts (data : vocab) (sdata : sentences) : result (list string) :=
  let* texts := extract_all_texts data in
  let texts := texts ∪ extract_sentence_texts sdata in     (* [texts.update] *)
  let texts := texts ∖ {[""]} in
  Ok (sorted texts).

(** The body of the loop of [main]: a manifest entry and a task per text. *)
Definition enqueue (st : dict * list (string * string)) (item : nat * string)
  : dict * list (string * string) :=
  let '(i, text) := item in
  let fname := text_to_filename text i in
  (dict_set text fname st.1, st.2 ++ [(text, fname)]).

Inductive outcome :=
  | Completed (total_count : nat) (dir : directory)
  | Aborted (e : error) (dir : directory)
  | Unfinished (dir : directory).

Definition main (data : vocab) (sdata : sentences)
    (synth : synthesizer) (schedule : list nat) (dir : directory) : outcome :=
  match required_texts data sdata with
  | Raise e => Aborted e dir
  | Ok texts =>
      let '(manifest, tasks) := foldl enqueue ([], []) (enumerate texts) in
      let g := gate_run synth tasks schedule (gate_init tasks dir) in
      match gather g with
      | Raised => Aborted SynthesisError (gate_store g)
      | Pending => Unfinished (gate_store g)
      | Returned => Completed (length texts) (write_manifest manifest (gate_store g))
      end
  end.

End GenerateTts.


(** * [scripts/merge_vocab.py]

    The script that builds the Hub's [data/vocab.json] from the student
    repositories.  An entry of a vocabulary list is a JSON object of which
    the script reads ['kr'] only and carries the rest along: the entries
    are an arbitrary type [item] with the function [kr] that gives
    [item.get('kr', '')].  The records give the other objects the fields
    that the script reads. *)

(** A [dict] with string keys and values of any type, in insertion order. *)
Fixpoint od_get {V} (k : string) (d : list (string * V)) : option V :=
  match d with
  | [] => None
  | (k', v) :: d' => if decide (k = k') then Some v else od_get k d'
  end.

Fixpoint od_set {V} (k : string) (v : V) (d : list (string * V)) : list (string * V) :=
  match d with
  | [] => [(k, v)]
  | (k', v') :: d' =>
      if decide (k = k') then (k, v) :: d' else (k', v') :: od_set k v d'
  end.

Module MergeVocab.

Definition GITHUB_USER : string := "g4jy".

Definition STUDENT_REPOS : list string :=
  [ "korean-practice-agata"; "korean-practice-charline"; "korean-practice-chasity";
    "korean-practice-clayton"; "korean-practice-corine"; "korean-practice-ignacio";
    "korean-practice-inessa"; "korean-practice-jaida"; "korean-practice-jowita";
    "korean-practice-kath"; "korean-practice-madia"; "korean-practice-maimuna";
    "korean-practice-noelle"; "korean-practice-nora"; "korean-practice-rahayu";
    "korean-practice-samantha"; "korean-practice-violeta"; "korean-practice-woraphun";
    "korean-practice-yannis" ].

(** The loop shared by [dedup_by_kr] and [merge_quiz_situations]: keep the
    first entry of each non-empty key. *)
Definition dedup_step {A} (key : A → string) (st : gset string * list A) (x : A)
  : gset string * list A :=
  let k := key x in
  if bool_decide (k ≠ "") && bool_decide (k ∉ st.1)
  then ({[k]} ∪ st.1, st.2 ++ [x])
  else st.

Definition dedup_by {A} (key : A → string) (items : list A) : list A :=
  (foldl (dedup_step key) (∅, []) items).2.

(** A verb: ['id'], the tenses that [build_tts.py] reads (['present'] among
    them), ['objectTypes'] and ['compatibleObjects']. *)
Record verb_entry := VerbEntry {
  verb_id : option string;
  tenses : verb;
  objectTypes : option (list string);
  compatibleObjects : option (list string)
}.

(** [v.get('id', v.get('present', ''))] *)
Definition verb_key (v : verb_entry) : string :=
  match verb_id v with
  | Some vid => vid
  | None => default "" (present (tenses v))
  end.

(** The entry of [by_id]: the copy of the verb, [_objectTypes] and
    [_compatibleObjects]. *)
Definition verb_group : Type := verb_entry * gset string * gset string.

Definition merge_verbs_step (by_id : list (string * verb_group)) (v : verb_entry)
  : list (string * verb_group) :=
  let vid := verb_key v in
  if decide (vid = "") then by_id
  else
    let types : gset string := list_to_set (default [] (objectTypes v)) in
    let objects : gset string := list_to_set (default [] (compatibleObjects v)) in
    match od_get vid by_id with
    | None => od_set vid (v, types, objects) by_id
    | Some (existing, types0, objects0) =>
        od_set vid (existing, types0 ∪ types, objects0 ∪ objects) by_id
    end.

Definition merge_verbs_finish (entry : string * verb_group) : verb_entry :=
  let '(_, (v, types, objects)) := entry in
  VerbEntry (verb_id v) (tenses v) (Some (sorted types)) (Some (sorted objects)).

Definition merge_verbs (all_verbs : list verb_entry) : list verb_entry :=
  map merge_verbs_finish (foldl merge_verbs_step [] all_verbs).

(** A quiz situation: ['situation'] and what [build_tts.py] reads. *)
Record situation_entry := SituationEntry {
  situation_text : string;          (* [s.get('situation', '')] *)
  quiz : situation
}.

Definition merge_quiz_situations (all_situations : list situation_entry)
  : list situation_entry :=
  dedup_by situation_text all_situations.

Section items.
Context {item : Type} (kr : item → string).

Definition dedup_by_kr (items : list item) : list item := dedup_by kr items.

(** A flashcard category: ['name'] and ['cards']. *)
Record category := Category {
  name : option string;
  cards : list item
}.

Definition category_name (cat : category) : string := default "Other" (name cat).

Definition merge_categories_step (by_name : gmap string (list item)) (cat : category)
  : gmap string (list item) :=
  let n := category_name cat in
  <[n := default [] (by_name !! n) ++ cards cat]> by_name.

Definition merge_flashcard_categories (all_categories : list category) : list category :=
  let by_name := foldl merge_categories_step ∅ all_categories in
  map (fun n => Category (Some n) (dedup_by_kr (default [] (by_name !! n))))
      (sorted (dom by_name)).

(** An intro topic: an entry with ['compatibleNounTypes']. *)
Record topic := Topic {
  topic_item : item;
  compatibleNounTypes : option (list string)
}.

Definition topic_kr (t : topic) : string := kr (topic_item t).

Definition merge_intro_topics_step (by_kr : list (string * (topic * gset string)))
    (t : topic) : list (string * (topic * gset string)) :=
  let k := topic_kr t in
  if decide (k = "") then by_kr
  else
    let types : gset string := list_to_set (default [] (compatibleNounTypes t)) in
    match od_get k by_kr with
    | None => od_set k (t, types) by_kr
    | Some (existing, types0) => od_set k (existing, types0 ∪ types) by_kr
    end.

Definition merge_intro_topics_finish (entry : string * (topic * gset string)) : topic :=
  let '(_, (t, types)) := entry in
  if decide (types = ∅) then t
  else Topic (topic_item t) (Some (sorted types)).

Definition merge_intro_topics (all_topics : list topic) : list topic :=
  map merge_intro_topics_finish (foldl merge_intro_topics_step [] all_topics).

(** A student's [vocab.json], as [main] reads it. *)
Record document := Document {
  student : option string;
  doc_subjects : list item;
  doc_times : list item;
  doc_places : list item;
  doc_objects : list item;
  doc_verbs : list verb_entry;
  doc_describe_subjects : list item;
  doc_adjectives : list item;
  doc_adverbs : list item;
  doc_categories : list category;
  doc_topics : list topic;
  doc_nouns : list item;
  doc_situations : list situation_entry
}.

(** What [json.loads] gives: an object with at least one key, or a value
    that counts as false ([{}], [null], ...). *)
Inductive payload :=
  | Falsy
  | Object (data : document).

(** What [urlopen] and [json.loads] give for a URL. *)
Inductive response :=
  | HTTPError
  | OtherError                       (* any other exception *)
  | Loaded (data : payload).

Definition vocab_url (repo branch : string) : string :=
  "https://raw.githubusercontent.com/" +:+ GITHUB_USER +:+ "/" +:+ repo +:+ "/"
    +:+ branch +:+ "/data/vocab.json".

Fixpoint fetch_from (urlopen : string → response) (repo : string) (branches : list string)
  : option payload :=
  match branches with
  | [] => None
  | branch :: rest =>
      match urlopen (vocab_url repo branch) with
      | Loaded data => Some data
      | HTTPError | OtherError => fetch_from urlopen repo rest
      end
  end.

Definition fetch_vocab (urlopen : string → response) (repo : string) : option payload :=
  fetch_from urlopen repo ["master"; "main"].

(** The merged vocabulary; ['intro'] and ['quiz'] are optional keys. *)
Record merged := Merged {
  merged_subjects : list item;
  merged_times : list item;
  merged_places : list item;
  merged_objects : list item;
  merged_verbs : list verb_entry;
  merged_describe_subjects : list item;
  merged_adjectives : list item;
  merged_adverbs : list item;
  merged_categories : list category;
  merged_intro : option (list topic * list item);
  merged_quiz : option (list situation_entry)
}.

(** The accumulators of [main]. *)
Record accumulators := Accumulators {
  all_subjects : list item;
  all_times : list item;
  all_places : list item;
  all_objects : list item;
  all_verbs : list verb_entry;
  all_desc_subjects : list item;
  all_adjectives : list item;
  all_adverbs : list item;
  all_fc_categories : list category;
  all_intro_topics : list topic;
  all_intro_nouns : list item;
  all_quiz_situations : list situation_entry;
  fetched : nat
}.

Definition accumulate (urlopen : string → response) (acc : accumulators) (repo : string)
  : accumulators :=
  match fetch_vocab urlopen repo with
  | None | Some Falsy => acc                     (* [if not data]: SKIP *)
  | Some (Object data) =>
      Accumulators
        (all_subjects acc ++ doc_subjects data)
        (all_times acc ++ doc_times data)
        (all_places acc ++ doc_places data)
        (all_objects acc ++ doc_objects data)
        (all_verbs acc ++ doc_verbs data)
        (all_desc_subjects acc ++ doc_describe_subjects data)
        (all_adjectives acc ++ doc_adjectives data)
        (all_adverbs acc ++ doc_adverbs data)
        (all_fc_categories acc ++ doc_categories data)
        (all_intro_topics acc ++ doc_topics data)
        (all_intro_nouns acc ++ doc_nouns data)
        (all_quiz_situations acc ++ doc_situations data)
        (S (fetched acc))
  end.

Definition build_merged (acc : accumulators) : merged :=
  Merged
    (dedup_by_kr (all_subjects acc))
    (dedup_by_kr (all_times acc))
    (dedup_by_kr (all_places acc))
    (dedup_by_kr (all_objects acc))
    (merge_verbs (all_verbs acc))
    (dedup_by_kr (all_desc_subjects acc))
    (dedup_by_kr (all_adjectives acc))
    (dedup_by_kr (all_adverbs acc))
    (merge_flashcard_categories (all_fc_categories acc))
    (match all_intro_topics acc with
     | [] => None
     | _ => Some (merge_intro_topics (all_intro_topics acc),
                  dedup_by_kr (all_intro_nouns acc))
     end)
    (match all_quiz_situations acc with
     | [] => None
     | _ => Some (merge_quiz_situations (all_quiz_situations acc))
     end).

(** [main], over the given repositories; it returns the document that it
    writes to [data/vocab.json] and the count [fetched]. *)
Definition main_over (repos : list string) (urlopen : string → response) : merged * nat :=
  let acc :=
    foldl (accumulate urlopen) (Accumulators [] [] [] [] [] [] [] [] [] [] [] [] 0) repos in
  (build_merged acc, fetched acc).

Definition main (urlopen : string → response) : merged * nat :=
  main_over STUDENT_REPOS urlopen.


End items.

Arguments category item : clear implicits.
Arguments topic item : clear implicits.
Arguments document item : clear implicits.
Arguments payload item : clear implicits.
Arguments response item : clear implicits.
Arguments merged item : clear implicits.
Arguments accumulators item : clear implicits.

End MergeVocab.

(** * Properties *)

(** ** Checks against the Python functions *)

Example md5_empty : MD5.hexdigest (string_bytes "") = "d41d8cd98f00b204e9800998ecf8427e".
Proof. vm_compute. reflexivity. Qed.

Example md5_abc : MD5.hexdigest (string_bytes "abc") = "900150983cd24fb0d6963f7d28e17f72".
Proof. vm_compute. reflexivity. Qed.

Example md5_annyeong :
  MD5.hexdigest (string_bytes "안녕") = "ef1c511c9efb9259438f098aff940740".
Proof. vm_compute. reflexivity. Qed.

Example md5_two_blocks :
  MD5.hexdigest (string_bytes "aaaaaaaaaaaaaaaaaaaaaaaaaaaaaaaaaaaaaaaaaaaaaaaaaaaaaaaa")
  = "3b0c8ac703f828b04c6c197006d17218".
Proof. vm_compute. reflexivity. Qed.

Example repo_filename_annyeong : repo_filename "안녕" 1 = "0001_ef1c51.mp3".
Proof. vm_compute. reflexivity. Qed.

Example particle_after_vowel : with_particle "학교" "을" "를" = Ok "학교를".
Proof. vm_compute. reflexivity. Qed.

Example particle_after_consonant : with_particle "책" "을" "를" = Ok "책을".
Proof. vm_compute. reflexivity. Qed.

Example particle_of_empty : with_particle "" "을" "를" = Raise IndexError.
Proof. reflexivity. Qed.

Example extract_sample : extract_all_texts sample_vocab None = Ok sample_texts.
Proof. vm_compute. reflexivity. Qed.

Example json_dumps_empty : json_dumps [] = "{}".
Proof. reflexivity. Qed.

Example json_dumps_sample :
  json_dumps [("a", "b"); ("c", String dquote "x")]
  = "{" +:+ String newline "  " +:+ String dquote "a" +:+ String dquote ": "
        +:+ String dquote "b" +:+ String dquote ","
        +:+ String newline "  " +:+ String dquote "c" +:+ String dquote ": "
        +:+ String dquote "\" +:+ String dquote "x" +:+ String dquote ""
        +:+ String newline "}".
Proof. vm_compute. reflexivity. Qed.

Example sample_run :
  main sample_vocab None sample_central sample_synth sample_schedule sample_store
  = Completed (Summary 3 1 2 1)
      {[ MANIFEST_NAME := json_dumps sample_manifest;
         "notes.txt" := "keep";
         "0000_137a01.mp3" := "AUDIO 사랑해요";
         "0001_ef1c51.mp3" := "ANNYEONG";
         "0002_09b9db.mp3" := "AUDIO 학교" ]}.
Proof. vm_compute. reflexivity. Qed.

(** ** Strings *)

Lemma append_cons c s t : String c s +:+ t = String c (s +:+ t).
Proof. reflexivity. Qed.

Lemma append_nil_l s : "" +:+ s = s.
Proof. reflexivity. Qed.

Lemma length_append s t : String.length (s +:+ t) = String.length s + String.length t.
Proof. induction s as [|c s IH]; [done|]. rewrite append_cons. simpl. by rewrite IH. Qed.

Lemma append_assoc s t u : s +:+ (t +:+ u) = (s +:+ t) +:+ u.
Proof. induction s as [|c s IH]; [done|]. rewrite !append_cons. by rewrite IH. Qed.

(** ** The decimal index *)


Lemma digits_string_of_uint d : all_chars is_digit_char (NilEmpty.string_of_uint d).
Proof.
  unfold all_chars.
  induction d; simpl; constructor; try done; by vm_compute.
Qed.


Lemma of_uint_zero_pad k d : Nat.of_uint (zero_pad k d) = Nat.of_uint d.
Proof. induction k as [|k IH]; [done|]. simpl. exact IH. Qed.

Lemma string_of_uint_inj d d' :
  NilEmpty.string_of_uint d = NilEmpty.string_of_uint d' → d = d'.
Proof.
  intros H. apply (f_equal NilEmpty.uint_of_string) in H.
  rewrite !NilEmpty.usu in H. congruence.
Qed.

Lemma format_04d_inj i j : format_04d i = format_04d j → i = j.
Proof.
  unfold format_04d. intros H%string_of_uint_inj.
  apply (f_equal Nat.of_uint) in H.
  by rewrite !of_uint_zero_pad, !DecimalNat.Unsigned.of_to in H.
Qed.


Lemma digits_format_04d i : all_chars is_digit_char (format_04d i).
Proof. apply digits_string_of_uint. Qed.



(** A run of digits followed by an underscore determines the digits. *)
Lemma digits_before_underscore a b x y :
  all_chars is_digit_char a → all_chars is_digit_char b →
  a +:+ String "_" x = b +:+ String "_" y → a = b.
Proof.
  unfold all_chars. revert b.
  induction a as [|c a IH]; intros [|c' b] Ha Hb; simpl in Ha, Hb;
    rewrite ?append_cons, ?append_nil_l; intros Heq.
  - done.
  - injection Heq as <- _. apply Forall_cons in Hb as [Hc _]. by vm_compute in Hc.
  - injection Heq as -> _. apply Forall_cons in Ha as [Hc _]. by vm_compute in Hc.
  - injection Heq as -> Heq.
    apply Forall_cons in Ha as [_ Ha]. apply Forall_cons in Hb as [_ Hb].
    f_equal. eauto.
Qed.

(** ** The fingerprint *)



(** ** Identifiers *)

Lemma repo_filename_index_inj text text' i j :
  repo_filename text i = repo_filename text' j → i = j.
Proof.
  unfold repo_filename. intros H.
  apply format_04d_inj.
  eapply digits_before_underscore; [apply digits_format_04d..|exact H].
Qed.


Lemma endswith_append s suffix : endswith (s +:+ suffix) suffix = true.
Proof.
  unfold endswith. rewrite length_append.
  apply andb_true_intro. split; [apply Nat.leb_le; lia|].
  replace (String.length s + String.length suffix - String.length suffix)
    with (String.length s) by lia.
  apply String.eqb_eq.
  induction s as [|c s IH].
  - rewrite append_nil_l. simpl. clear.
    induction suffix as [|c t IH]; simpl; [done|]. by rewrite IH.
  - rewrite append_cons. simpl. exact IH.
Qed.

Lemma repo_filename_mp3 text i : endswith (repo_filename text i) ".mp3" = true.
Proof.
  unfold repo_filename.
  rewrite !append_assoc. apply endswith_append.
Qed.

Lemma repo_filename_not_manifest text i : repo_filename text i ≠ MANIFEST_NAME.
Proof.
  intros H. pose proof (repo_filename_mp3 text i) as Hmp3.
  rewrite H in Hmp3. by vm_compute in Hmp3.
Qed.




(** ** The sorted required texts *)

Lemma sorted_perm (texts : gset string) : sorted texts ≡ₚ elements texts.
Proof. apply merge_sort_Permutation. Qed.

Lemma sorted_NoDup (texts : gset string) : NoDup (sorted texts).
Proof. rewrite sorted_perm. apply NoDup_elements. Qed.

Lemma elem_of_sorted (texts : gset string) t : t ∈ sorted texts ↔ t ∈ texts.
Proof. rewrite sorted_perm. apply elem_of_elements. Qed.


Lemma extract_all_texts_inv data sdata texts :
  extract_all_texts data sdata = Ok texts →
  ∃ collected, collect_texts data sdata = Ok collected
               ∧ texts = sorted (collected ∖ {[""]}).
Proof.
  unfold extract_all_texts. destruct (collect_texts data sdata) as [collected|e]; simpl.
  - intros [= <-]. eauto.
  - done.
Qed.

(** ** [enumerate] *)

Lemma enumerate_snoc {A} (xs : list A) x :
  enumerate (xs ++ [x]) = enumerate xs ++ [(length xs, x)].
Proof.
  unfold enumerate. rewrite length_app. simpl.
  replace (length xs + 1) with (S (length xs)) by lia.
  rewrite seq_S. simpl.
  rewrite zip_with_app by (by rewrite length_seq). done.
Qed.

Lemma enumerate_lookup {A} (xs : list A) i j x :
  enumerate xs !! i = Some (j, x) ↔ j = i ∧ xs !! i = Some x.
Proof.
  unfold enumerate. rewrite lookup_zip_with_Some. split.
  - intros (a & b & [= <- <-] & Hseq & Hx).
    apply lookup_seq in Hseq as [-> _]. done.
  - intros [-> Hx]. exists i, x. split_and!; [done| |done].
    apply lookup_seq. split; [done|]. by eapply lookup_lt_Some.
Qed.

Lemma elem_of_enumerate {A} (xs : list A) i x :
  (i, x) ∈ enumerate xs ↔ xs !! i = Some x.
Proof.
  rewrite list_elem_of_lookup. split.
  - intros [k Hk]. by apply enumerate_lookup in Hk as [-> ?].
  - intros Hx. exists i. by apply enumerate_lookup.
Qed.

Lemma enumerate_snd {A} (xs : list A) : (enumerate xs).*2 = xs.
Proof.
  induction xs as [|x xs IH] using rev_ind; [done|].
  rewrite enumerate_snoc, fmap_app, IH. done.
Qed.

Lemma length_enumerate {A} (xs : list A) : length (enumerate xs) = length xs.
Proof. by rewrite <-(enumerate_snd xs) at 2; rewrite length_fmap. Qed.

Lemma named_keys texts : dict_keys (named texts) = texts.
Proof.
  unfold dict_keys, named. rewrite <-list_fmap_compose.
  rewrite <-(enumerate_snd texts) at 2. by apply list_fmap_ext.
Qed.

Lemma elem_of_named texts t f :
  (t, f) ∈ named texts ↔ ∃ i, texts !! i = Some t ∧ f = repo_filename t i.
Proof.
  unfold named. rewrite list_elem_of_fmap. split.
  - intros ([i t'] & [= -> ->] & Hin). apply elem_of_enumerate in Hin. eauto.
  - intros (i & Hi & ->). exists (i, t). split; [done|]. by apply elem_of_enumerate.
Qed.

Lemma elem_of_named_values texts f :
  f ∈ dict_values (named texts) ↔ ∃ i t, texts !! i = Some t ∧ f = repo_filename t i.
Proof.
  unfold dict_values. rewrite list_elem_of_fmap. split.
  - intros ([t f'] & -> & Hin). apply elem_of_named in Hin as (i & ? & ?). eauto.
  - intros (i & t & Hi & ->). exists (t, repo_filename t i). split; [done|].
    apply elem_of_named. eauto.
Qed.

Lemma filter_all {A} (P : A → Prop) `{!∀ x, Decision (P x)} (l : list A) :
  (∀ x, P x) → filter P l = l.
Proof.
  intros HP. induction l as [|x l IH]; [done|].
  by rewrite filter_cons_True, IH.
Qed.

(** ** The dictionary *)

Lemma dict_set_fresh k v d : k ∉ dict_keys d → dict_set k v d = d ++ [(k, v)].
Proof.
  unfold dict_keys. induction d as [|[k' v'] d IH]; simpl; [done|].
  intros Hk. apply not_elem_of_cons in Hk as [Hne Hk].
  destruct (decide (k = k')); [done|]. by rewrite IH.
Qed.

(** ** Cache resolution *)

Lemma for_loop_snoc {A S} (body : S → A → result S) xs x s :
  for_loop body (xs ++ [x]) s
  = match for_loop body xs s with
    | (s', None) =>
        match body s' x with
        | Ok s'' => (s'', None)
        | Raise e => (s', Some e)
        end
    | (s', Some e) => (s', Some e)
    end.
Proof.
  revert s. induction xs as [|y xs IH]; intros s; simpl.
  - by destruct (body s x).
  - destruct (body s y) as [s'|e]; [apply IH|done].
Qed.

Lemma resolve_step_inv cm ca p i text p' :
  resolve_step cm ca p (i, text) = Ok p' →
  ¬ uncopyable cm ca text
  ∧ p' = match cached cm ca text with
         | Some audio =>
             Plan (dict_set text (repo_filename text i) (manifest p)) (to_generate p)
                  (copied p + 1) (<[repo_filename text i := audio]> (store p))
         | None =>
             Plan (dict_set text (repo_filename text i) (manifest p))
                  (to_generate p ++ [(text, repo_filename text i)]) (copied p) (store p)
         end.
Proof.
  unfold resolve_step, cached, uncopyable.
  destruct (cm !! text) as [cf|]; [|intros [= <-]; split; [by intros (? & ? & _)|done]].
  destruct (ca !! cf) as [[audio|]|] eqn:Hcf; intros [= <-];
    (split; [intros (cf' & [= <-] & ?); congruence|done]).
Qed.

Lemma resolve_step_raise cm ca p i text e :
  resolve_step cm ca p (i, text) = Raise e ↔ e = CopyError ∧ uncopyable cm ca text.
Proof.
  unfold resolve_step, uncopyable. split.
  - destruct (cm !! text) as [cf|]; [|done].
    destruct (ca !! cf) as [[audio|]|] eqn:Hcf; [done| |done].
    intros [= <-]. eauto.
  - intros [-> (cf & -> & ->)]. done.
Qed.

Lemma resolve_step_total cm ca p i text :
  ¬ uncopyable cm ca text → ∃ p', resolve_step cm ca p (i, text) = Ok p'.
Proof.
  intros Hno. destruct (resolve_step cm ca p (i, text)) as [p'|e] eqn:Hstep; [eauto|].
  apply resolve_step_raise in Hstep as [_ ?]. done.
Qed.

Lemma resolve_snoc cm ca texts text dir :
  resolve cm ca (texts ++ [text]) dir
  = match resolve cm ca texts dir with
    | (p, None) =>
        match resolve_step cm ca p (length texts, text) with
        | Ok p' => (p', None)
        | Raise e => (p, Some e)
        end
    | (p, Some e) => (p, Some e)
    end.
Proof. unfold resolve. by rewrite enumerate_snoc, for_loop_snoc. Qed.

(** Induction over the iterations of a loop that ends without exception. *)
Lemma resolve_ind cm ca dir (P : list string → plan → Prop) :
  P [] (Plan [] [] 0 dir) →
  (∀ texts text p p',
     resolve cm ca texts dir = (p, None) → P texts p →
     resolve_step cm ca p (length texts, text) = Ok p' →
     P (texts ++ [text]) p') →
  ∀ texts p, resolve cm ca texts dir = (p, None) → P texts p.
Proof.
  intros Hnil Hsnoc texts.
  induction texts as [|text texts IH] using rev_ind; intros p Hres.
  - injection Hres as <-. exact Hnil.
  - rewrite resolve_snoc in Hres.
    destruct (resolve cm ca texts dir) as [p0 [e|]] eqn:Hres0; [done|].
    destruct (resolve_step cm ca p0 (length texts, text)) as [p'|e] eqn:Hstep; [|done].
    injection Hres as <-. eauto.
Qed.

(** The loop raises exactly when the reference of a required text names
    something that is not a regular file. *)
Lemma resolve_raise cm ca texts dir :
  match (resolve cm ca texts dir).2 with
  | None => ∀ text, text ∈ texts → ¬ uncopyable cm ca text
  | Some e => e = CopyError ∧ ∃ text, text ∈ texts ∧ uncopyable cm ca text
  end.
Proof.
  induction texts as [|text texts IH] using rev_ind.
  { simpl. by intros text ?%elem_of_nil. }
  rewrite resolve_snoc.
  destruct (resolve cm ca texts dir) as [p [e|]]; cbn [snd] in *.
  - destruct IH as [-> (t & Ht & Hun)]. split; [done|]. exists t.
    rewrite elem_of_app. auto.
  - destruct (resolve_step cm ca p (length texts, text)) as [p'|e] eqn:Hstep; cbn [snd].
    + apply resolve_step_inv in Hstep as [Hno _].
      intros t [Ht|Ht%list_elem_of_singleton]%elem_of_app; [auto|by subst].
    + apply resolve_step_raise in Hstep as [-> Hun]. split; [done|].
      exists text. rewrite elem_of_app, list_elem_of_singleton. auto.
Qed.

Lemma resolve_total cm ca texts dir :
  (∀ text, text ∈ texts → ¬ uncopyable cm ca text) →
  ∃ p, resolve cm ca texts dir = (p, None).
Proof.
  intros Hno. pose proof (resolve_raise cm ca texts dir) as Hr.
  destruct (resolve cm ca texts dir) as [p [e|]]; simpl in Hr; [|eauto].
  destruct Hr as [_ (t & Ht & Hun)]. by destruct (Hno t Ht).
Qed.

(** When the loop raises, its variables are those of the loop over the
    texts before the one that raised. *)
Lemma resolve_prefix cm ca texts dir p r :
  resolve cm ca texts dir = (p, r) →
  ∃ k, k ≤ length texts ∧ resolve cm ca (take k texts) dir = (p, None).
Proof.
  revert p r. induction texts as [|text texts IH] using rev_ind; intros p r Hres.
  { injection Hres as <- <-. by exists 0. }
  rewrite resolve_snoc in Hres. rewrite length_app. simpl.
  destruct (resolve cm ca texts dir) as [p0 [e|]] eqn:Hres0.
  - injection Hres as <- <-. destruct (IH _ _ eq_refl) as (k & Hk & Htake).
    exists k. split; [lia|]. by rewrite take_app_le.
  - destruct (resolve_step cm ca p0 (length texts, text)) as [p'|e] eqn:Hstep;
      injection Hres as <- <-.
    + exists (length texts + 1). split; [done|].
      rewrite take_ge by (rewrite length_app; simpl; lia).
      by rewrite resolve_snoc, Hres0, Hstep.
    + exists (length texts). split; [lia|]. by rewrite take_app_length.
Qed.

Lemma resolve_manifest cm ca texts dir p :
  NoDup texts → resolve cm ca texts dir = (p, None) → manifest p = named texts.
Proof.
  intros Hnd Hres. revert Hnd.
  apply (resolve_ind cm ca dir (fun texts p => NoDup texts → manifest p = named texts));
    [done| |exact Hres].
  clear texts p Hres. intros texts text p p' _ IH Hstep [Hnd [Hnotin _]]%NoDup_app.
  apply resolve_step_inv in Hstep as [_ ->].
  assert (dict_set text (repo_filename text (length texts)) (named texts)
          = named (texts ++ [text])) as Hset.
  { rewrite dict_set_fresh.
    - unfold named. by rewrite enumerate_snoc, map_app.
    - rewrite named_keys. intros Hin. apply (Hnotin text Hin). set_solver. }
  destruct (cached cm ca text); simpl; by rewrite IH.
Qed.

Lemma resolve_to_generate cm ca texts dir p :
  resolve cm ca texts dir = (p, None) →
  to_generate p
  = map item_name (filter (fun it => cached cm ca it.2 = None) (enumerate texts)).
Proof.
  apply (resolve_ind cm ca dir
           (fun texts p =>
              to_generate p
              = map item_name (filter (fun it => cached cm ca it.2 = None) (enumerate texts))));
    [done|].
  clear texts p. intros texts text p p' _ IH Hstep.
  apply resolve_step_inv in Hstep as [_ ->].
  rewrite enumerate_snoc, filter_app, map_app.
  rewrite filter_cons, filter_nil. simpl.
  destruct (cached cm ca text) as [audio|] eqn:Hc; simpl; rewrite IH.
  - by rewrite app_nil_r.
  - done.
Qed.

Lemma elem_of_to_generate cm ca texts dir p text fpath :
  resolve cm ca texts dir = (p, None) →
  (text, fpath) ∈ to_generate p
  ↔ ∃ i, texts !! i = Some text ∧ fpath = repo_filename text i
         ∧ cached cm ca text = None.
Proof.
  intros Hres. rewrite (resolve_to_generate _ _ _ _ _ Hres), list_elem_of_fmap. split.
  - intros ([i t] & [= -> ->] & [Hc Hin%elem_of_enumerate]%list_elem_of_filter).
    eauto.
  - intros (i & Hi & -> & Hc). exists (i, text). split; [done|].
    apply list_elem_of_filter. split; [done|]. by apply elem_of_enumerate.
Qed.

Lemma to_generate_paths_NoDup cm ca texts dir p :
  resolve cm ca texts dir = (p, None) → NoDup (to_generate p).*2.
Proof.
  intros Hres. rewrite (resolve_to_generate _ _ _ _ _ Hres). clear Hres.
  induction texts as [|text texts IH] using rev_ind; [constructor|].
  rewrite enumerate_snoc, filter_app, map_app, fmap_app.
  apply NoDup_app. split_and!; [exact IH| |].
  - intros f Hf Hf'.
    apply list_elem_of_fmap in Hf as ([t f0] & -> & Hin).
    apply list_elem_of_fmap in Hin as ([i t'] & [= -> ->] & [_ Hin]%list_elem_of_filter).
    apply elem_of_enumerate, lookup_lt_Some in Hin.
    rewrite filter_cons, filter_nil in Hf'. simpl in Hf'.
    destruct (decide (cached cm ca text = None)); simpl in Hf'; [|by apply elem_of_nil in Hf'].
    apply list_elem_of_singleton in Hf'. simpl in Hf'.
    apply repo_filename_index_inj in Hf'. lia.
  - rewrite filter_cons, filter_nil. simpl.
    destruct (decide (cached cm ca text = None)); simpl; [apply NoDup_singleton|constructor].
Qed.

Lemma resolve_store_hit cm ca texts dir p i text audio :
  resolve cm ca texts dir = (p, None) →
  texts !! i = Some text → cached cm ca text = Some audio →
  store p !! repo_filename text i = Some audio.
Proof.
  intros Hres. revert i.
  apply (resolve_ind cm ca dir
           (fun texts p => ∀ i, texts !! i = Some text → cached cm ca text = Some audio →
                                store p !! repo_filename text i = Some audio));
    [done| |exact Hres].
  clear texts p Hres. intros texts t p p' _ IH Hstep i Hi Hc.
  apply resolve_step_inv in Hstep as [_ ->].
  destruct (decide (i = length texts)) as [->|Hne].
  - rewrite list_lookup_middle in Hi by done. injection Hi as ->.
    rewrite Hc. simpl. apply lookup_insert_eq.
  - assert (i < length texts).
    { apply lookup_lt_Some in Hi. rewrite length_app in Hi. simpl in Hi. lia. }
    rewrite lookup_app_l in Hi by done.
    destruct (cached cm ca t); simpl; [|by apply IH].
    rewrite lookup_insert_ne; [by apply IH|].
    intros Heq%repo_filename_index_inj. lia.
Qed.

Lemma resolve_store_other cm ca texts dir p f :
  resolve cm ca texts dir = (p, None) →
  (∀ i text, texts !! i = Some text → cached cm ca text ≠ None →
             f ≠ repo_filename text i) →
  store p !! f = dir !! f.
Proof.
  intros Hres.
  apply (resolve_ind cm ca dir
           (fun texts p =>
              (∀ i text, texts !! i = Some text → cached cm ca text ≠ None →
                         f ≠ repo_filename text i) →
              store p !! f = dir !! f));
    [done| |exact Hres].
  clear texts p Hres. intros texts t p p' _ IH Hstep Hf.
  apply resolve_step_inv in Hstep as [_ ->].
  assert (store p !! f = dir !! f) as Hrec.
  { apply IH. intros i text Hi. apply Hf. by apply lookup_app_l_Some. }
  destruct (cached cm ca t) as [audio|] eqn:Hc; simpl; [|done].
  rewrite lookup_insert_ne; [done|].
  intros Heq. eapply (Hf (length texts) t); [by apply list_lookup_middle|by rewrite Hc|done].
Qed.

Lemma resolve_store_grows cm ca texts dir p r f :
  resolve cm ca texts dir = (p, r) →
  is_Some (dir !! f) → is_Some (store p !! f).
Proof.
  intros (k & _ & Hres)%resolve_prefix Hf. revert Hres.
  generalize (take k texts). clear texts k r. intros texts Hres.
  refine (resolve_ind cm ca dir (fun _ p => is_Some (store p !! f)) _ _ texts p Hres);
    [done|].
  clear texts p Hres. intros texts t p p' _ IH Hstep.
  apply resolve_step_inv in Hstep as [_ ->].
  destruct (cached cm ca t); simpl; [|done].
  rewrite lookup_insert. by case_decide.
Qed.

Lemma resolve_copied cm ca texts dir p :
  resolve cm ca texts dir = (p, None) →
  copied p + length (to_generate p) = length texts.
Proof.
  apply (resolve_ind cm ca dir
           (fun texts p => copied p + length (to_generate p) = length texts)); [done|].
  clear texts p. intros texts t p p' _ IH Hstep.
  apply resolve_step_inv in Hstep as [_ ->].
  rewrite length_app. simpl.
  destruct (cached cm ca t); simpl; rewrite ?length_app; simpl; lia.
Qed.

(** ** The synthesis gate *)

Lemma count_insert (l : list task) i old new :
  l !! i = Some old →
  length (filter (eq InFlight) (<[i := new]> l)) + (if decide (InFlight = old) then 1 else 0)
  = length (filter (eq InFlight) l) + (if decide (InFlight = new) then 1 else 0).
Proof.
  revert i. induction l as [|x l IH]; intros [|i] Hi; simplify_eq/=.
  - rewrite !filter_cons.
    destruct (decide (InFlight = new)), (decide (InFlight = old)); simpl; lia.
  - rewrite !filter_cons. specialize (IH i Hi).
    destruct (decide (InFlight = x)); simpl; lia.
Qed.

Section gate.
Context (synth : synthesizer) (pending : list (string * string)) (dir : directory).

Lemma gate_step_transition g i :
  gate_transition synth pending g i (generate_tts_step synth pending g i).
Proof.
  unfold generate_tts_step.
  destruct (tasks g !! i) as [[]|] eqn:Ht; try apply step_blocked;
    destruct (pending !! i) as [[text fpath]|] eqn:Hp; try apply step_blocked.
  - destruct (sem_value g) as [|free] eqn:Hs; [apply step_blocked|].
    by eapply step_acquire.
  - destruct (synth text) as [audio|] eqn:Hsy;
      [by eapply step_saved|by eapply step_failed].
Qed.

(** Invariants are proved over the transitions. *)
Lemma gate_run_ind (P : gate → Prop) g0 :
  P g0 →
  (∀ g i g', P g → gate_transition synth pending g i g' → P g') →
  ∀ schedule, P (gate_run synth pending schedule g0).
Proof.
  intros H0 Hstep schedule. revert g0 H0.
  induction schedule as [|i schedule IH]; intros g0 H0; [done|].
  simpl. apply IH. eapply Hstep; [exact H0|apply gate_step_transition].
Qed.

Local Abbreviation reach schedule :=
  (gate_run synth pending schedule (gate_init pending dir)).

Lemma gate_slots schedule :
  in_flight (reach schedule) + sem_value (reach schedule) = SEM_LIMIT.
Proof.
  apply gate_run_ind.
  - unfold in_flight, gate_init. simpl.
    assert (filter (eq InFlight) (replicate (length pending) Waiting) = []) as ->; [|done].
    induction (length pending) as [|n IH]; [done|].
    simpl. rewrite filter_cons. by case_decide.
  - intros g i g' Hinv Hstep. unfold in_flight in *.
    destruct Hstep as [text fpath free Ht _ Hs|text fpath audio Ht _ _
                      |text fpath Ht _ _|]; simpl; [| | |done].
    + pose proof (count_insert (tasks g) i Waiting InFlight Ht) as Hc.
      simpl in Hc. lia.
    + pose proof (count_insert (tasks g) i InFlight Done Ht) as Hc.
      simpl in Hc. lia.
    + pose proof (count_insert (tasks g) i InFlight Failed Ht) as Hc.
      simpl in Hc. lia.
Qed.

Lemma gate_length schedule : length (tasks (reach schedule)) = length pending.
Proof.
  apply gate_run_ind.
  - simpl. apply length_replicate.
  - intros g i g' Hinv []; simpl; by rewrite ?length_insert.
Qed.

Lemma gate_failed schedule i :
  tasks (reach schedule) !! i = Some Failed →
  ∃ text fpath, pending !! i = Some (text, fpath) ∧ synth text = None.
Proof.
  revert i. apply (gate_run_ind (fun g => ∀ i, tasks g !! i = Some Failed → _)).
  - intros i [? _]%lookup_replicate. done.
  - intros g i g' Hinv Hstep j.
    destruct Hstep; simpl; try apply Hinv;
      (destruct (decide (i = j)) as [<-|];
       [|by rewrite list_lookup_insert_ne by done; apply Hinv]);
      intros Hj; apply list_lookup_insert_Some in Hj as [(_ & ? & _)|[? _]];
      simplify_eq; eauto.
Qed.

Lemma gate_saved schedule i :
  NoDup pending.*2 →
  tasks (reach schedule) !! i = Some Done →
  ∃ text fpath audio, pending !! i = Some (text, fpath) ∧ synth text = Some audio
                      ∧ gate_store (reach schedule) !! fpath = Some audio.
Proof.
  intros Hnd. revert i.
  apply (gate_run_ind (fun g => ∀ i, tasks g !! i = Some Done → ∃ text fpath audio,
    pending !! i = Some (text, fpath) ∧ synth text = Some audio
    ∧ gate_store g !! fpath = Some audio)).
  - intros i [? _]%lookup_replicate. done.
  - intros g i g' Hinv Hstep j.
    destruct Hstep as [text fpath free Ht Hp _|text fpath audio Ht Hp Hs
                      |text fpath Ht Hp _|]; simpl; try apply Hinv.
    + intros Hj. apply list_lookup_insert_Some in Hj as [(_ & ? & _)|[? Hj]];
        [done|by apply Hinv].
    + intros Hj. destruct (decide (i = j)) as [<-|Hne].
      * exists text, fpath, audio. by rewrite lookup_insert_eq.
      * rewrite list_lookup_insert_ne in Hj by done.
        destruct (Hinv j Hj) as (text' & fpath' & audio' & Hp' & Hs' & Hst).
        exists text', fpath', audio'. split_and!; [done..|].
        rewrite lookup_insert_ne; [done|]. intros <-.
        apply Hne. eapply NoDup_lookup; [exact Hnd|..];
          rewrite list_lookup_fmap; [by rewrite Hp|by rewrite Hp'].
    + intros Hj. apply list_lookup_insert_Some in Hj as [(_ & ? & _)|[? Hj]];
        [done|by apply Hinv].
Qed.

Lemma gate_store_other schedule f :
  f ∉ pending.*2 → gate_store (reach schedule) !! f = dir !! f.
Proof.
  intros Hf. apply (gate_run_ind (fun g => gate_store g !! f = dir !! f)); [done|].
  intros g i g' Hinv [? fpath ? _ Hp _|? fpath ? _ Hp _|? fpath _ Hp _|];
    simpl; try done.
  rewrite lookup_insert_ne; [done|]. intros <-. apply Hf.
  apply list_elem_of_fmap. exists (text, fpath). split; [done|].
  by eapply list_elem_of_lookup_2.
Qed.

Lemma gate_store_grows schedule f :
  is_Some (dir !! f) → is_Some (gate_store (reach schedule) !! f).
Proof.
  intros Hf. apply (gate_run_ind (fun g => is_Some (gate_store g !! f))); [done|].
  intros g i g' Hinv []; simpl; try done.
  rewrite lookup_insert. by case_decide.
Qed.

Lemma gate_calls_pending schedule text :
  text ∈ calls (reach schedule) → text ∈ pending.*1.
Proof.
  apply (gate_run_ind (fun g => text ∈ calls g → text ∈ pending.*1)).
  - by intros ?%elem_of_nil.
  - intros g i g' Hinv [text' fpath ? _ Hp _| | |]; simpl; try done.
    intros [?| ->%list_elem_of_singleton]%elem_of_app; [by apply Hinv|].
    apply list_elem_of_fmap. exists (text', fpath). split; [done|].
    by eapply list_elem_of_lookup_2.
Qed.

Lemma gate_started_called schedule i text fpath :
  pending !! i = Some (text, fpath) →
  tasks (reach schedule) !! i ≠ Some Waiting →
  text ∈ calls (reach schedule).
Proof.
  intros Hp.
  apply (gate_run_ind (fun g => length (tasks g) = length pending ∧
    (tasks g !! i ≠ Some Waiting → text ∈ calls g))).
  - split; [apply length_replicate|]. intros []. apply lookup_replicate.
    split; [done|]. by eapply lookup_lt_Some.
  - intros g j g' [Hlen Hinv] Hstep.
    assert (i < length (tasks g)) by (rewrite Hlen; by eapply lookup_lt_Some).
    destruct Hstep as [text' fpath' ? Ht Hp' _|? ? ? Ht _ _|? ? Ht _ _|];
      simpl; rewrite ?length_insert; (split; [done|]); try done;
      (destruct (decide (j = i)) as [->|];
       [|rewrite list_lookup_insert_ne by done]).
    all: try (intros _; simplify_eq; set_solver).
    all: try (intros Hw; apply Hinv in Hw; set_solver).
    all: intros _; apply Hinv; congruence.
Qed.
End gate.

(** ** Writing the manifest *)

Lemma write_manifest_insert m (dir : directory) :
  write_manifest m dir = <[MANIFEST_NAME := json_dumps m]> dir.
Proof.
  unfold write_manifest, write, open_w.
  rewrite lookup_insert_eq, insert_insert_eq. done.
Qed.

(** ** The orphan sweep *)

Lemma clean_fold_lookup valid names (acc : directory * nat) f :
  (foldl (clean_step valid) acc names).1 !! f
  = if bool_decide (f ∈ names) && is_orphan valid f then None else acc.1 !! f.
Proof.
  revert acc. induction names as [|x names IH]; intros acc; [done|].
  cbn [foldl]. rewrite IH. unfold clean_step.
  destruct (decide (f = x)) as [->|Hne].
  - rewrite (bool_decide_eq_true_2 (x ∈ x :: names)) by left.
    destruct (is_orphan valid x); simpl.
    + rewrite lookup_delete_eq. by destruct (bool_decide _).
    + by rewrite !andb_false_r.
  - assert (bool_decide (f ∈ x :: names) = bool_decide (f ∈ names)) as ->.
    { apply bool_decide_ext. rewrite elem_of_cons. tauto. }
    destruct (bool_decide (f ∈ names) && is_orphan valid f); [done|].
    destruct (is_orphan valid x); simpl; [|done]. by rewrite lookup_delete_ne.
Qed.

Lemma clean_fold_count valid names (acc : directory * nat) :
  (foldl (clean_step valid) acc names).2
  = acc.2 + length (filter (fun f => is_orphan valid f = true) names).
Proof.
  revert acc. induction names as [|x names IH]; intros acc; [simpl; lia|].
  cbn [foldl]. rewrite IH, filter_cons. unfold clean_step.
  destruct (is_orphan valid x) eqn:Ho.
  - rewrite decide_True by done. simpl. lia.
  - rewrite decide_False by done. lia.
Qed.

Lemma elem_of_listdir (dir : directory) f : f ∈ listdir dir ↔ is_Some (dir !! f).
Proof. unfold listdir. by rewrite elem_of_elements, elem_of_dom. Qed.

Lemma clean_orphans_lookup m (dir : directory) f :
  (clean_orphans m dir).1 !! f
  = if is_orphan (list_to_set (dict_values m)) f then None else dir !! f.
Proof.
  unfold clean_orphans. rewrite clean_fold_lookup. simpl.
  destruct (is_orphan _ f); [|by rewrite andb_false_r].
  rewrite andb_true_r. case_bool_decide as Hin; [done|].
  rewrite elem_of_listdir in Hin. by apply eq_None_not_Some in Hin.
Qed.

(** [removed] counts the orphans among the entries listed. *)
Lemma clean_orphans_count m (dir : directory) :
  (clean_orphans m dir).2
  = length (filter (fun f => is_orphan (list_to_set (dict_values m)) f = true)
                   (listdir dir)).
Proof. unfold clean_orphans. by rewrite clean_fold_count. Qed.

Lemma manifest_not_orphan valid : is_orphan valid MANIFEST_NAME = false.
Proof. reflexivity. Qed.

Lemma is_orphan_spec m f :
  is_orphan (list_to_set (dict_values m)) f = true
  ↔ endswith f ".mp3" = true ∧ f ∉ dict_values m.
Proof.
  unfold is_orphan. rewrite andb_true_iff, bool_decide_eq_true.
  by rewrite elem_of_list_to_set.
Qed.

(** ** [gather] and the sequential schedule *)

Lemma gather_raised g : gather g = Raised ↔ Failed ∈ tasks g.
Proof.
  unfold gather. case_bool_decide; [done|].
  case_bool_decide; split; done.
Qed.

Lemma gather_returned g : gather g = Returned ↔ Forall (eq Done) (tasks g).
Proof.
  unfold gather. case_bool_decide as Hf.
  - split; [done|]. intros Hall. rewrite Forall_forall in Hall.
    by specialize (Hall _ Hf).
  - case_bool_decide; split; done.
Qed.

Lemma sequential_schedule_S n :
  sequential_schedule (S n) = sequential_schedule n ++ [n; n].
Proof.
  unfold sequential_schedule. rewrite seq_S, flat_map_app. simpl. done.
Qed.

Section sequential.
Context (synth : synthesizer) (pending : list (string * string)) (dir : directory).

Local Abbreviation after k :=
  (gate_run synth pending (sequential_schedule k) (gate_init pending dir)).

Lemma sequential_prefix k :
  k ≤ length pending →
  ∃ ended,
    length ended = k
    ∧ Forall (fun t => t = Done ∨ t = Failed) ended
    ∧ tasks (after k) = ended ++ replicate (length pending - k) Waiting
    ∧ sem_value (after k) = SEM_LIMIT.
Proof.
  induction k as [|k IH]; intros Hk.
  { exists []. simpl. by rewrite Nat.sub_0_r. }
  unfold gate_run in *. rewrite sequential_schedule_S, foldl_app.
  destruct IH as (ended & Hlen & Hended & Ht & Hs); [lia|].
  set (g := foldl (generate_tts_step synth pending) (gate_init pending dir)
                  (sequential_schedule k)) in *.
  destruct (lookup_lt_is_Some_2 pending k ltac:(lia)) as [[text fpath] Hp].
  assert (tasks g !! k = Some Waiting) as Hw.
  { rewrite Ht, lookup_app_r by lia.
    rewrite Hlen, Nat.sub_diag. apply lookup_replicate. split; [done|lia]. }
  assert (generate_tts_step synth pending g k
          = Gate 4 (<[k := InFlight]> (tasks g)) (calls g ++ [text])
                 (counter g) (gate_store g)) as Hstep1.
  { unfold generate_tts_step. by rewrite Hw, Hp, Hs. }
  simpl. rewrite Hstep1.
  set (g1 := Gate 4 _ _ _ _).
  assert (length (tasks g) = length pending) as Hlen'.
  { rewrite Ht, length_app, length_replicate. lia. }
  assert (tasks g1 !! k = Some InFlight) as Hw1.
  { simpl. apply list_lookup_insert_eq. lia. }
  assert (∀ t, <[k := t]> (<[k := InFlight]> (tasks g))
               = (ended ++ [t]) ++ replicate (length pending - S k) Waiting) as Hins.
  { intros t. rewrite list_insert_insert_eq, Ht.
    rewrite insert_app_r_alt by lia.
    rewrite Hlen, Nat.sub_diag.
    replace (length pending - k) with (S (length pending - S k)) by lia.
    simpl. by rewrite cons_middle, app_assoc. }
  unfold generate_tts_step. rewrite Hw1, Hp.
  destruct (synth text) as [audio|] eqn:Hsy; simpl.
  - exists (ended ++ [Done]). rewrite length_app, Forall_app, Forall_singleton. simpl.
    split_and!; [lia|done|by left|apply Hins|done].
  - exists (ended ++ [Failed]). rewrite length_app, Forall_app, Forall_singleton. simpl.
    split_and!; [lia|done|by right|apply Hins|done].
Qed.

(** The sequential schedule is long enough: [gather] has an answer. *)
Lemma sequential_schedule_finishes :
  gather (after (length pending)) ≠ Pending.
Proof.
  destruct (sequential_prefix (length pending)) as (ended & _ & Hended & Ht & _); [done|].
  rewrite Nat.sub_diag, app_nil_r in Ht.
  destruct (decide (Failed ∈ ended)) as [Hf|Hf].
  - assert (gather (after (length pending)) = Raised) as ->; [|done].
    apply gather_raised. by rewrite Ht.
  - assert (gather (after (length pending)) = Returned) as ->; [|done].
    apply gather_returned. rewrite Ht.
    apply Forall_forall. intros t Hin. rewrite Forall_forall in Hended.
    destruct (Hended t Hin) as [->| ->]; done.
Qed.
End sequential.

(** ** [main] *)

Lemma prepare_inv data sdata c dir texts p :
  prepare data sdata c dir = Ok (texts, p) →
  extract_all_texts data sdata = Ok texts
  ∧ ∃ cm, load_central_manifest (central_manifest_file c) = Ok cm
          ∧ resolve cm (central_audio c) texts dir = (p, None).
Proof.
  unfold prepare.
  destruct (extract_all_texts data sdata) as [texts'|]; [|done]. simpl.
  destruct (load_central_manifest _) as [cm|]; [|done]. simpl.
  destruct (resolve cm _ texts' dir) as [p' [e|]] eqn:Hres; [done|].
  intros [= <- <-]. eauto.
Qed.

Lemma prepare_intro data sdata c dir texts cm p :
  extract_all_texts data sdata = Ok texts →
  load_central_manifest (central_manifest_file c) = Ok cm →
  resolve cm (central_audio c) texts dir = (p, None) →
  prepare data sdata c dir = Ok (texts, p).
Proof. unfold prepare. intros -> ->. simpl. by intros ->. Qed.

(** [prepare] raises what [main] lets escape before the gate. *)
Lemma prepare_raise data sdata c dir e :
  prepare data sdata c dir = Raise e →
  extract_all_texts data sdata = Raise e
  ∨ (∃ texts, extract_all_texts data sdata = Ok texts
              ∧ central_manifest_file c = Unreadable ∧ e = ReadError)
  ∨ (∃ texts cm p,
       extract_all_texts data sdata = Ok texts
       ∧ load_central_manifest (central_manifest_file c) = Ok cm
       ∧ resolve cm (central_audio c) texts dir = (p, Some e)
       ∧ e = CopyError
       ∧ ∃ text, text ∈ texts ∧ uncopyable cm (central_audio c) text).
Proof.
  unfold prepare.
  destruct (extract_all_texts data sdata) as [texts|e0] eqn:Hex; simpl.
  - destruct (central_manifest_file c) as [| |entries] eqn:Hc; simpl.
    + pose proof (resolve_raise ∅ (central_audio c) texts dir) as Hr.
      destruct (resolve ∅ _ texts dir) as [p [e0|]] eqn:Hres; [|done].
      intros [= ->]. destruct Hr as [-> Hun]. do 2 right.
      exists texts, ∅, p. by rewrite Hres.
    + intros [= <-]. right. left. eauto.
    + pose proof (resolve_raise entries (central_audio c) texts dir) as Hr.
      destruct (resolve entries _ texts dir) as [p [e0|]] eqn:Hres; [|done].
      intros [= ->]. destruct Hr as [-> Hun]. do 2 right.
      exists texts, entries, p. by rewrite Hres.
  - intros [= ->]. by left.
Qed.

Lemma extract_all_texts_NoDup data sdata texts :
  extract_all_texts data sdata = Ok texts → NoDup texts.
Proof. intros (collected & _ & ->)%extract_all_texts_inv. apply sorted_NoDup. Qed.

Lemma gate_run_no_tasks synth schedule dir :
  gate_run synth [] schedule (gate_init [] dir) = gate_init [] dir.
Proof. induction schedule as [|i schedule IH]; [done|]. simpl. exact IH. Qed.

Lemma synthesize_gate_run synth schedule p :
  synthesize synth schedule p
  = gate_run synth (to_generate p) schedule (gate_init (to_generate p) (store p)).
Proof.
  unfold synthesize. destruct (to_generate p); [|done].
  by rewrite gate_run_no_tasks.
Qed.

(** The outcome of [main], read off the state of the gate. *)
Lemma main_outcome data sdata c synth schedule dir texts p :
  prepare data sdata c dir = Ok (texts, p) →
  let g := synthesize synth schedule p in
  main data sdata c synth schedule dir =
    match gather g with
    | Raised => Aborted SynthesisError (gate_store g)
    | Pending => Unfinished (gate_store g)
    | Returned =>
        Completed
          (Summary (length texts) (copied p) (length (to_generate p))
                   (clean_orphans (manifest p) (write_manifest (manifest p) (gate_store g))).2)
          (clean_orphans (manifest p) (write_manifest (manifest p) (gate_store g))).1
    end.
Proof.
  intros (Hex & cm & Hcm & Hres)%prepare_inv. unfold main, finish.
  rewrite Hex, Hcm, Hres. simpl.
  destruct (gather _); try done. by destruct (clean_orphans _ _).
Qed.

(** An exception before the gate leaves [main]. *)
Lemma main_prepare_raise data sdata c synth schedule dir e :
  prepare data sdata c dir = Raise e →
  ∃ dir', main data sdata c synth schedule dir = Aborted e dir'.
Proof.
  unfold prepare, main.
  destruct (extract_all_texts data sdata) as [texts|e0]; simpl; [|intros [= ->]; eauto].
  destruct (load_central_manifest _) as [cm|e0]; simpl; [|intros [= ->]; eauto].
  destruct (resolve cm _ texts dir) as [p [e0|]]; [|done].
  intros [= ->]. eauto.
Qed.

Section run.
Context (data : vocab) (sdata : sentences) (c : central) (dir : directory).
Context (texts : list string) (p : plan).
Context (Hprepare : prepare data sdata c dir = Ok (texts, p)).

Lemma run_manifest : manifest p = named texts.
Proof.
  destruct (prepare_inv _ _ _ _ _ _ Hprepare) as (Hex & cm & _ & Hres).
  eapply resolve_manifest; [by eapply extract_all_texts_NoDup|exact Hres].
Qed.

Lemma run_pending_paths f :
  f ∈ (to_generate p).*2 →
  ∃ i text, texts !! i = Some text ∧ f = repo_filename text i
            ∧ (text, f) ∈ to_generate p.
Proof.
  destruct (prepare_inv _ _ _ _ _ _ Hprepare) as (_ & cm & _ & Hres).
  intros ([text f'] & -> & Hin)%list_elem_of_fmap.
  pose proof Hin as Hin'.
  apply (elem_of_to_generate _ _ _ _ _ _ _ Hres) in Hin' as (i & Hi & Hf & _).
  simpl. eauto.
Qed.

Lemma run_manifest_not_pending : MANIFEST_NAME ∉ (to_generate p).*2.
Proof.
  intros (i & text & _ & Heq & _)%run_pending_paths.
  by eapply repo_filename_not_manifest.
Qed.

(** The manifest file and the files that were there are untouched as long
    as the run has not reached the manifest write. *)
Lemma run_gate_manifest synth schedule :
  gate_store (synthesize synth schedule p) !! MANIFEST_NAME = dir !! MANIFEST_NAME.
Proof.
  rewrite synthesize_gate_run, gate_store_other by apply run_manifest_not_pending.
  destruct (prepare_inv _ _ _ _ _ _ Hprepare) as (_ & cm & _ & Hres).
  apply (resolve_store_other _ _ _ _ _ _ Hres). intros i text _ _ Heq.
  by eapply repo_filename_not_manifest.
Qed.

Lemma run_gate_grows synth schedule f :
  is_Some (dir !! f) → is_Some (gate_store (synthesize synth schedule p) !! f).
Proof.
  intros Hf. rewrite synthesize_gate_run. apply gate_store_grows.
  destruct (prepare_inv _ _ _ _ _ _ Hprepare) as (_ & cm & _ & Hres).
  by eapply resolve_store_grows.
Qed.

(** A copied artifact is not overwritten by the gate. *)
Lemma run_gate_copy synth schedule cm i text audio :
  load_central_manifest (central_manifest_file c) = Ok cm →
  texts !! i = Some text → cached cm (central_audio c) text = Some audio →
  gate_store (synthesize synth schedule p) !! repo_filename text i = Some audio.
Proof.
  intros Hcm Hi Hc.
  destruct (prepare_inv _ _ _ _ _ _ Hprepare) as (_ & cm' & Hcm' & Hp).
  assert (cm' = cm) as -> by congruence.
  rewrite synthesize_gate_run, gate_store_other.
  - by eapply resolve_store_hit.
  - intros (j & text' & Hj & Heq & Hin)%run_pending_paths.
    apply repo_filename_index_inj in Heq as <-.
    assert (text' = text) as -> by congruence.
    apply (elem_of_to_generate _ _ _ _ _ _ _ Hp) in Hin as (_ & _ & _ & Hnone).
    congruence.
Qed.

(** When [gather] returns, every pending artifact has been written. *)
Lemma run_gate_saved synth schedule text fpath :
  gather (synthesize synth schedule p) = Returned →
  (text, fpath) ∈ to_generate p →
  ∃ audio, synth text = Some audio
           ∧ gate_store (synthesize synth schedule p) !! fpath = Some audio
           ∧ text ∈ calls (synthesize synth schedule p).
Proof.
  rewrite synthesize_gate_run. intros Hall%gather_returned Hin.
  apply list_elem_of_lookup in Hin as [k Hk].
  assert (tasks (gate_run synth (to_generate p) schedule
                   (gate_init (to_generate p) (store p))) !! k = Some Done) as Hdone.
  { destruct (lookup_lt_is_Some_2 (tasks (gate_run synth (to_generate p) schedule
                (gate_init (to_generate p) (store p)))) k) as [t Ht].
    { rewrite gate_length. by eapply lookup_lt_Some. }
    rewrite Forall_forall in Hall.
    by rewrite <-(Hall t (list_elem_of_lookup_2 _ _ _ Ht)) in Ht. }
  destruct (gate_saved synth (to_generate p) (store p) schedule k)
    as (text' & fpath' & audio & Hk' & Hs & Hst); [|done|].
  { destruct (prepare_inv _ _ _ _ _ _ Hprepare) as (_ & cm & _ & Hres).
    by eapply to_generate_paths_NoDup. }
  simplify_eq. exists audio. split_and!; [done..|].
  eapply gate_started_called; [done|]. by rewrite Hdone.
Qed.

Lemma run_completed_lookup synth schedule f :
  gather (synthesize synth schedule p) = Returned →
  final_store (main data sdata c synth schedule dir) !! f
  = if decide (f = MANIFEST_NAME) then Some (json_dumps (manifest p))
    else if is_orphan (list_to_set (dict_values (manifest p))) f then None
    else gate_store (synthesize synth schedule p) !! f.
Proof.
  intros Hg. rewrite (main_outcome _ _ _ _ _ _ _ _ Hprepare). simpl. rewrite Hg. simpl.
  rewrite clean_orphans_lookup, write_manifest_insert.
  destruct (decide (f = MANIFEST_NAME)) as [->|Hne].
  - by rewrite lookup_insert_eq, manifest_not_orphan.
  - by rewrite lookup_insert_ne.
Qed.
End run.


(** With a synthesizer that succeeds on every pending text, the run
    completes under the sequential schedule. *)
Lemma run_completes data sdata c synth dir texts p :
  prepare data sdata c dir = Ok (texts, p) →
  (∀ text fpath, (text, fpath) ∈ to_generate p → is_Some (synth text)) →
  ∃ report dir',
    main data sdata c synth (sequential_schedule (length (to_generate p))) dir
    = Completed report dir'.
Proof.
  intros Hp Hok. rewrite (main_outcome _ _ _ _ _ _ _ _ Hp). simpl.
  pose proof (sequential_schedule_finishes synth (to_generate p) (store p)) as Hfin.
  rewrite <-synthesize_gate_run in Hfin.
  destruct (gather _) eqn:Hg; [eauto| |done].
  rewrite synthesize_gate_run in Hg.
  apply gather_raised, list_elem_of_lookup in Hg as [k Hk].
  apply gate_failed in Hk as (text & fpath & Hk & Hnone).
  destruct (Hok text fpath) as [audio Hsome]; [by eapply list_elem_of_lookup_2|].
  congruence.
Qed.

(** * The claims *)

(** C1: after a run of [main] that completes, the [.mp3] entries of the
    store are exactly the values of the manifest that the run has written to
    [manifest.json]: every artifact on disk is a manifest value, every
    manifest value has a file, and every [.mp3] file that is not a manifest
    value is gone. *)
Theorem completed_store_matches_manifest data sdata c synth schedule dir report dir' :
  main data sdata c synth schedule dir = Completed report dir' →
  ∃ texts p,
    prepare data sdata c dir = Ok (texts, p)
    ∧ dir' !! MANIFEST_NAME = Some (json_dumps (manifest p))
    ∧ (∀ f, (is_Some (dir' !! f) ∧ endswith f ".mp3" = true)
            ↔ f ∈ dict_values (manifest p))
    ∧ (∀ f, endswith f ".mp3" = true → f ∉ dict_values (manifest p) →
            dir' !! f = None).
Proof.
  intros Hmain.
  destruct (prepare data sdata c dir) as [[texts p]|e] eqn:Hp;
    [|destruct (main_prepare_raise _ _ _ synth schedule _ _ Hp); congruence].
  exists texts, p. split; [done|].
  pose proof (main_outcome _ _ _ synth schedule _ _ _ Hp) as Hout. simpl in Hout.
  destruct (gather (synthesize synth schedule p)) eqn:Hg; [|congruence..].
  pose proof (run_completed_lookup _ _ _ _ _ _ Hp synth schedule) as Hlook.
  rewrite Hmain in Hlook. simpl in Hlook.
  split; [by rewrite Hlook|]. split.
  - intros f. rewrite Hlook by done. split.
    + intros [Hsome Hmp3]. case_decide as Hm; [subst; by vm_compute in Hmp3|].
      destruct (is_orphan _ f) eqn:Ho; [by destruct Hsome|].
      destruct (decide (f ∈ dict_values (manifest p))) as [|Hnotin]; [done|].
      assert (is_orphan (list_to_set (dict_values (manifest p))) f = true);
        [by apply is_orphan_spec|congruence].
    + intros Hin. pose proof Hin as Hin'.
      rewrite (run_manifest _ _ _ _ _ _ Hp) in Hin'.
      apply elem_of_named_values in Hin' as (i & text & Hi & ->).
      split; [|apply repo_filename_mp3].
      rewrite decide_False by apply repo_filename_not_manifest.
      destruct (is_orphan _ _) eqn:Ho; [apply is_orphan_spec in Ho as [_ ?]; done|].
      destruct (prepare_inv _ _ _ _ _ _ Hp) as (_ & cm & Hcm & Hpeq).
      destruct (cached cm (central_audio c) text) as [audio|] eqn:Hc.
      * by erewrite run_gate_copy.
      * edestruct (run_gate_saved _ _ _ _ _ _ Hp synth schedule text) as (audio & _ & -> & _);
          [done| |done].
        apply (elem_of_to_generate _ _ _ _ _ _ _ Hpeq). eauto.
  - intros f Hmp3 Hnotin. rewrite Hlook by done.
    case_decide as Hm; [subst; by vm_compute in Hmp3|].
    assert (is_orphan (list_to_set (dict_values (manifest p))) f = true) as ->;
      [by apply is_orphan_spec|done].
Qed.

Lemma completed_store_matches_manifest_witness :
  ∃ report dir',
    main sample_vocab None sample_central sample_synth sample_schedule sample_store
      = Completed report dir'
    ∧ ∃ texts p,
        prepare sample_vocab None sample_central sample_store = Ok (texts, p)
        ∧ dir' !! MANIFEST_NAME = Some (json_dumps (manifest p))
        ∧ (∀ f, (is_Some (dir' !! f) ∧ endswith f ".mp3" = true)
                ↔ f ∈ dict_values (manifest p))
        ∧ (∀ f, endswith f ".mp3" = true → f ∉ dict_values (manifest p) →
                dir' !! f = None).
Proof.
  eexists _, _. split; [vm_compute; reflexivity|].
  eapply (completed_store_matches_manifest sample_vocab None sample_central
            sample_synth sample_schedule sample_store).
  vm_compute. reflexivity.
Defined.



(** C3, as stated, fails: the existence check is [os.path.exists], which
    is true of every path that denotes something, not of regular files
    only.  The reference entry for 안녕 names [''], so the path is the audio
    directory itself and no artifact file exists for the text; yet the text
    is not a cache miss: [shutil.copy2] raises, and the exception leaves
    [main] with the copy made before it in the store.  No text is
    synthesized. *)
Lemma reference_to_directory_aborts :
  let c := Central (Readable {["사랑해요" := "s.mp3"; "안녕" := ""]})
                   (audio_directory {["s.mp3" := "SARANG"]}) in
  prepare sample_vocab None c sample_store = Raise CopyError
  ∧ main sample_vocab None c sample_synth sample_schedule sample_store
    = Aborted CopyError (<["0000_137a01.mp3" := "SARANG"]> sample_store).
Proof. split; vm_compute; reflexivity. Qed.

(** C3 (amended): the existence check is a probe of the path, besides the
    manifest lookup.  A required text whose reference is absent, or names a
    path at which nothing exists, is a cache miss: that iteration raises
    nothing, touches no file and queues the text, which is handed to
    [tts.save] in every run in which [gather] returns; when the loop ends,
    the queued texts are exactly these.  The loop ends unless some required
    text has a reference to a path that exists and is not a regular file;
    then [shutil.copy2] raises and the exception leaves [main], with the
    manifest file untouched and no file removed. *)
Theorem absent_or_stale_reference_is_cache_miss data sdata c dir texts cm :
  extract_all_texts data sdata = Ok texts →
  load_central_manifest (central_manifest_file c) = Ok cm →
  ((∃ p, prepare data sdata c dir = Ok (texts, p))
   ↔ ∀ text, text ∈ texts → ¬ uncopyable cm (central_audio c) text)
  ∧ (∀ p i text,
       prepare data sdata c dir = Ok (texts, p) →
       texts !! i = Some text →
       ((text, repo_filename text i) ∈ to_generate p
        ↔ (cm !! text = None
           ∨ ∃ central_fname, cm !! text = Some central_fname
                              ∧ central_audio c !! central_fname = None))
       ∧ (∀ synth schedule,
            (text, repo_filename text i) ∈ to_generate p →
            gather (synthesize synth schedule p) = Returned →
            text ∈ calls (synthesize synth schedule p)))
  ∧ (∀ p i text,
       (cm !! text = None
        ∨ ∃ central_fname, cm !! text = Some central_fname
                           ∧ central_audio c !! central_fname = None) →
       resolve_step cm (central_audio c) p (i, text)
       = Ok (Plan (dict_set text (repo_filename text i) (manifest p))
                  (to_generate p ++ [(text, repo_filename text i)])
                  (copied p) (store p)))
  ∧ (∀ text, text ∈ texts → uncopyable cm (central_audio c) text →
       prepare data sdata c dir = Raise CopyError
       ∧ ∀ synth schedule,
           ∃ dir', main data sdata c synth schedule dir = Aborted CopyError dir'
                   ∧ dir' !! MANIFEST_NAME = dir !! MANIFEST_NAME
                   ∧ ∀ f, is_Some (dir !! f) → is_Some (dir' !! f)).
Proof.
  intros Hex Hcm. split_and!.
  - split.
    + intros [p (_ & cm' & Hcm' & Hres)%prepare_inv].
      assert (cm' = cm) as -> by congruence.
      pose proof (resolve_raise cm (central_audio c) texts dir) as Hr.
      by rewrite Hres in Hr.
    + intros Hno. destruct (resolve_total cm (central_audio c) texts dir Hno) as [p Hres].
      exists p. by eapply prepare_intro.
  - intros p i text Hp Hi.
    destruct (prepare_inv _ _ _ _ _ _ Hp) as (_ & cm' & Hcm' & Hres).
    assert (cm' = cm) as -> by congruence.
    pose proof (resolve_raise cm (central_audio c) texts dir) as Hno.
    rewrite Hres in Hno. simpl in Hno.
    specialize (Hno text (list_elem_of_lookup_2 _ _ _ Hi)).
    split.
    + rewrite (elem_of_to_generate _ _ _ _ _ _ _ Hres). unfold cached. split.
      * intros (j & _ & _ & Hc).
        destruct (cm !! text) as [cf|] eqn:Hcf; [right|by left].
        exists cf. split; [done|].
        destruct (central_audio c !! cf) as [[audio|]|] eqn:Hn; [done| |done].
        destruct Hno. exists cf. by rewrite Hcf.
      * intros Hmiss. exists i. split_and!; [done..|].
        destruct Hmiss as [->|(cf & -> & ->)]; done.
    + intros synth schedule Hin Hg.
      by edestruct (run_gate_saved _ _ _ _ _ _ Hp synth schedule) as (_ & _ & _ & ?).
  - intros p i text Hmiss. unfold resolve_step.
    destruct Hmiss as [->|(cf & -> & ->)]; done.
  - intros text Hin Hun.
    pose proof (resolve_raise cm (central_audio c) texts dir) as Hr.
    destruct (resolve cm (central_audio c) texts dir) as [p [e|]] eqn:Hres;
      simpl in Hr; [|by destruct (Hr text Hin)].
    destruct Hr as [-> _]. split.
    + unfold prepare. rewrite Hex, Hcm. simpl. by rewrite Hres.
    + intros synth schedule. exists (store p). split_and!.
      * unfold main. by rewrite Hex, Hcm, Hres.
      * destruct (resolve_prefix _ _ _ _ _ _ Hres) as (k & _ & Hk).
        apply (resolve_store_other _ _ _ _ _ _ Hk). intros i t _ _ Heq.
        by eapply repo_filename_not_manifest.
      * intros f. by eapply resolve_store_grows.
Qed.

Lemma absent_or_stale_reference_is_cache_miss_witness :
  ∃ p,
    prepare sample_vocab None (Central (Readable {["학교" := "gone.mp3"]}) ∅) sample_store
      = Ok (sample_texts, p)
    ∧ ("학교", repo_filename "학교" 2) ∈ to_generate p.
Proof.
  destruct (absent_or_stale_reference_is_cache_miss sample_vocab None
              (Central (Readable {["학교" := "gone.mp3"]}) ∅) sample_store
              sample_texts {["학교" := "gone.mp3"]})
    as ([_ Hok] & Hmiss & _ & _).
  - vm_compute. reflexivity.
  - reflexivity.
  - destruct Hok as [p Hp].
    { intros text _ (cf & _ & Hcf). simpl in Hcf. by rewrite lookup_empty in Hcf. }
    exists p. split; [exact Hp|].
    apply (Hmiss p 2 "학교" Hp eq_refl).
    right. exists "gone.mp3". split; reflexivity.
Defined.

(** After a failure the other tasks go on: with six pending texts of which
    the second fails, the task that waited takes the slot that the failed
    task gave back and calls [tts.save]; five calls are in flight again and
    no slot is free. *)
Example sibling_takes_released_slot :
  let pending := [("a", "a.mp3"); ("b", "b.mp3"); ("c", "c.mp3");
                  ("d", "d.mp3"); ("e", "e.mp3"); ("f", "f.mp3")] in
  let synth : synthesizer := fun text => if decide (text = "b") then None else Some text in
  let g := gate_run synth pending [0; 1; 2; 3; 4; 1; 5] (gate_init pending ∅) in
  gather g = Raised
  ∧ in_flight g = 5
  ∧ sem_value g = 0
  ∧ calls g = ["a"; "b"; "c"; "d"; "e"; "f"].
Proof. by vm_compute. Qed.

(** C4: in every state that the gate reaches, under every schedule and
    whether or not a task has failed, at most 5 calls of [tts.save] are in
    flight, and the in-flight calls plus the free slots of the semaphore
    make 5.  A waiting task that the loop runs does not start while no slot
    is free and starts when one is; a task that ends gives its slot back
    whether [tts.save] returned or raised.  The gate of [main] is such a
    gate. *)
Theorem in_flight_never_exceeds_limit synth pending dir schedule :
  let g := gate_run synth pending schedule (gate_init pending dir) in
  in_flight g ≤ 5
  ∧ in_flight g + sem_value g = 5
  ∧ (∀ i, tasks g !! i = Some Waiting → in_flight g = 5 →
          generate_tts_step synth pending g i = g)
  ∧ (∀ i, tasks g !! i = Some Waiting → in_flight g < 5 →
          let g' := generate_tts_step synth pending g i in
          tasks g' !! i = Some InFlight
          ∧ in_flight g' = S (in_flight g)
          ∧ S (sem_value g') = sem_value g)
  ∧ (∀ i, tasks g !! i = Some InFlight →
          let g' := generate_tts_step synth pending g i in
          sem_value g' = S (sem_value g)
          ∧ S (in_flight g') = in_flight g
          ∧ (tasks g' !! i = Some Done ∨ tasks g' !! i = Some Failed))
  ∧ (∀ p, in_flight (synthesize synth schedule p) ≤ 5).
Proof.
  intros g.
  assert (∀ p, in_flight (synthesize synth schedule p) ≤ 5) as Hmain.
  { intros p. rewrite synthesize_gate_run.
    pose proof (gate_slots synth (to_generate p) (store p) schedule) as Hp.
    change SEM_LIMIT with 5 in Hp. lia. }
  pose proof (gate_slots synth pending dir schedule) as Hslots.
  fold g in Hslots. change SEM_LIMIT with 5 in Hslots.
  assert (∀ i, let g' := generate_tts_step synth pending g i in
               in_flight g' + sem_value g' = 5) as Hnext.
  { intros i g'.
    pose proof (gate_slots synth pending dir (schedule ++ [i])) as Hslots'.
    unfold gate_run in Hslots'. rewrite foldl_app in Hslots'. exact Hslots'. }
  assert (∀ i t, tasks g !! i = Some t → is_Some (pending !! i)) as Hpending.
  { intros i t Ht. apply lookup_lt_is_Some.
    rewrite <-(gate_length synth pending dir schedule). by eapply lookup_lt_Some. }
  split; [lia|]. split; [done|]. split_and!.
  - intros i Hw Hfull. assert (sem_value g = 0) as Hs by lia.
    unfold generate_tts_step. rewrite Hw, Hs.
    by destruct (pending !! i) as [[]|].
  - intros i Hw Hfree g'. specialize (Hnext i). simpl in Hnext. fold g' in Hnext.
    destruct (Hpending i _ Hw) as [[text fpath] Hp].
    assert (i < length (tasks g)) by (by eapply lookup_lt_Some).
    destruct (sem_value g) as [|free] eqn:Hs; [lia|].
    assert (tasks g' !! i = Some InFlight ∧ S (sem_value g') = sem_value g) as [Ht' Hs'].
    { unfold g', generate_tts_step. rewrite Hw, Hp, Hs. simpl.
      by rewrite list_lookup_insert_eq. }
    split; [done|]. split; [lia|congruence].
  - intros i Hf g'. specialize (Hnext i). simpl in Hnext. fold g' in Hnext.
    destruct (Hpending i _ Hf) as [[text fpath] Hp].
    assert (i < length (tasks g)) by (by eapply lookup_lt_Some).
    assert (sem_value g' = S (sem_value g)
            ∧ (tasks g' !! i = Some Done ∨ tasks g' !! i = Some Failed)) as [Hs' Ht'].
    { unfold g', generate_tts_step. rewrite Hf, Hp.
      destruct (synth text); simpl; rewrite list_lookup_insert_eq by done; auto. }
    split; [done|]. split; [lia|done].
  - exact Hmain.
Qed.

(** C5, as stated, fails: [main] awaits [asyncio.gather] without
    [return_exceptions] and [generate_tts] catches nothing, so the first
    failure of [tts.save] leaves [main]; the manifest is not written and the
    orphan stays. *)
Lemma synthesis_failure_aborts_sample_run :
  ∃ dir',
    main sample_vocab None sample_central sample_failing_synth sample_schedule
         sample_store = Aborted SynthesisError dir'
    ∧ dir' !! MANIFEST_NAME = Some "{}"
    ∧ dir' !! "0007_c0ffee.mp3" = Some "OLD".
Proof. eexists. split_and!; vm_compute; reflexivity. Qed.

(** A task in flight when another fails still saves its file if the loop
    runs it before [main] is resumed: the store with which the run aborts
    has the artifact. *)
Example sibling_saves_after_failure :
  ∃ dir',
    main sample_vocab None sample_central sample_failing_synth [0; 1; 1; 0] sample_store
    = Aborted SynthesisError dir'
    ∧ dir' !! "0000_137a01.mp3" = Some "AUDIO 사랑해요"
    ∧ main sample_vocab None sample_central sample_failing_synth [0; 1; 1] sample_store
      = Aborted SynthesisError (delete "0000_137a01.mp3" dir').
Proof. eexists. split_and!; vm_compute; reflexivity. Qed.

(** C5 (amended): if [tts.save] fails for a pending text, no schedule lets
    the run complete: the exception leaves [main] (under the sequential
    schedule the run ends aborted).  In whatever state the run stops, the
    manifest file is as it was before the run, no file of the store has
    been removed, and the files that are not artifacts of this run are
    unchanged.  What was copied or synthesized before stays on disk: every
    cache hit has its copy, every task that has ended well has its file,
    and a file that is there stays there however long the other tasks go
    on.  The failure stops no sibling: a task in flight that the loop still
    runs saves its file. *)
Theorem synthesis_failure_aborts_run data sdata c synth dir texts p text fpath :
  prepare data sdata c dir = Ok (texts, p) →
  (text, fpath) ∈ to_generate p →
  synth text = None →
  (∀ schedule report dir',
     main data sdata c synth schedule dir ≠ Completed report dir')
  ∧ (∀ schedule,
       final_store (main data sdata c synth schedule dir) !! MANIFEST_NAME
       = dir !! MANIFEST_NAME)
  ∧ (∀ schedule f,
       is_Some (dir !! f) →
       is_Some (final_store (main data sdata c synth schedule dir) !! f))
  ∧ (∃ dir',
       main data sdata c synth (sequential_schedule (length (to_generate p))) dir
       = Aborted SynthesisError dir')
  ∧ (∀ schedule f,
       f ∉ dict_values (manifest p) →
       final_store (main data sdata c synth schedule dir) !! f = dir !! f)
  ∧ (∀ schedule cm i t audio,
       load_central_manifest (central_manifest_file c) = Ok cm →
       texts !! i = Some t →
       cached cm (central_audio c) t = Some audio →
       final_store (main data sdata c synth schedule dir) !! repo_filename t i
       = Some audio)
  ∧ (∀ schedule j t f,
       to_generate p !! j = Some (t, f) →
       tasks (synthesize synth schedule p) !! j = Some Done →
       ∃ audio, synth t = Some audio
                ∧ final_store (main data sdata c synth schedule dir) !! f = Some audio)
  ∧ (∀ schedule more f,
       is_Some (final_store (main data sdata c synth schedule dir) !! f) →
       is_Some (final_store (main data sdata c synth (schedule ++ more) dir) !! f))
  ∧ (∀ schedule j t f audio,
       to_generate p !! j = Some (t, f) →
       tasks (synthesize synth schedule p) !! j = Some InFlight →
       synth t = Some audio →
       final_store (main data sdata c synth (schedule ++ [j]) dir) !! f = Some audio).
Proof.
  intros Hp Hin Hfail.
  assert (∀ schedule, gather (synthesize synth schedule p) ≠ Returned) as Hnot.
  { intros schedule Hg.
    destruct (run_gate_saved _ _ _ _ _ _ Hp synth schedule _ _ Hg Hin) as (? & ? & _).
    congruence. }
  assert (∀ schedule,
            final_store (main data sdata c synth schedule dir)
            = gate_store (synthesize synth schedule p)) as Hfinal.
  { intros schedule. rewrite (main_outcome _ _ _ _ _ _ _ _ Hp). simpl.
    specialize (Hnot schedule). by destruct (gather _). }
  destruct (prepare_inv _ _ _ _ _ _ Hp) as (Hex & cm & Hcm & Hres).
  split_and!.
  - intros schedule report dir' Hmain.
    rewrite (main_outcome _ _ _ _ _ _ _ _ Hp) in Hmain. simpl in Hmain.
    specialize (Hnot schedule). by destruct (gather _).
  - intros schedule. rewrite Hfinal. by eapply run_gate_manifest.
  - intros schedule f Hf. rewrite Hfinal. by eapply run_gate_grows.
  - rewrite (main_outcome _ _ _ _ _ _ _ _ Hp). simpl.
    pose proof (sequential_schedule_finishes synth (to_generate p) (store p)) as Hfin.
    rewrite <-synthesize_gate_run in Hfin.
    specialize (Hnot (sequential_schedule (length (to_generate p)))).
    destruct (gather _); [done|eauto|done].
  - intros schedule f Hf. rewrite Hfinal.
    rewrite (run_manifest _ _ _ _ _ _ Hp) in Hf.
    rewrite synthesize_gate_run, gate_store_other.
    + apply (resolve_store_other _ _ _ _ _ _ Hres). intros i t Hi _ ->.
      apply Hf, elem_of_named_values. eauto.
    + intros (i & t & Hi & -> & _)%(run_pending_paths _ _ _ _ _ _ Hp).
      apply Hf, elem_of_named_values. eauto.
  - intros schedule cm' i t audio Hcm' Hi Hc. rewrite Hfinal.
    by eapply run_gate_copy.
  - intros schedule j t f Hj Hdone. rewrite Hfinal.
    rewrite synthesize_gate_run in Hdone |- *.
    destruct (gate_saved synth (to_generate p) (store p) schedule j)
      as (t' & f' & audio & Hj' & Hs & Hst); [|done|].
    { by eapply to_generate_paths_NoDup. }
    simplify_eq. eauto.
  - intros schedule more f. rewrite !Hfinal, !synthesize_gate_run.
    unfold gate_run. rewrite foldl_app.
    generalize (foldl (generate_tts_step synth (to_generate p))
                      (gate_init (to_generate p) (store p)) schedule).
    intros g Hf.
    apply (gate_run_ind synth (to_generate p) (fun g => is_Some (gate_store g !! f)));
      [done|].
    intros g1 i g2 Hinv []; simpl; try done.
    rewrite lookup_insert. by case_decide.
  - intros schedule j t f audio Hj Hfl Hs. rewrite Hfinal.
    rewrite synthesize_gate_run in Hfl |- *.
    unfold gate_run in *. rewrite foldl_app. simpl.
    unfold generate_tts_step at 1. rewrite Hfl, Hj, Hs. simpl.
    apply lookup_insert_eq.
Qed.

Lemma synthesis_failure_aborts_run_witness :
  (∀ schedule report dir',
     main sample_vocab None sample_central sample_failing_synth schedule sample_store
     ≠ Completed report dir')
  ∧ (∃ dir',
       main sample_vocab None sample_central sample_failing_synth
            (sequential_schedule 2) sample_store
       = Aborted SynthesisError dir').
Proof.
  destruct (synthesis_failure_aborts_run sample_vocab None sample_central
              sample_failing_synth sample_store sample_texts
              (resolve {["안녕" := "a1.mp3"]}
                       (audio_directory {["a1.mp3" := "ANNYEONG"]})
                       sample_texts sample_store).1
              "학교" "0002_09b9db.mp3")
    as (Hnever & _ & _ & Habort & _).
  - vm_compute. reflexivity.
  - vm_compute. right. left.
  - reflexivity.
  - split; [exact Hnever|exact Habort].
Defined.



(** C8, as stated, fails: a reference manifest that exists but cannot be
    opened or parsed raises out of [main]; the same run with an empty
    reference manifest completes. *)
Lemma unreadable_reference_manifest_aborts :
  main sample_vocab None (Central Unreadable ∅) sample_synth
       (sequential_schedule 3) sample_store
  = Aborted ReadError sample_store
  ∧ ∃ report dir',
      main sample_vocab None (Central (Readable ∅) ∅) sample_synth
           (sequential_schedule 3) sample_store
      = Completed report dir'.
Proof. split; [reflexivity|]. eexists _, _. vm_compute. reflexivity. Qed.

(** C8 (amended): if the reference manifest file does not exist, the run
    proceeds as with an empty reference manifest: nothing is copied and
    every required text is put in [to_generate].  If the file exists but
    [open] or [json.load] raises, the exception leaves [main] before the
    store is touched. *)
Theorem missing_reference_manifest_is_empty data sdata audio dir texts :
  extract_all_texts data sdata = Ok texts →
  (∃ p, prepare data sdata (Central Missing audio) dir = Ok (texts, p)
        ∧ prepare data sdata (Central (Readable ∅) audio) dir = Ok (texts, p)
        ∧ to_generate p = named texts
        ∧ copied p = 0
        ∧ store p = dir)
  ∧ (∀ synth schedule,
       main data sdata (Central Unreadable audio) synth schedule dir
       = Aborted ReadError dir).
Proof.
  intros Hex. split.
  - destruct (resolve_total ∅ audio texts dir) as [p Hres].
    { intros text _ (cf & Hcf & _). by rewrite lookup_empty in Hcf. }
    exists p.
    assert (to_generate p = named texts) as Hall.
    { rewrite (resolve_to_generate _ _ _ _ _ Hres). unfold named. f_equal.
      apply filter_all. intros x. unfold cached. by rewrite lookup_empty. }
    split_and!.
    + by eapply prepare_intro.
    + by eapply prepare_intro.
    + exact Hall.
    + pose proof (resolve_copied _ _ _ _ _ Hres) as Hc.
      rewrite Hall in Hc. unfold named in Hc.
      rewrite length_map, length_enumerate in Hc. lia.
    + apply map_eq. intros f. apply (resolve_store_other _ _ _ _ _ _ Hres).
      intros i text _ Hc. unfold cached in Hc. by rewrite lookup_empty in Hc.
  - intros synth schedule. unfold main. by rewrite Hex.
Qed.

Lemma missing_reference_manifest_is_empty_witness :
  (∃ p, prepare sample_vocab None (Central Missing ∅) sample_store = Ok (sample_texts, p)
        ∧ prepare sample_vocab None (Central (Readable ∅) ∅) sample_store
          = Ok (sample_texts, p)
        ∧ to_generate p = named sample_texts
        ∧ copied p = 0
        ∧ store p = sample_store)
  ∧ (∀ synth schedule,
       main sample_vocab None (Central Unreadable ∅) synth schedule sample_store
       = Aborted ReadError sample_store).
Proof.
  apply (missing_reference_manifest_is_empty sample_vocab None ∅ sample_store sample_texts).
  vm_compute. reflexivity.
Defined.

(** C9, as stated, fails: [open(mpath, 'w')] truncates the manifest in
    place before [json.dump] writes, so between the two the file at the
    manifest path is empty: neither the prior document nor the new one. *)
Lemma manifest_write_is_not_atomic :
  let before : directory := {[MANIFEST_NAME := json_dumps [("안녕", "0000_ef1c51.mp3")]]} in
  ∃ during,
    write_manifest_steps sample_manifest before !! 0 = Some during
    ∧ during !! MANIFEST_NAME = Some ""
    ∧ during !! MANIFEST_NAME ≠ before !! MANIFEST_NAME
    ∧ during !! MANIFEST_NAME ≠ Some (json_dumps sample_manifest).
Proof. eexists. split; [reflexivity|]. split; [reflexivity|]. by vm_compute. Qed.

(** C9 (amended): the manifest is written in place at its fixed path: the
    file is first truncated, then the whole document is written; after the
    write the file holds the document of the local manifest whatever it held
    before, and no other file of the store changes at any step.  The
    truncated state is not a manifest document. *)
Theorem manifest_written_in_place m (dir : directory) :
  write_manifest_steps m dir = [open_w MANIFEST_NAME dir; write_manifest m dir]
  ∧ open_w MANIFEST_NAME dir !! MANIFEST_NAME = Some ""
  ∧ write_manifest m dir !! MANIFEST_NAME = Some (json_dumps m)
  ∧ (∀ d f, d ∈ write_manifest_steps m dir → f ≠ MANIFEST_NAME → d !! f = dir !! f)
  ∧ json_dumps m ≠ "".
Proof.
  split; [done|]. split; [apply lookup_insert_eq|].
  split; [rewrite write_manifest_insert; apply lookup_insert_eq|]. split.
  - intros d f Hd Hf. unfold write_manifest_steps in Hd.
    fold (write_manifest m dir) in Hd. rewrite write_manifest_insert in Hd.
    apply elem_of_cons in Hd as [->|Hd]; [by apply lookup_insert_ne|].
    apply list_elem_of_singleton in Hd as ->. by apply lookup_insert_ne.
  - by destruct m.
Qed.

(** C10: the orphan sweep creates and changes nothing; the entries it
    removes are exactly those whose name ends in [.mp3] and is not a value
    of the manifest.  Every other entry, [manifest.json] and every file
    without the [.mp3] suffix among them, is left as it was. *)
Theorem clean_orphans_frame m (dir : directory) f :
  let dir' := (clean_orphans m dir).1 in
  (∀ content, dir' !! f = Some content → dir !! f = Some content)
  ∧ ((is_Some (dir !! f) ∧ dir' !! f = None)
     ↔ (is_Some (dir !! f) ∧ endswith f ".mp3" = true ∧ f ∉ dict_values m))
  ∧ (endswith f ".mp3" = false → dir' !! f = dir !! f)
  ∧ (f ∈ dict_values m → dir' !! f = dir !! f)
  ∧ dir' !! MANIFEST_NAME = dir !! MANIFEST_NAME.
Proof.
  intros dir'. unfold dir'. rewrite !clean_orphans_lookup.
  rewrite manifest_not_orphan.
  destruct (is_orphan _ f) eqn:Ho.
  - apply is_orphan_spec in Ho as [Hmp3 Hnotin].
    split_and!; [done|by split; intros []|congruence|done|done].
  - assert (¬ (endswith f ".mp3" = true ∧ f ∉ dict_values m)) as Hno.
    { rewrite <-is_orphan_spec. congruence. }
    split_and!; [done| |done..].
    split; [intros [[] ?]; congruence|intros (_ & ? & ?); tauto].
Qed.


(** * Further properties of [build_tts.py] *)

(** ** [has_jongseong] and the particles *)

(** X1: for a precomposed Hangul syllable, written as its lead consonant
    (of 19), its vowel (of 21) and its tail (of 28) in the Unicode block
    that starts at U+AC00, [has_jongseong] answers whether the tail is not
    the empty one. *)
Theorem has_jongseong_syllable (lead vowel tail : N) :
  (lead < 19)%N → (vowel < 21)%N → (tail < 28)%N →
  has_jongseong (0xAC00 + (lead * 21 + vowel) * 28 + tail) = negb (tail =? 0)%N.
Proof.
  intros Hl Hv Ht. unfold has_jongseong.
  replace (0xAC00 + (lead * 21 + vowel) * 28 + tail - 0xAC00)%N
    with (tail + (lead * 21 + vowel) * 28)%N by lia.
  rewrite N.Div0.mod_add, N.mod_small by done.
  assert ((0xAC00 + (lead * 21 + vowel) * 28 + tail <? 0xAC00)%N = false) as ->
    by (apply N.ltb_ge; lia).
  assert ((0xD7AF <? 0xAC00 + (lead * 21 + vowel) * 28 + tail)%N = false) as ->
    by (apply N.ltb_ge; lia).
  done.
Qed.

Lemma has_jongseong_syllable_witness :
  has_jongseong 0xD559 = true.
Proof.
  change 0xD559%N with (0xAC00 + (18 * 21 + 0) * 28 + 1)%N.
  rewrite has_jongseong_syllable by done. reflexivity.
Defined.

Lemma string_bytes_append s t : string_bytes (s +:+ t) = string_bytes s ++ string_bytes t.
Proof.
  unfold string_bytes. induction s as [|c s IH]; [done|].
  rewrite append_cons. simpl. by rewrite IH.
Qed.

Lemma string_bytes_nil s : string_bytes s = [] ↔ s = "".
Proof. by destruct s. Qed.

Lemma utf8_decode_start bs acc : utf8_decode_from bs 0 acc = utf8_decode_from bs 0 0.
Proof. by destruct bs. Qed.

Lemma utf8_decode_app bs cs need acc :
  utf8_valid_from bs need = true →
  utf8_decode_from (bs ++ cs) need acc
  = utf8_decode_from bs need acc ++ utf8_decode_from cs 0 0.
Proof.
  revert need acc. induction bs as [|b bs IH]; intros need acc Hv.
  { destruct need; [apply utf8_decode_start|discriminate]. }
  simpl in *. destruct need as [|[|k]].
  - repeat (case_match; try discriminate); simpl; rewrite ?IH by done; done.
  - apply andb_true_iff in Hv as [_ Hv]. simpl. by rewrite IH.
  - apply andb_true_iff in Hv as [_ Hv]. by rewrite IH.
Qed.

Lemma utf8_decode_nonempty bs need acc :
  utf8_valid_from bs need = true → bs ≠ [] → utf8_decode_from bs need acc ≠ [].
Proof.
  revert need acc. induction bs as [|b bs IH]; intros need acc Hv Hne; [done|].
  simpl in *. destruct need as [|[|k]].
  - repeat (case_match; try discriminate); try done;
      (apply IH; [done|]; intros ->; discriminate).
  - done.
  - apply andb_true_iff in Hv as [_ Hv]. apply IH; [done|].
    intros ->. discriminate.
Qed.

Lemma code_points_nonempty s : well_formed s → s ≠ "" → code_points s ≠ [].
Proof.
  intros Hw Hs. apply utf8_decode_nonempty; [done|]. by rewrite string_bytes_nil.
Qed.

Lemma with_particle_raises kr yes no e :
  with_particle kr yes no = Raise e ↔ e = IndexError ∧ last (code_points kr) = None.
Proof.
  unfold with_particle. destruct (last (code_points kr)); split; try done.
  - by intros [_ ?].
  - by intros [= <-].
  - by intros [-> _].
Qed.

(** X2: on a well-formed string, [kr + (yes if has_jongseong(kr[-1]) else
    no)] raises [IndexError] exactly for the empty string, and the particle
    depends on the last character only: what is put before [kr] is carried
    over unchanged. *)
Theorem with_particle_last_character kr yes no :
  well_formed kr →
  (with_particle kr yes no = Raise IndexError ↔ kr = "")
  ∧ (∀ stem t, well_formed stem → with_particle kr yes no = Ok t →
       with_particle (stem +:+ kr) yes no = Ok (stem +:+ t)).
Proof.
  intros Hw. split.
  - rewrite with_particle_raises, last_None. split.
    + intros [_ Hnil]. destruct (decide (kr = "")) as [|Hne]; [done|].
      by destruct (code_points_nonempty kr Hw Hne).
    + by intros ->.
  - intros stem t Hstem. unfold with_particle, code_points.
    rewrite string_bytes_append, utf8_decode_app by done.
    fold (code_points kr). fold (code_points stem).
    destruct (last (code_points kr)) as [code|] eqn:Hlast; [|done].
    intros [= <-].
    assert (last (code_points stem ++ code_points kr) = Some code) as ->.
    { destruct (code_points kr) as [|c l] using rev_ind; [done|].
      rewrite last_snoc in Hlast. injection Hlast as ->.
      by rewrite app_assoc, last_snoc. }
    by rewrite append_assoc.
Qed.

Lemma with_particle_last_character_witness :
  with_particle ("우리 " +:+ "학교") "을" "를" = Ok ("우리 " +:+ "학교를").
Proof.
  assert (well_formed "학교") as Hw by reflexivity.
  destruct (with_particle_last_character "학교" "을" "를" Hw) as [_ Hstem].
  apply Hstem; [reflexivity|vm_compute; reflexivity].
Defined.

(** ** What [extract_all_texts] collects *)

Lemma elem_of_add x (texts : gset string) t : t ∈ add x texts ↔ t = x ∨ t ∈ texts.
Proof. unfold add. by rewrite elem_of_union, elem_of_singleton. Qed.

Lemma elem_of_add_opt x (texts : gset string) t :
  t ∈ add_opt x texts ↔ x = Some t ∨ t ∈ texts.
Proof.
  destruct x as [x|]; simpl.
  - rewrite elem_of_add. split; intros [?|?]; simplify_eq; auto.
  - split; [auto|]. by intros [?|?].
Qed.

(** A loop that only adds: the result holds what the loop adds and what
    was there. *)
Lemma elem_of_foldl_adds {A} (body : gset string → A → gset string)
    (adds : A → string → Prop) xs (texts : gset string) t :
  (∀ s x t, t ∈ body s x ↔ adds x t ∨ t ∈ s) →
  t ∈ foldl body texts xs ↔ (∃ x, x ∈ xs ∧ adds x t) ∨ t ∈ texts.
Proof.
  intros Hbody. revert texts. induction xs as [|x xs IH]; intros texts; simpl.
  - split; [auto|]. intros [(x & Hx & _)|?]; [by apply elem_of_nil in Hx|done].
  - rewrite IH, Hbody. split.
    + intros [(y & Hy & ?)|[?|?]]; [left; exists y|left; exists x|right];
        rewrite ?elem_of_cons; auto.
    + intros [(y & [->|Hy]%elem_of_cons & ?)|?]; eauto.
Qed.

Lemma elem_of_add_list xs (texts : gset string) t :
  t ∈ add_list xs texts ↔ t ∈ xs ∨ t ∈ texts.
Proof.
  unfold add_list.
  rewrite (elem_of_foldl_adds _ (fun x t => t = x)) by (intros; apply elem_of_add).
  split; intros [H|?]; auto.
  - destruct H as (x & ? & ->). auto.
  - left. eauto.
Qed.

Lemma add_with_particle_inv yes no kr (texts : gset string) :
  match add_with_particle yes no kr texts with
  | Ok texts' =>
      last (code_points kr) ≠ None
      ∧ ∀ t, t ∈ texts' ↔ particle_form yes no kr t ∨ t ∈ texts
  | Raise e => e = IndexError ∧ last (code_points kr) = None
  end.
Proof.
  unfold add_with_particle, particle_form, with_particle.
  destruct (last (code_points kr)) as [code|]; simpl; [|done].
  split; [done|]. intros t. rewrite !elem_of_add. split.
  - intros [->|[->|?]]; auto.
  - intros [[->|[= <-]]|?]; auto.
Qed.

(** The particle loops: they raise exactly when some noun has no last
    character, and add each noun bare and with its particle otherwise. *)
Lemma for_each_particles yes no krs (texts : gset string) :
  match for_each (add_with_particle yes no) krs texts with
  | Ok texts' =>
      Forall (fun kr => last (code_points kr) ≠ None) krs
      ∧ ∀ t, t ∈ texts' ↔ (∃ kr, kr ∈ krs ∧ particle_form yes no kr t) ∨ t ∈ texts
  | Raise e =>
      e = IndexError ∧ Exists (fun kr => last (code_points kr) = None) krs
  end.
Proof.
  revert texts. induction krs as [|kr krs IH]; intros texts; simpl.
  { split; [constructor|]. intros t. split; [auto|].
    intros [(x & Hx & _)|?]; [by apply elem_of_nil in Hx|done]. }
  pose proof (add_with_particle_inv yes no kr texts) as Hstep.
  destruct (add_with_particle yes no kr texts) as [texts1|e]; simpl.
  - destruct Hstep as [Hlast Hin]. specialize (IH texts1).
    destruct (for_each _ krs texts1) as [texts'|e].
    + destruct IH as [Hall Hin']. split; [by constructor|].
      intros t. rewrite Hin', Hin. split.
      * intros [(y & Hy & ?)|[?|?]]; [left; exists y|left; exists kr|right];
          rewrite ?elem_of_cons; auto.
      * intros [(y & [->|Hy]%elem_of_cons & ?)|?]; eauto.
    + destruct IH as [-> Hex]. split; [done|]. by apply Exists_cons_tl.
  - destruct Hstep as [-> Hnone]. split; [done|]. by apply Exists_cons_hd.
Qed.

Lemma collect_texts_spec data sdata :
  match collect_texts data sdata with
  | Ok texts =>
      Forall (fun kr => last (code_points kr) ≠ None) (particle_nouns data)
      ∧ ∀ t, t ∈ texts ↔ named_in data sdata t
  | Raise e =>
      e = IndexError
      ∧ Exists (fun kr => last (code_points kr) = None) (particle_nouns data)
  end.
Proof.
  unfold collect_texts, particle_nouns.
  set (t1 := add_list (action_times data) _).
  set (t2 := foldl _ t1 (action_places data)).
  pose proof (for_each_particles "을" "를" (action_objects data) t2) as H3.
  destruct (for_each _ (action_objects data) t2) as [t3|e]; simpl;
    [|destruct H3 as [-> H3]; split; [done|]; rewrite !Exists_app; auto].
  set (t4 := foldl _ t3 (action_verbs data)).
  pose proof (for_each_particles "이" "가" (describe_subjects data) t4) as H5.
  destruct (for_each _ (describe_subjects data) t4) as [t5|e]; simpl;
    [|destruct H5 as [-> H5]; split; [done|]; rewrite !Exists_app; auto].
  set (t6 := add_list (intro_topics data) _).
  pose proof (for_each_particles "이에요" "예요" (intro_nouns data) t6) as H7.
  destruct (for_each _ (intro_nouns data) t6) as [t7|e]; simpl;
    [|destruct H7 as [-> H7]; split; [done|]; rewrite !Exists_app; auto].
  destruct H3 as [Hall3 H3], H5 as [Hall5 H5], H7 as [Hall7 H7].
  split; [rewrite !Forall_app; auto|].
  intros t. unfold named_in.
  assert (∀ s, t ∈ match sdata with
                   | Some chapters =>
                       foldl (fun t ch => foldl (fun t s => add_opt s t) t ch) s chapters
                   | None => s
                   end
               ↔ (∃ chapters ch, sdata = Some chapters ∧ ch ∈ chapters ∧ Some t ∈ ch)
                 ∨ t ∈ s) as Hsent.
  { intros s. destruct sdata as [chapters|].
    - rewrite (elem_of_foldl_adds _ (fun ch t => Some t ∈ ch)).
      + split; intros [H|?]; auto.
        * destruct H as (ch & ? & ?). left. eauto.
        * destruct H as (chs & ch & [= <-] & ? & ?). left. eauto.
      + intros s' ch t'.
        rewrite (elem_of_foldl_adds _ (fun x t => x = Some t))
          by (intros; apply elem_of_add_opt).
        split; intros [H|?]; auto.
        * destruct H as (x & ? & ->). auto.
        * left. eauto.
    - split; [auto|]. by intros [(? & ? & ? & _)|?]. }
  rewrite Hsent.
  rewrite (elem_of_foldl_adds _ (fun s t => correct s = Some t ∨ t ∈ options s)).
  2:{ intros s x t'. rewrite elem_of_add_list, elem_of_add_opt. tauto. }
  rewrite H7. unfold t6. rewrite elem_of_add_list.
  rewrite (elem_of_foldl_adds _ (fun cards t => t ∈ cards))
    by (intros; apply elem_of_add_list).
  rewrite !elem_of_add_list, H5. unfold t4.
  rewrite (elem_of_foldl_adds _
    (fun v t => past v = Some t ∨ present v = Some t ∨ future v = Some t)).
  2:{ intros s x t'. rewrite !elem_of_add_opt. tauto. }
  rewrite H3. unfold t2.
  rewrite (elem_of_foldl_adds _
    (fun p t => t = place_kr p ∨ formE p = Some t ∨ formEseo p = Some t)).
  2:{ intros s x t'. rewrite !elem_of_add_opt, elem_of_add. tauto. }
  unfold t1. rewrite !elem_of_add_list.
  assert (t ∉ (∅ : gset string)) by apply not_elem_of_empty.
  tauto.
Qed.

(** X3: when [extract_all_texts] returns, its texts are exactly the
    non-empty strings that the two documents name where the function reads
    them, each particle noun bare and with its particle. *)
Theorem extract_all_texts_names data sdata texts :
  extract_all_texts data sdata = Ok texts →
  ∀ t, t ∈ texts ↔ (t ≠ "" ∧ named_in data sdata t).
Proof.
  intros (collected & Hc & ->)%extract_all_texts_inv t.
  pose proof (collect_texts_spec data sdata) as Hspec. rewrite Hc in Hspec.
  destruct Hspec as [_ Hin].
  rewrite elem_of_sorted, elem_of_difference, elem_of_singleton, Hin. tauto.
Qed.

Lemma extract_all_texts_names_witness :
  "사랑해요" ∈ sample_texts ∧ ("" ∉ sample_texts).
Proof.
  assert (extract_all_texts sample_vocab None = Ok sample_texts) as Hex
    by (vm_compute; reflexivity).
  pose proof (extract_all_texts_names _ _ _ Hex) as Hnames.
  split.
  - apply Hnames. split; [done|]. unfold named_in.
    do 8 right. left. exists ["사랑해요"; "안녕"]. split; [left|left].
  - intros [Hne _]%Hnames. exact (Hne eq_refl).
Defined.

(** X4: the only exception of [extract_all_texts] in the model is the
    [IndexError] of [kr[-1]], and it is raised exactly when an object, a
    describe subject or an intro noun has no last character; on well-formed
    nouns that is when one of them is the empty string. *)
Theorem extract_all_texts_raises data sdata :
  (∀ e, extract_all_texts data sdata = Raise e →
        e = IndexError
        ∧ Exists (fun kr => last (code_points kr) = None) (particle_nouns data))
  ∧ (Forall (fun kr => last (code_points kr) ≠ None) (particle_nouns data) →
     ∃ texts, extract_all_texts data sdata = Ok texts)
  ∧ (Forall well_formed (particle_nouns data) →
     ((∃ texts, extract_all_texts data sdata = Ok texts)
      ↔ "" ∉ particle_nouns data)).
Proof.
  pose proof (collect_texts_spec data sdata) as Hspec.
  unfold extract_all_texts.
  destruct (collect_texts data sdata) as [collected|e0]; simpl.
  - destruct Hspec as [Hall _]. split_and!; [done|eauto|].
    intros Hwf. split; [|eauto]. intros _ Hin.
    rewrite Forall_forall in Hall. by apply (Hall _ Hin).
  - destruct Hspec as [-> Hex]. split_and!.
    + by intros e [= <-].
    + intros Hall. apply Exists_exists in Hex as (kr & Hin & Hnone).
      rewrite Forall_forall in Hall. by destruct (Hall _ Hin).
    + intros Hwf. split; [by intros [? ?]|]. intros Hno. exfalso.
      apply Exists_exists in Hex as (kr & Hin & Hnone).
      rewrite Forall_forall in Hwf. apply last_None in Hnone.
      destruct (decide (kr = "")) as [->|Hne]; [done|].
      by apply (code_points_nonempty kr (Hwf _ Hin) Hne).
Qed.

Lemma extract_all_texts_raises_witness :
  ∃ texts,
    extract_all_texts (Vocab [] [] [] ["책"; "학교"] [] [] [] [] [] [] [] []) None = Ok texts.
Proof.
  destruct (extract_all_texts_raises
              (Vocab [] [] [] ["책"; "학교"] [] [] [] [] [] [] [] []) None)
    as (_ & _ & Hiff).
  apply Hiff.
  - repeat constructor.
  - intros Hin. apply elem_of_cons in Hin as [Hin|Hin]; [discriminate|].
    apply list_elem_of_singleton in Hin. discriminate.
Defined.

(** ** More about the gate *)

Lemma gather_tasks g1 g2 : tasks g1 = tasks g2 → gather g1 = gather g2.
Proof. unfold gather. by intros ->. Qed.

(** The tasks, the semaphore, the calls and the counter do not depend on
    what the directory holds. *)
Lemma generate_tts_step_forgets_store synth pending g1 g2 i :
  sem_value g1 = sem_value g2 → tasks g1 = tasks g2 →
  calls g1 = calls g2 → counter g1 = counter g2 →
  let r1 := generate_tts_step synth pending g1 i in
  let r2 := generate_tts_step synth pending g2 i in
  sem_value r1 = sem_value r2 ∧ tasks r1 = tasks r2
  ∧ calls r1 = calls r2 ∧ counter r1 = counter r2.
Proof.
  intros Hs Ht Hc Hn. unfold generate_tts_step.
  rewrite Ht, Hs, Hc, Hn.
  destruct (tasks g2 !! i) as [[]|]; try done;
    destruct (pending !! i) as [[text fpath]|]; try done;
    first [by destruct (synth text)
          |destruct (sem_value g2) eqn:?; simpl; split_and!; congruence].
Qed.

Lemma gate_run_forgets_store synth pending schedule g1 g2 :
  sem_value g1 = sem_value g2 → tasks g1 = tasks g2 →
  calls g1 = calls g2 → counter g1 = counter g2 →
  let r1 := gate_run synth pending schedule g1 in
  let r2 := gate_run synth pending schedule g2 in
  sem_value r1 = sem_value r2 ∧ tasks r1 = tasks r2
  ∧ calls r1 = calls r2 ∧ counter r1 = counter r2.
Proof.
  revert g1 g2. induction schedule as [|i schedule IH]; intros g1 g2 Hs Ht Hc Hn; [done|].
  simpl.
  destruct (generate_tts_step_forgets_store synth pending g1 g2 i Hs Ht Hc Hn)
    as (? & ? & ? & ?).
  by apply IH.
Qed.

Lemma count_task_insert (x : task) (l : list task) i old new :
  l !! i = Some old →
  length (filter (eq x) (<[i := new]> l)) + (if decide (x = old) then 1 else 0)
  = length (filter (eq x) l) + (if decide (x = new) then 1 else 0).
Proof.
  revert i. induction l as [|y l IH]; intros [|i] Hi; simplify_eq/=.
  - rewrite !filter_cons.
    destruct (decide (x = new)), (decide (x = old)); simpl; lia.
  - rewrite !filter_cons. specialize (IH i Hi).
    destruct (decide (x = y)); simpl; lia.
Qed.

Lemma filter_Forall {A} (P : A → Prop) `{!∀ x, Decision (P x)} (l : list A) :
  Forall P l → filter P l = l.
Proof.
  induction 1 as [|x l Hx Hl IH]; [done|]. by rewrite filter_cons_True, IH.
Qed.

Section gate_calls.
Context (synth : synthesizer) (pending : list (string * string)) (dir : directory).

Local Abbreviation reached schedule :=
  (gate_run synth pending schedule (gate_init pending dir)).

Lemma gate_counter schedule :
  counter (reached schedule) = length (filter (eq Done) (tasks (reached schedule))).
Proof.
  apply (gate_run_ind synth pending
           (fun g => counter g = length (filter (eq Done) (tasks g)))).
  - simpl. induction (length pending) as [|n IH]; [done|].
    simpl. rewrite filter_cons. by case_decide.
  - intros g i g' Hinv Hstep.
    destruct Hstep as [text fpath free Ht _ _|text fpath audio Ht _ _
                      |text fpath Ht _ _|]; simpl; [| | |done].
    + pose proof (count_task_insert Done (tasks g) i Waiting InFlight Ht) as Hc.
      simpl in Hc. lia.
    + pose proof (count_task_insert Done (tasks g) i InFlight Done Ht) as Hc.
      simpl in Hc. lia.
    + pose proof (count_task_insert Done (tasks g) i InFlight Failed Ht) as Hc.
      simpl in Hc. lia.
Qed.

Lemma gate_calls_started schedule text :
  text ∈ calls (reached schedule) →
  ∃ i fpath, pending !! i = Some (text, fpath)
             ∧ is_Some (tasks (reached schedule) !! i)
             ∧ tasks (reached schedule) !! i ≠ Some Waiting.
Proof.
  apply (gate_run_ind synth pending
           (fun g => text ∈ calls g → ∃ i fpath, pending !! i = Some (text, fpath)
                       ∧ is_Some (tasks g !! i) ∧ tasks g !! i ≠ Some Waiting)).
  - by intros ?%elem_of_nil.
  - intros g j g' Hinv Hstep.
    assert (∀ new, new ≠ Waiting →
              (text ∈ calls g → ∃ i fpath, pending !! i = Some (text, fpath)
                 ∧ is_Some (<[j := new]> (tasks g) !! i)
                 ∧ <[j := new]> (tasks g) !! i ≠ Some Waiting)) as Hkeep.
    { intros new Hnew (i & fpath & Hp & [t Ht] & Hw)%Hinv. exists i, fpath.
      split; [done|]. destruct (decide (j = i)) as [->|Hne].
      - rewrite list_lookup_insert_eq by (by eapply lookup_lt_Some).
        split; [eauto|congruence].
      - rewrite list_lookup_insert_ne by done. eauto. }
    destruct Hstep as [text' fpath' free Ht Hp _|? ? ? Ht _ _|? ? Ht _ _|];
      simpl; [|by apply Hkeep..|done].
    intros [Hin| ->%list_elem_of_singleton]%elem_of_app; [by apply Hkeep|].
    exists j, fpath'. split; [done|].
    rewrite list_lookup_insert_eq by (by eapply lookup_lt_Some).
    split; [eauto|congruence].
Qed.

Lemma gate_calls_NoDup schedule :
  NoDup pending.*1 → NoDup (calls (reached schedule)).
Proof.
  intros Hnd.
  apply (gate_run_ind synth pending
           (fun g => NoDup (calls g)
                     ∧ ∀ text, text ∈ calls g → ∃ i fpath,
                         pending !! i = Some (text, fpath)
                         ∧ tasks g !! i ≠ Some Waiting
                         ∧ is_Some (tasks g !! i))).
  - split; [constructor|]. by intros ? ?%elem_of_nil.
  - intros g j g' [Hcalls Hinv] Hstep.
    assert (∀ new, new ≠ Waiting → ∀ text,
              text ∈ calls g → ∃ i fpath, pending !! i = Some (text, fpath)
                 ∧ <[j := new]> (tasks g) !! i ≠ Some Waiting
                 ∧ is_Some (<[j := new]> (tasks g) !! i)) as Hkeep.
    { intros new Hnew text (i & fpath & Hp & Hw & [t Ht])%Hinv. exists i, fpath.
      split; [done|]. destruct (decide (j = i)) as [->|Hne].
      - rewrite list_lookup_insert_eq by (by eapply lookup_lt_Some).
        split; [congruence|eauto].
      - rewrite list_lookup_insert_ne by done. eauto. }
    destruct Hstep as [text' fpath' free Ht Hp _|? ? ? Ht _ _|? ? Ht _ _|];
      simpl; [|split; [done|by apply Hkeep]..|done].
    split.
    + apply NoDup_app. split_and!; [done| |apply NoDup_singleton].
      intros text Hin ->%list_elem_of_singleton.
      apply Hinv in Hin as (i & fpath & Hp' & Hw & _).
      assert (i = j) as ->; [|congruence].
      eapply NoDup_lookup; [exact Hnd|..]; rewrite list_lookup_fmap;
        [by rewrite Hp'|by rewrite Hp].
    + intros text [Hin| ->%list_elem_of_singleton]%elem_of_app; [by apply Hkeep|].
      exists j, fpath'. split; [done|].
      rewrite list_lookup_insert_eq by (by eapply lookup_lt_Some).
      split; [congruence|eauto].
Qed.

(** When [gather] returns, every pending text has been handed to
    [tts.save] once, and the counter has counted them all. *)
Lemma gate_returned_calls schedule :
  NoDup pending.*1 →
  gather (reached schedule) = Returned →
  calls (reached schedule) ≡ₚ pending.*1
  ∧ counter (reached schedule) = length pending.
Proof.
  intros Hnd Hall%gather_returned. split.
  - apply NoDup_Permutation; [by apply gate_calls_NoDup|done|].
    intros text. split; [apply gate_calls_pending|].
    intros ([text' fpath] & -> & [k Hk]%list_elem_of_lookup)%list_elem_of_fmap.
    eapply gate_started_called; [exact Hk|].
    destruct (lookup_lt_is_Some_2 (tasks (reached schedule)) k) as [t Ht].
    { rewrite gate_length. by eapply lookup_lt_Some. }
    rewrite Forall_forall in Hall.
    rewrite Ht. rewrite <-(Hall t (list_elem_of_lookup_2 _ _ _ Ht)). done.
  - rewrite gate_counter, <-(gate_length synth pending dir schedule).
    f_equal. by apply filter_Forall.
Qed.
End gate_calls.

(** ** The store after a completed run *)

Lemma resolve_forgets_store cm ca texts dir1 dir2 p1 :
  resolve cm ca texts dir1 = (p1, None) →
  ∃ p2, resolve cm ca texts dir2 = (p2, None)
        ∧ manifest p1 = manifest p2
        ∧ to_generate p1 = to_generate p2
        ∧ copied p1 = copied p2.
Proof.
  apply (resolve_ind cm ca dir1
           (fun texts p1 => ∃ p2, resolve cm ca texts dir2 = (p2, None)
                                  ∧ manifest p1 = manifest p2
                                  ∧ to_generate p1 = to_generate p2
                                  ∧ copied p1 = copied p2)).
  { by exists (Plan [] [] 0 dir2). }
  clear texts p1. intros texts text p1 p1' _ (p2 & Hres2 & Hm & Hg & Hc) Hstep.
  apply resolve_step_inv in Hstep as [Hno ->].
  destruct (resolve_step_total cm ca p2 (length texts) text Hno) as [p2' Hstep2].
  exists p2'. rewrite resolve_snoc, Hres2, Hstep2. split; [done|].
  apply resolve_step_inv in Hstep2 as [_ ->].
  destruct (cached cm ca text); simpl; by rewrite Hm, Hg, Hc.
Qed.

Lemma gather_forgets_store synth pending schedule dir1 dir2 :
  gather (gate_run synth pending schedule (gate_init pending dir1))
  = gather (gate_run synth pending schedule (gate_init pending dir2)).
Proof.
  apply gather_tasks.
  by destruct (gate_run_forgets_store synth pending schedule
                 (gate_init pending dir1) (gate_init pending dir2)) as (_ & ? & _).
Qed.

Lemma listdir_NoDup (dir : directory) : NoDup (listdir dir).
Proof. unfold listdir. apply NoDup_elements. Qed.

Section completed.
Context (data : vocab) (sdata : sentences) (c : central) (synth : synthesizer).
Context (schedule : list nat) (dir : directory).
Context (texts : list string) (cm : gmap string string) (p : plan).
Context (Hprepare : prepare data sdata c dir = Ok (texts, p)).
Context (Hload : load_central_manifest (central_manifest_file c) = Ok cm).
Context (Hreturned : gather (synthesize synth schedule p) = Returned).

Lemma completed_plan : resolve cm (central_audio c) texts dir = (p, None).
Proof.
  destruct (prepare_inv _ _ _ _ _ _ Hprepare) as (_ & cm' & Hcm' & Hres). congruence.
Qed.

Lemma completed_valid f :
  f ∈ dict_values (manifest p) ↔ ∃ i text, texts !! i = Some text ∧ f = repo_filename text i.
Proof. rewrite (run_manifest _ _ _ _ _ _ Hprepare). apply elem_of_named_values. Qed.

(** Every artifact holds the audio of its text. *)
Lemma completed_gate_artifact i text :
  texts !! i = Some text →
  gate_store (synthesize synth schedule p) !! repo_filename text i
  = audio_for cm (central_audio c) synth text
  ∧ is_Some (audio_for cm (central_audio c) synth text).
Proof.
  intros Hi. unfold audio_for.
  destruct (cached cm (central_audio c) text) as [audio|] eqn:Hc.
  - split; [|eauto]. by eapply run_gate_copy.
  - edestruct (run_gate_saved _ _ _ _ _ _ Hprepare synth schedule text) as (audio & -> & -> & _);
      [done| |eauto].
    apply (elem_of_to_generate _ _ _ _ _ _ _ completed_plan). eauto.
Qed.

(** A name that is no artifact of this run is not written before the
    manifest is. *)
Lemma completed_gate_frame f :
  f ∉ dict_values (manifest p) →
  gate_store (synthesize synth schedule p) !! f = dir !! f.
Proof.
  intros Hf. rewrite synthesize_gate_run, gate_store_other.
  - apply (resolve_store_other _ _ _ _ _ _ completed_plan).
    intros i text Hi _ ->. apply Hf, completed_valid. eauto.
  - intros (i & text & Hi & -> & _)%(run_pending_paths _ _ _ _ _ _ Hprepare).
    apply Hf, completed_valid. eauto.
Qed.

Lemma completed_contents :
  let dir' := final_store (main data sdata c synth schedule dir) in
  dir' !! MANIFEST_NAME = Some (json_dumps (named texts))
  ∧ (∀ i text, texts !! i = Some text →
       dir' !! repo_filename text i = audio_for cm (central_audio c) synth text)
  ∧ (∀ f, f ∉ dict_values (named texts) → f ≠ MANIFEST_NAME →
       dir' !! f = if endswith f ".mp3" then None else dir !! f).
Proof.
  simpl. split_and!.
  - rewrite (run_completed_lookup _ _ _ _ _ _ Hprepare) by done.
    rewrite decide_True by done. by rewrite (run_manifest _ _ _ _ _ _ Hprepare).
  - intros i text Hi.
    rewrite (run_completed_lookup _ _ _ _ _ _ Hprepare) by done.
    rewrite decide_False by apply repo_filename_not_manifest.
    destruct (is_orphan _ _) eqn:Ho.
    + apply is_orphan_spec in Ho as [_ []]. apply completed_valid. eauto.
    + by apply completed_gate_artifact.
  - intros f Hf Hm.
    rewrite <-(run_manifest _ _ _ _ _ _ Hprepare) in Hf.
    rewrite (run_completed_lookup _ _ _ _ _ _ Hprepare) by done.
    rewrite decide_False by done.
    destruct (endswith f ".mp3") eqn:Hmp3.
    + assert (is_orphan (list_to_set (dict_values (manifest p))) f = true) as ->;
        [by apply is_orphan_spec|done].
    + assert (is_orphan (list_to_set (dict_values (manifest p))) f = false) as ->.
      { unfold is_orphan. by rewrite Hmp3. }
      by apply completed_gate_frame.
Qed.

(** The orphans that the sweep finds are those that were there before the
    run. *)
Lemma completed_orphans :
  let valid : gset string := list_to_set (dict_values (manifest p)) in
  filter (fun f => is_orphan valid f = true)
         (listdir (write_manifest (manifest p) (gate_store (synthesize synth schedule p))))
  ≡ₚ filter (fun f => is_orphan valid f = true) (listdir dir).
Proof.
  intros valid.
  apply NoDup_Permutation; [apply NoDup_filter, listdir_NoDup..|].
  intros f. rewrite !list_elem_of_filter, !elem_of_listdir. split; intros [Ho Hin];
    (split; [done|]); pose proof Ho as [_ Hnot]%is_orphan_spec;
    rewrite write_manifest_insert, lookup_insert_ne, completed_gate_frame in *;
    try done; intros <-; by rewrite manifest_not_orphan in Ho.
Qed.
End completed.

Lemma main_completed_inv data sdata c synth schedule dir report dir' :
  main data sdata c synth schedule dir = Completed report dir' →
  ∃ texts cm p,
    prepare data sdata c dir = Ok (texts, p)
    ∧ load_central_manifest (central_manifest_file c) = Ok cm
    ∧ gather (synthesize synth schedule p) = Returned
    ∧ report = Summary (length texts) (copied p) (length (to_generate p))
                 (clean_orphans (manifest p)
                    (write_manifest (manifest p) (gate_store (synthesize synth schedule p)))).2.
Proof.
  intros Hmain.
  destruct (prepare data sdata c dir) as [[texts p]|e] eqn:Hp;
    [|destruct (main_prepare_raise _ _ _ synth schedule _ _ Hp); congruence].
  destruct (prepare_inv _ _ _ _ _ _ Hp) as (_ & cm & Hcm & _).
  exists texts, cm, p. split; [done|]. split; [done|].
  rewrite (main_outcome _ _ _ _ _ _ _ _ Hp) in Hmain. simpl in Hmain.
  destruct (gather (synthesize synth schedule p)); [|done..].
  split; [done|]. congruence.
Qed.

Lemma filter_none {A} (P : A → Prop) `{!∀ x, Decision (P x)} (l : list A) :
  (∀ x, x ∈ l → ¬ P x) → filter P l = [].
Proof.
  induction l as [|x l IH]; intros Hl; [done|].
  rewrite filter_cons_False by (apply Hl; left). apply IH.
  intros y Hy. apply Hl. by right.
Qed.

Lemma to_generate_texts_NoDup cm ca texts dir p :
  NoDup texts → resolve cm ca texts dir = (p, None) → NoDup (to_generate p).*1.
Proof.
  intros Hnd Hres. rewrite (resolve_to_generate _ _ _ _ _ Hres).
  assert ((map item_name (filter (fun it => cached cm ca it.2 = None) (enumerate texts))).*1
          = (filter (fun it => cached cm ca it.2 = None) (enumerate texts)).*2) as ->.
  { rewrite <-list_fmap_compose. by apply list_fmap_ext. }
  apply (sublist_NoDup _ texts); [exact Hnd|].
  rewrite <-(enumerate_snd texts) at 2. apply fmap_sublist, sublist_filter.
Qed.

(** X5: after a completed run of [main] the output directory holds the
    manifest of the required texts, under each artifact name the audio of
    its text (the copy from TTS-Central on a cache hit, the synthesized
    audio otherwise), no other [.mp3] file, and every other file as it
    was. *)
Theorem completed_store_contents data sdata c synth schedule dir report dir' :
  main data sdata c synth schedule dir = Completed report dir' →
  ∃ texts cm,
    extract_all_texts data sdata = Ok texts
    ∧ load_central_manifest (central_manifest_file c) = Ok cm
    ∧ dir' !! MANIFEST_NAME = Some (json_dumps (named texts))
    ∧ (∀ i text, texts !! i = Some text →
         dir' !! repo_filename text i = audio_for cm (central_audio c) synth text
         ∧ is_Some (audio_for cm (central_audio c) synth text))
    ∧ (∀ f, f ∉ dict_values (named texts) → f ≠ MANIFEST_NAME →
         dir' !! f = if endswith f ".mp3" then None else dir !! f).
Proof.
  intros Hmain.
  destruct (main_completed_inv _ _ _ _ _ _ _ _ Hmain) as (texts & cm & p & Hp & Hcm & Hg & _).
  destruct (prepare_inv _ _ _ _ _ _ Hp) as (Hex & _).
  exists texts, cm. split; [done|]. split; [done|].
  pose proof (completed_contents _ _ _ _ _ _ _ _ _ Hp Hcm Hg) as Hc.
  rewrite Hmain in Hc. simpl in Hc. destruct Hc as (Hm & Hart & Hother).
  split; [done|]. split; [|done].
  intros i text Hi. split; [by apply Hart|].
  by eapply (completed_gate_artifact _ _ _ _ _ _ _ _ _ Hp Hcm Hg).
Qed.

Lemma completed_store_contents_witness :
  ∃ report dir',
    main sample_vocab None sample_central sample_synth sample_schedule sample_store
    = Completed report dir'
    ∧ ∃ texts cm,
        extract_all_texts sample_vocab None = Ok texts
        ∧ load_central_manifest (central_manifest_file sample_central) = Ok cm
        ∧ dir' !! MANIFEST_NAME = Some (json_dumps (named texts))
        ∧ (∀ i text, texts !! i = Some text →
             dir' !! repo_filename text i
             = audio_for cm (central_audio sample_central) sample_synth text
             ∧ is_Some (audio_for cm (central_audio sample_central) sample_synth text))
        ∧ (∀ f, f ∉ dict_values (named texts) → f ≠ MANIFEST_NAME →
             dir' !! f = if endswith f ".mp3" then None else sample_store !! f).
Proof.
  eexists _, _. split; [vm_compute; reflexivity|].
  eapply (completed_store_contents sample_vocab None sample_central sample_synth
            sample_schedule sample_store).
  vm_compute. reflexivity.
Defined.

(** X6: the counts that a completed run reports: the total is the number
    of required texts and splits into the copied and the synthesized ones,
    and the removed files are the orphans of the directory as it was at the
    start. *)
Theorem completed_report_counts data sdata c synth schedule dir report dir' :
  main data sdata c synth schedule dir = Completed report dir' →
  ∃ texts p,
    prepare data sdata c dir = Ok (texts, p)
    ∧ total report = length texts
    ∧ n_generate report = length (to_generate p)
    ∧ total report = n_copied report + n_generate report
    ∧ n_removed report
      = length (filter (fun f => is_orphan (list_to_set (dict_values (manifest p))) f = true)
                       (listdir dir)).
Proof.
  intros Hmain.
  destruct (main_completed_inv _ _ _ _ _ _ _ _ Hmain) as (texts & cm & p & Hp & Hcm & Hg & ->).
  exists texts, p. simpl. split_and!; [done..| |].
  - pose proof (resolve_copied _ _ _ _ _ (completed_plan _ _ _ _ _ _ _ Hp Hcm)).
    lia.
  - rewrite clean_orphans_count.
    by rewrite (completed_orphans _ _ _ _ _ _ _ _ _ Hp Hcm).
Qed.

Lemma completed_report_counts_witness :
  ∃ report dir',
    main sample_vocab None sample_central sample_synth sample_schedule sample_store
    = Completed report dir'
    ∧ total report = n_copied report + n_generate report.
Proof.
  eexists _, _. split; [vm_compute; reflexivity|].
  edestruct (completed_report_counts sample_vocab None sample_central sample_synth
               sample_schedule sample_store)
    as (texts & p & _ & _ & _ & Hsum & _); [vm_compute; reflexivity|].
  exact Hsum.
Defined.

(** X7: running [main] again on the directory that a completed run
    left, with the same documents, reference store and synthesizer,
    completes with the same directory and the same counts, and removes
    nothing. *)
Theorem main_idempotent data sdata c synth schedule dir report dir' :
  main data sdata c synth schedule dir = Completed report dir' →
  main data sdata c synth schedule dir'
  = Completed (Summary (total report) (n_copied report) (n_generate report) 0) dir'.
Proof.
  intros Hmain.
  destruct (main_completed_inv _ _ _ _ _ _ _ _ Hmain) as (texts & cm & p & Hp & Hcm & Hg & ->).
  destruct (prepare_inv _ _ _ _ _ _ Hp) as (Hex & _).
  pose proof (completed_plan _ _ _ _ _ _ _ Hp Hcm) as Hplan.
  pose proof (completed_contents _ _ _ _ _ _ _ _ _ Hp Hcm Hg) as Hc.
  rewrite Hmain in Hc. simpl in Hc. destruct Hc as (Hm & Hart & Hother).
  destruct (resolve_forgets_store _ _ _ _ dir' _ Hplan) as (p2 & Hres2 & Hman & Hgen & Hcop).
  symmetry in Hman, Hgen, Hcop.
  pose proof (prepare_intro _ _ _ dir' _ _ _ Hex Hcm Hres2) as Hp2.
  assert (gather (synthesize synth schedule p2) = Returned) as Hg2.
  { rewrite synthesize_gate_run, Hgen, (gather_forgets_store _ _ _ _ (store p)).
    by rewrite <-synthesize_gate_run. }
  pose proof (completed_contents _ _ _ _ _ _ _ _ _ Hp2 Hcm Hg2) as Hc2.
  simpl in Hc2. destruct Hc2 as (Hm2 & Hart2 & Hother2).
  pose proof (completed_orphans _ _ _ synth schedule _ _ _ _ Hp2 Hcm) as Horph.
  rewrite (main_outcome _ _ _ _ _ _ _ _ Hp2) in *. simpl in *. rewrite Hg2 in *.
  simpl in *. f_equal.
  - rewrite Hcop, Hgen. simpl. f_equal.
    rewrite clean_orphans_count, Horph, filter_none; [done|].
    intros f Hin Ho. apply elem_of_listdir in Hin as [v Hv].
    rewrite Hman in Ho. apply is_orphan_spec in Ho as [Hmp3 Hnot].
    rewrite (run_manifest _ _ _ _ _ _ Hp) in Hnot.
    rewrite Hother, Hmp3 in Hv; [done..|].
    intros ->. done.
  - apply map_eq. intros f.
    destruct (decide (f = MANIFEST_NAME)) as [->|Hne]; [by rewrite Hm2, Hm|].
    destruct (decide (f ∈ dict_values (named texts))) as [Hin|Hnot].
    + apply elem_of_named_values in Hin as (i & text & Hi & ->).
      by rewrite Hart2, Hart.
    + rewrite Hother2, (Hother f) by done. by destruct (endswith f ".mp3").
Qed.

Lemma main_idempotent_witness :
  ∃ report dir',
    main sample_vocab None sample_central sample_synth sample_schedule sample_store
    = Completed report dir'
    ∧ main sample_vocab None sample_central sample_synth sample_schedule dir'
      = Completed (Summary (total report) (n_copied report) (n_generate report) 0) dir'.
Proof.
  eexists _, _. split; [vm_compute; reflexivity|].
  apply (main_idempotent sample_vocab None sample_central sample_synth
           sample_schedule sample_store).
  vm_compute. reflexivity.
Defined.

(** X8: the directory that a completed run leaves does not depend on the
    order in which the tasks were scheduled, nor on the [.mp3] files or the
    manifest that the directory held before; the counts of texts, copies
    and syntheses agree as well. *)
Theorem completed_store_schedule_independent
    data sdata c synth schedule1 schedule2 dir1 dir2 report1 report2 dir1' dir2' :
  (∀ f, endswith f ".mp3" = false → f ≠ MANIFEST_NAME → dir1 !! f = dir2 !! f) →
  main data sdata c synth schedule1 dir1 = Completed report1 dir1' →
  main data sdata c synth schedule2 dir2 = Completed report2 dir2' →
  dir1' = dir2'
  ∧ total report1 = total report2
  ∧ n_copied report1 = n_copied report2
  ∧ n_generate report1 = n_generate report2
  ∧ (dir1 = dir2 → report1 = report2).
Proof.
  intros Hagree Hmain1 Hmain2.
  destruct (main_completed_inv _ _ _ _ _ _ _ _ Hmain1)
    as (texts & cm & p1 & Hp1 & Hcm & Hg1 & Hr1).
  destruct (main_completed_inv _ _ _ _ _ _ _ _ Hmain2)
    as (texts2 & cm2 & p2 & Hp2 & Hcm2 & Hg2 & Hr2).
  assert (cm2 = cm) as -> by congruence.
  destruct (prepare_inv _ _ _ _ _ _ Hp1) as (Hex1 & _).
  destruct (prepare_inv _ _ _ _ _ _ Hp2) as (Hex2 & _).
  assert (texts2 = texts) as -> by congruence.
  pose proof (completed_plan _ _ _ _ _ _ _ Hp1 Hcm) as Hplan1.
  pose proof (completed_plan _ _ _ _ _ _ _ Hp2 Hcm) as Hplan2.
  destruct (resolve_forgets_store _ _ _ _ dir2 _ Hplan1) as (p2' & Hres2 & Hman & Hgen & Hcop).
  assert (p2' = p2) as -> by congruence.
  pose proof (completed_contents _ _ _ _ _ _ _ _ _ Hp1 Hcm Hg1) as Hc1.
  rewrite Hmain1 in Hc1. simpl in Hc1. destruct Hc1 as (Hm1 & Hart1 & Hother1).
  pose proof (completed_contents _ _ _ _ _ _ _ _ _ Hp2 Hcm Hg2) as Hc2.
  rewrite Hmain2 in Hc2. simpl in Hc2. destruct Hc2 as (Hm2 & Hart2 & Hother2).
  assert (dir1' = dir2') as Hsame.
  { apply map_eq. intros f.
    destruct (decide (f = MANIFEST_NAME)) as [->|Hne]; [by rewrite Hm1, Hm2|].
    destruct (decide (f ∈ dict_values (named texts))) as [Hin|Hnot].
    - apply elem_of_named_values in Hin as (i & text & Hi & ->).
      by rewrite Hart1, Hart2.
    - rewrite Hother1, Hother2 by done.
      destruct (endswith f ".mp3") eqn:Hmp3; [done|by apply Hagree]. }
  subst report1 report2. simpl. split_and!; [done|done|done|by rewrite Hgen|].
  intros Hdir. subst dir2. assert (p2 = p1) as -> by congruence.
  f_equal. rewrite !clean_orphans_count.
  rewrite (completed_orphans _ _ _ _ _ _ _ _ _ Hp1 Hcm).
  by rewrite (completed_orphans _ _ _ _ _ _ _ _ _ Hp2 Hcm).
Qed.

Lemma completed_store_schedule_independent_witness :
  ∃ report1 report2 dir1' dir2',
    main sample_vocab None sample_central sample_synth [0; 1; 0; 1] sample_store
    = Completed report1 dir1'
    ∧ main sample_vocab None sample_central sample_synth [1; 1; 0; 0] sample_store
      = Completed report2 dir2'
    ∧ dir1' = dir2' ∧ report1 = report2.
Proof.
  eexists _, _, _, _. split; [vm_compute; reflexivity|].
  split; [vm_compute; reflexivity|].
  edestruct (completed_store_schedule_independent sample_vocab None sample_central
               sample_synth [0; 1; 0; 1] [1; 1; 0; 0] sample_store sample_store)
    as (Hdir & _ & _ & _ & Hrep); [done|vm_compute; reflexivity..|].
  split; [exact Hdir|by apply Hrep].
Defined.

(** X9: in a completed run [tts.save] is called once for each text that
    cache resolution queued and for no other text, and the counter ends at
    the number of queued texts. *)
Theorem misses_synthesized_once data sdata c synth schedule dir report dir' :
  main data sdata c synth schedule dir = Completed report dir' →
  ∃ texts p,
    prepare data sdata c dir = Ok (texts, p)
    ∧ calls (synthesize synth schedule p) ≡ₚ (to_generate p).*1
    ∧ NoDup (calls (synthesize synth schedule p))
    ∧ counter (synthesize synth schedule p) = n_generate report.
Proof.
  intros Hmain.
  destruct (main_completed_inv _ _ _ _ _ _ _ _ Hmain) as (texts & cm & p & Hp & Hcm & Hg & ->).
  exists texts, p. split; [done|].
  assert (NoDup (to_generate p).*1) as Hnd.
  { eapply to_generate_texts_NoDup; [|exact (completed_plan _ _ _ _ _ _ _ Hp Hcm)].
    destruct (prepare_inv _ _ _ _ _ _ Hp) as (Hex & _).
    by eapply extract_all_texts_NoDup. }
  rewrite synthesize_gate_run in *.
  destruct (gate_returned_calls synth (to_generate p) (store p) schedule Hnd Hg)
    as [Hperm Hcount].
  split; [done|]. split; [by apply gate_calls_NoDup|done].
Qed.

Lemma misses_synthesized_once_witness :
  ∃ report dir' texts p,
    main sample_vocab None sample_central sample_synth sample_schedule sample_store
    = Completed report dir'
    ∧ prepare sample_vocab None sample_central sample_store = Ok (texts, p)
    ∧ calls (synthesize sample_synth sample_schedule p) ≡ₚ (to_generate p).*1
    ∧ NoDup (calls (synthesize sample_synth sample_schedule p))
    ∧ counter (synthesize sample_synth sample_schedule p) = n_generate report.
Proof.
  eexists _, _. 
  edestruct (misses_synthesized_once sample_vocab None sample_central sample_synth
               sample_schedule sample_store)
    as (texts & p & Hp & Hrest); [vm_compute; reflexivity|].
  exists texts, p. split; [vm_compute; reflexivity|]. split; [exact Hp|exact Hrest].
Defined.

(** * [generate_tts.py] and [build_tts.py] *)

Lemma foldl_adds_union {A} (body : gset string → A → gset string)
    (adds : A → gset string) xs (texts : gset string) :
  (∀ s x, body s x = adds x ∪ s) →
  foldl body texts xs = foldl body ∅ xs ∪ texts.
Proof.
  intros Hbody. revert texts. induction xs as [|x xs IH]; intros texts; simpl.
  - set_solver.
  - rewrite IH, (IH (body ∅ x)), !Hbody. set_solver.
Qed.

Lemma add_opt_union x (texts : gset string) : add_opt x texts = add_opt x ∅ ∪ texts.
Proof. destruct x; unfold add_opt, add; set_solver. Qed.

Lemma sentences_union chapters (texts : gset string) :
  foldl (fun t ch => foldl (fun t s => add_opt s t) t ch) texts chapters
  = texts ∪ foldl (fun t ch => foldl (fun t s => add_opt s t) t ch) ∅ chapters.
Proof.
  rewrite (foldl_adds_union _ (fun ch => foldl (fun t s => add_opt s t) ∅ ch)).
  - set_solver.
  - intros s ch. apply (foldl_adds_union _ (fun x => add_opt x ∅)).
    intros. apply add_opt_union.
Qed.

Lemma collect_texts_generate data sdata :
  collect_texts data sdata
  = let* texts := GenerateTts.extract_all_texts data in
    Ok (texts ∪ GenerateTts.extract_sentence_texts sdata).
Proof.
  unfold collect_texts, GenerateTts.extract_all_texts, GenerateTts.extract_sentence_texts.
  destruct (for_each _ (action_objects data) _) as [t3|]; [simpl|done].
  destruct (for_each _ (describe_subjects data) _) as [t5|]; [simpl|done].
  destruct (for_each _ (intro_nouns data) _) as [t7|]; [simpl|done].
  f_equal. destruct sdata as [chapters|]; [apply sentences_union|set_solver].
Qed.

Lemma required_texts_extract data sdata :
  GenerateTts.required_texts data sdata = extract_all_texts data sdata.
Proof.
  unfold GenerateTts.required_texts, extract_all_texts.
  rewrite collect_texts_generate.
  by destruct (GenerateTts.extract_all_texts data).
Qed.

Lemma enqueue_resolve ca texts dir p :
  resolve ∅ ca texts dir = (p, None) →
  foldl GenerateTts.enqueue ([], []) (enumerate texts) = (manifest p, to_generate p).
Proof.
  apply (resolve_ind ∅ ca dir
           (fun texts p => foldl GenerateTts.enqueue ([], []) (enumerate texts)
                           = (manifest p, to_generate p))); [done|].
  clear texts p. intros texts text p p' _ IH Hstep.
  apply resolve_step_inv in Hstep as [_ ->].
  rewrite enumerate_snoc, foldl_app, IH.
  unfold cached. rewrite lookup_empty. done.
Qed.

Lemma length_named texts : length (named texts) = length texts.
Proof. unfold named. by rewrite length_map, length_enumerate. Qed.

Lemma resolve_empty ca texts dir :
  ∃ p, resolve ∅ ca texts dir = (p, None)
       ∧ to_generate p = named texts
       ∧ store p = dir
       ∧ copied p = 0.
Proof.
  destruct (resolve_total ∅ ca texts dir) as [p Hres].
  { intros text _ (cf & Hcf & _). by rewrite lookup_empty in Hcf. }
  exists p. split; [done|].
  assert (to_generate p = named texts) as Hall.
  { rewrite (resolve_to_generate _ _ _ _ _ Hres). unfold named. f_equal.
    apply filter_all. intros x. unfold cached. by rewrite lookup_empty. }
  split; [done|]. split.
  - apply map_eq. intros f. apply (resolve_store_other _ _ _ _ _ _ Hres).
    intros i text _ Hc. unfold cached in Hc. by rewrite lookup_empty in Hc.
  - pose proof (resolve_copied _ _ _ _ _ Hres) as Hc.
    rewrite Hall in Hc. unfold named in Hc.
    rewrite length_map, length_enumerate in Hc. lia.
Qed.

(** What [generate_tts.main] does, in the terms of [build_tts.py]. *)
Lemma generate_main_unfold data sdata synth schedule dir texts :
  extract_all_texts data sdata = Ok texts →
  let g := gate_run synth (named texts) schedule (gate_init (named texts) dir) in
  GenerateTts.main data sdata synth schedule dir =
    match gather g with
    | Raised => GenerateTts.Aborted SynthesisError (gate_store g)
    | Pending => GenerateTts.Unfinished (gate_store g)
    | Returned =>
        GenerateTts.Completed (length texts) (write_manifest (named texts) (gate_store g))
    end.
Proof.
  intros Hex. unfold GenerateTts.main.
  destruct (resolve_empty ∅ texts dir) as (p & Hres & Hgen & _ & _).
  rewrite required_texts_extract, Hex, (enqueue_resolve ∅ texts dir p Hres), Hgen.
  rewrite (resolve_manifest ∅ ∅ texts dir p) by (done || by eapply extract_all_texts_NoDup).
  done.
Qed.

Lemma build_main_missing_unfold data sdata ca synth schedule dir texts :
  extract_all_texts data sdata = Ok texts →
  let g := gate_run synth (named texts) schedule (gate_init (named texts) dir) in
  main data sdata (Central Missing ca) synth schedule dir =
    match gather g with
    | Raised => Aborted SynthesisError (gate_store g)
    | Pending => Unfinished (gate_store g)
    | Returned =>
        let written := write_manifest (named texts) (gate_store g) in
        Completed (Summary (length texts) 0 (length texts)
                           (clean_orphans (named texts) written).2)
                  (clean_orphans (named texts) written).1
    end.
Proof.
  intros Hex.
  destruct (resolve_empty ca texts dir) as (p & Hres & Hgen & Hst & Hcop).
  pose proof (prepare_intro data sdata (Central Missing ca) dir texts ∅ p Hex eq_refl Hres)
    as Hp.
  rewrite (main_outcome _ _ _ _ _ _ _ _ Hp). simpl.
  rewrite synthesize_gate_run.
  rewrite Hgen, Hst, Hcop.
  rewrite (resolve_manifest ∅ ca texts dir p) by (done || by eapply extract_all_texts_NoDup).
  by rewrite length_named.
Qed.

(** X10: [generate_tts.py] computes the same sorted texts as
    [build_tts.py]: its [extract_all_texts(data)] joined with
    [extract_sentence_texts] is the set that the build script collects, and
    it raises on the same inputs. *)
Theorem generate_tts_same_texts data sdata :
  GenerateTts.required_texts data sdata = extract_all_texts data sdata
  ∧ (∀ texts, GenerateTts.extract_all_texts data = Ok texts →
       collect_texts data sdata = Ok (texts ∪ GenerateTts.extract_sentence_texts sdata))
  ∧ (∀ e, GenerateTts.extract_all_texts data = Raise e →
       extract_all_texts data sdata = Raise e).
Proof.
  split; [apply required_texts_extract|]. split.
  - intros texts Hex. by rewrite collect_texts_generate, Hex.
  - intros e Hex. unfold extract_all_texts. by rewrite collect_texts_generate, Hex.
Qed.

(** X11: when TTS-Central has no manifest, [build_tts.py] does what
    [generate_tts.py] does and then sweeps the orphans: the same abort, the
    same unfinished state, or the directory of [generate_tts.py] with the
    [.mp3] files outside the manifest removed. *)
Theorem build_without_central_is_generate_then_sweep data sdata ca synth schedule dir :
  match GenerateTts.main data sdata synth schedule dir with
  | GenerateTts.Completed total_count generated =>
      ∃ texts,
        extract_all_texts data sdata = Ok texts
        ∧ total_count = length texts
        ∧ generated !! MANIFEST_NAME = Some (json_dumps (named texts))
        ∧ main data sdata (Central Missing ca) synth schedule dir
          = Completed (Summary total_count 0 total_count
                               (clean_orphans (named texts) generated).2)
                      (clean_orphans (named texts) generated).1
  | GenerateTts.Aborted e dir' =>
      main data sdata (Central Missing ca) synth schedule dir = Aborted e dir'
  | GenerateTts.Unfinished dir' =>
      main data sdata (Central Missing ca) synth schedule dir = Unfinished dir'
  end.
Proof.
  destruct (extract_all_texts data sdata) as [texts|e] eqn:Hex.
  - rewrite (generate_main_unfold _ _ _ _ _ _ Hex).
    rewrite (build_main_missing_unfold _ _ ca _ _ _ _ Hex). simpl.
    destruct (gather _); [|done..].
    exists texts. split_and!; [done..| |done].
    rewrite write_manifest_insert. apply lookup_insert_eq.
  - unfold GenerateTts.main, main.
    by rewrite required_texts_extract, Hex.
Qed.

(** X12: [generate_tts.py] removes nothing: every file of the directory
    is still there after [main], and a file that is neither the manifest
    nor an artifact name keeps its content. *)
Theorem generate_tts_removes_nothing data sdata synth schedule dir :
  let final :=
    match GenerateTts.main data sdata synth schedule dir with
    | GenerateTts.Completed _ d | GenerateTts.Aborted _ d | GenerateTts.Unfinished d => d
    end in
  (∀ f, is_Some (dir !! f) → is_Some (final !! f))
  ∧ (∀ texts f, extract_all_texts data sdata = Ok texts →
       f ∉ dict_values (named texts) → f ≠ MANIFEST_NAME → final !! f = dir !! f).
Proof.
  destruct (extract_all_texts data sdata) as [texts|e] eqn:Hex.
  - rewrite (generate_main_unfold _ _ _ _ _ _ Hex). simpl.
    set (g := gate_run _ _ _ _).
    assert (∀ f, is_Some (dir !! f) → is_Some (gate_store g !! f)) as Hgrow
      by (intros f; apply gate_store_grows).
    assert (∀ f, f ∉ dict_values (named texts) → gate_store g !! f = dir !! f) as Hframe
      by (intros f; apply gate_store_other).
    destruct (gather g); (split; [|intros ? f [= <-] Hf Hm]); try done; auto.
    + intros f Hf. rewrite write_manifest_insert, lookup_insert.
      case_decide; [done|auto].
    + rewrite write_manifest_insert, lookup_insert_ne by done. auto.
  - unfold GenerateTts.main. rewrite required_texts_extract, Hex. simpl.
    split; [done|]. by intros ? f [=].
Qed.

(** * [merge_vocab.py] *)

(** ** [dedup_by_kr] and [merge_quiz_situations] *)

Section dedup.
Context {A : Type} (key : A → string).

Lemma dedup_fold_snoc st xs x :
  foldl (MergeVocab.dedup_step key) st (xs ++ [x])
  = MergeVocab.dedup_step key (foldl (MergeVocab.dedup_step key) st xs) x.
Proof. by rewrite foldl_app. Qed.

(** [seen] is the set of the keys of [result]. *)
Lemma dedup_seen xs :
  (foldl (MergeVocab.dedup_step key) (∅, []) xs).1
  = list_to_set (key <$> MergeVocab.dedup_by key xs).
Proof.
  unfold MergeVocab.dedup_by.
  induction xs as [|x xs IH] using rev_ind; [done|].
  rewrite dedup_fold_snoc. unfold MergeVocab.dedup_step at 1 3.
  destruct (bool_decide (key x ≠ "") && bool_decide (key x ∉ _)); simpl; [|done].
  rewrite IH, fmap_app, list_to_set_app_L. simpl. set_solver.
Qed.

Lemma dedup_snoc xs x :
  MergeVocab.dedup_by key (xs ++ [x])
  = MergeVocab.dedup_by key xs
    ++ (if bool_decide (key x ≠ "")
           && bool_decide (key x ∉ key <$> MergeVocab.dedup_by key xs)
        then [x] else []).
Proof.
  unfold MergeVocab.dedup_by at 1. rewrite dedup_fold_snoc.
  unfold MergeVocab.dedup_step. rewrite dedup_seen.
  fold (MergeVocab.dedup_by key xs).
  assert (bool_decide (key x ∉ (list_to_set (key <$> MergeVocab.dedup_by key xs) : gset string))
          = bool_decide (key x ∉ key <$> MergeVocab.dedup_by key xs)) as ->.
  { apply bool_decide_ext. by rewrite elem_of_list_to_set. }
  destruct (_ && _); simpl; [done|by rewrite app_nil_r].
Qed.

Lemma dedup_keys xs k :
  k ∈ key <$> MergeVocab.dedup_by key xs ↔ k ≠ "" ∧ k ∈ key <$> xs.
Proof.
  induction xs as [|x xs IH] using rev_ind.
  { split; [by intros ?%elem_of_nil|by intros [_ ?%elem_of_nil]]. }
  rewrite dedup_snoc, !fmap_app, !elem_of_app, IH. simpl.
  rewrite list_elem_of_singleton.
  destruct (bool_decide (key x ≠ "")) eqn:Hne; simpl.
  - apply bool_decide_eq_true in Hne.
    case_bool_decide as Hin; simpl.
    + rewrite list_elem_of_singleton. split; [|tauto].
      intros [?| ->]; [tauto|auto].
    + split; [intros [?|?%elem_of_nil]; tauto|].
      intros [Hk [?| ->]]; [tauto|]. left.
      destruct (decide (key x ∈ key <$> MergeVocab.dedup_by key xs)) as [Hin'|]; [|done].
      by apply IH in Hin'.
  - apply bool_decide_eq_false in Hne. apply dec_stable in Hne.
    split; [intros [?|?%elem_of_nil]; tauto|].
    intros [Hk [?| ->]]; [tauto|congruence].
Qed.

Lemma dedup_keys_NoDup xs : NoDup (key <$> MergeVocab.dedup_by key xs).
Proof.
  induction xs as [|x xs IH] using rev_ind; [constructor|].
  rewrite dedup_snoc, fmap_app.
  destruct (bool_decide (key x ≠ "")); simpl; [|by rewrite app_nil_r].
  case_bool_decide as Hin; simpl; [|by rewrite app_nil_r].
  apply NoDup_app. split_and!; [done| |apply NoDup_singleton].
  intros k Hk ->%list_elem_of_singleton. done.
Qed.

Lemma dedup_sublist xs : MergeVocab.dedup_by key xs `sublist_of` xs.
Proof.
  induction xs as [|x xs IH] using rev_ind; [done|].
  rewrite dedup_snoc. apply sublist_app; [done|].
  destruct (_ && _); [done|]. apply sublist_nil_l.
Qed.

(** A kept entry is the first one with its key. *)
Lemma dedup_first xs x :
  x ∈ MergeVocab.dedup_by key xs →
  ∃ before after, xs = before ++ x :: after ∧ key x ∉ key <$> before.
Proof.
  induction xs as [|y xs IH] using rev_ind; [by intros ?%elem_of_nil|].
  rewrite dedup_snoc. intros [Hin|Hin]%elem_of_app.
  - destruct (IH Hin) as (before & after & -> & Hfirst).
    exists before, (after ++ [y]). split; [by rewrite <-app_assoc|done].
  - destruct (bool_decide (key y ≠ "")) eqn:Hne; simpl in Hin;
      [|by apply elem_of_nil in Hin].
    apply bool_decide_eq_true in Hne.
    case_bool_decide as Hnew; simpl in Hin; [|by apply elem_of_nil in Hin].
    apply list_elem_of_singleton in Hin as ->.
    exists xs, []. split; [done|].
    intros Hk. by apply Hnew, dedup_keys.
Qed.

(** A list of distinct non-empty keys is left as it is. *)
Lemma dedup_fixed xs :
  NoDup (key <$> xs) → "" ∉ key <$> xs → MergeVocab.dedup_by key xs = xs.
Proof.
  induction xs as [|x xs IH] using rev_ind; [done|].
  rewrite fmap_app, NoDup_app, not_elem_of_app. simpl.
  intros (Hnd & Hfresh & _) [Hne Hx].
  rewrite dedup_snoc, IH by done.
  rewrite bool_decide_eq_true_2.
  - rewrite bool_decide_eq_true_2; [done|].
    intros Hin. apply (Hfresh _ Hin). left.
  - intros Hempty. apply Hx. rewrite Hempty. left.
Qed.

(** Entries of a second list lose against the entries of the first. *)
Lemma dedup_app xs ys :
  MergeVocab.dedup_by key (xs ++ ys)
  = MergeVocab.dedup_by key xs
    ++ MergeVocab.dedup_by key (filter (fun y => key y ∉ key <$> xs) ys).
Proof.
  induction ys as [|y ys IH] using rev_ind.
  { by rewrite !app_nil_r. }
  rewrite app_assoc, dedup_snoc, IH, filter_app, filter_cons, filter_nil.
  rewrite fmap_app, <-app_assoc. f_equal.
  destruct (decide (key y ∉ key <$> xs)) as [Hnew|Hold].
  - rewrite dedup_snoc. f_equal.
    destruct (bool_decide (key y ≠ "")); simpl; [|done].
    assert (bool_decide (key y ∉ (key <$> MergeVocab.dedup_by key xs)
                           ++ (key <$> MergeVocab.dedup_by key
                                 (filter (fun y => key y ∉ key <$> xs) ys)))
            = bool_decide (key y ∉ key <$> MergeVocab.dedup_by key
                                 (filter (fun y => key y ∉ key <$> xs) ys))) as ->; [|done].
    apply bool_decide_ext. rewrite not_elem_of_app, dedup_keys. tauto.
  - rewrite app_nil_r. apply dec_stable in Hold.
    destruct (bool_decide (key y ≠ "")) eqn:Hne; simpl; [|by rewrite app_nil_r].
    apply bool_decide_eq_true in Hne.
    rewrite bool_decide_eq_false_2; [by rewrite app_nil_r|].
    intros Hnot. apply Hnot, elem_of_app. left. by apply dedup_keys.
Qed.
End dedup.

(** X13: [dedup_by_kr] returns a sub-list of its input in which every
    non-empty ['kr'] of the input occurs exactly once and the empty one not
    at all; the entry kept for a ['kr'] is the first of the input. *)
Theorem dedup_by_kr_keeps_first {item : Type} (kr : item → string) (items : list item) :
  let result := MergeVocab.dedup_by_kr kr items in
  NoDup (kr <$> result)
  ∧ (∀ k, k ∈ kr <$> result ↔ (k ≠ "" ∧ k ∈ kr <$> items))
  ∧ result `sublist_of` items
  ∧ (∀ x, x ∈ result →
       ∃ before after, items = before ++ x :: after ∧ kr x ∉ kr <$> before).
Proof.
  unfold MergeVocab.dedup_by_kr. split_and!.
  - apply dedup_keys_NoDup.
  - apply dedup_keys.
  - apply dedup_sublist.
  - apply dedup_first.
Qed.

(** X14: [dedup_by_kr] changes nothing when applied a second time or to
    a list of distinct non-empty keys, and on a concatenation the entries
    of the second list count only where their ['kr'] is new. *)
Theorem dedup_by_kr_idempotent_app {item : Type} (kr : item → string)
    (first second : list item) :
  MergeVocab.dedup_by_kr kr (MergeVocab.dedup_by_kr kr first)
  = MergeVocab.dedup_by_kr kr first
  ∧ MergeVocab.dedup_by_kr kr (first ++ second)
    = MergeVocab.dedup_by_kr kr first
      ++ MergeVocab.dedup_by_kr kr (filter (fun y => kr y ∉ kr <$> first) second)
  ∧ (NoDup (kr <$> first) → "" ∉ kr <$> first →
     MergeVocab.dedup_by_kr kr first = first).
Proof.
  unfold MergeVocab.dedup_by_kr. split_and!.
  - apply dedup_fixed; [apply dedup_keys_NoDup|].
    intros Hin%dedup_keys. by destruct Hin.
  - apply dedup_app.
  - apply dedup_fixed.
Qed.

(** X15: [merge_quiz_situations] keeps, for each non-empty ['situation']
    text, the first situation that has it, in the order of the input, and
    is idempotent. *)
Theorem merge_quiz_situations_keeps_first (situations : list MergeVocab.situation_entry) :
  let result := MergeVocab.merge_quiz_situations situations in
  NoDup (MergeVocab.situation_text <$> result)
  ∧ (∀ k, k ∈ MergeVocab.situation_text <$> result
          ↔ (k ≠ "" ∧ k ∈ MergeVocab.situation_text <$> situations))
  ∧ result `sublist_of` situations
  ∧ (∀ s, s ∈ result →
       ∃ before after, situations = before ++ s :: after
                       ∧ MergeVocab.situation_text s ∉ MergeVocab.situation_text <$> before)
  ∧ MergeVocab.merge_quiz_situations result = result.
Proof.
  unfold MergeVocab.merge_quiz_situations. split_and!.
  - apply dedup_keys_NoDup.
  - apply dedup_keys.
  - apply dedup_sublist.
  - apply dedup_first.
  - apply dedup_fixed; [apply dedup_keys_NoDup|].
    intros Hin%dedup_keys. by destruct Hin.
Qed.

(** ** Dictionaries in insertion order *)

Lemma od_get_None {V} k (d : list (string * V)) : od_get k d = None ↔ k ∉ d.*1.
Proof.
  induction d as [|[k' v] d IH]; simpl.
  - split; [intros _; apply not_elem_of_nil|done].
  - rewrite not_elem_of_cons. destruct (decide (k = k')); [|tauto].
    split; [done|tauto].
Qed.

Lemma od_get_set {V} k k' (v : V) d :
  od_get k' (od_set k v d) = if decide (k' = k) then Some v else od_get k' d.
Proof.
  induction d as [|[k0 v0] d IH]; simpl.
  - by destruct (decide (k' = k)).
  - destruct (decide (k = k0)) as [->|Hne]; simpl.
    + by destruct (decide (k' = k0)).
    + rewrite IH. destruct (decide (k' = k0)) as [->|]; [|done].
      destruct (decide (k0 = k)); [congruence|done].
Qed.

Lemma od_set_keys {V} k (v : V) d :
  (od_set k v d).*1 = if decide (k ∈ d.*1) then d.*1 else d.*1 ++ [k].
Proof.
  induction d as [|[k0 v0] d IH].
  - by rewrite decide_False by apply not_elem_of_nil.
  - cbn [od_set]. destruct (decide (k = k0)) as [->|Hne].
    + rewrite decide_True by (rewrite fmap_cons; left). done.
    + rewrite !fmap_cons, IH. cbn [fst]. destruct (decide (k ∈ d.*1)) as [Hin|Hnot].
      * rewrite decide_True; [done|by right].
      * rewrite decide_False; [done|]. by intros [?|?]%elem_of_cons.
Qed.

Lemma od_get_elem {V} k (v : V) d : NoDup d.*1 → (k, v) ∈ d → od_get k d = Some v.
Proof.
  induction d as [|[k0 v0] d IH]; simpl; [by intros _ ?%elem_of_nil|].
  intros [Hfresh Hnd]%NoDup_cons [[= -> ->]|Hin]%elem_of_cons.
  - by rewrite decide_True.
  - rewrite decide_False; [by apply IH|].
    intros ->. apply Hfresh, list_elem_of_fmap. by exists (k0, v).
Qed.

(** ** Loops that group by a key: [merge_verbs], [merge_intro_topics] *)

Section grouping.
Context {A V : Type} (key : A → string) (init : A → V) (more : V → A → V).
Context (step : list (string * V) → A → list (string * V)).
Context (Hstep : ∀ acc x,
  step acc x =
    if decide (key x = "") then acc
    else match od_get (key x) acc with
         | None => od_set (key x) (init x) acc
         | Some v => od_set (key x) (more v x) acc
         end).

Lemma group_keys xs : (foldl step [] xs).*1 = key <$> MergeVocab.dedup_by key xs.
Proof.
  induction xs as [|x xs IH] using rev_ind; [done|].
  rewrite foldl_app, dedup_snoc, fmap_app. simpl. rewrite Hstep.
  destruct (decide (key x = "")) as [Hempty|Hne].
  - rewrite bool_decide_eq_false_2 by (by intros []). simpl. by rewrite app_nil_r.
  - rewrite bool_decide_eq_true_2 by done. simpl. rewrite <-IH.
    destruct (od_get (key x) (foldl step [] xs)) as [v|] eqn:Hget.
    + assert (key x ∈ (foldl step [] xs).*1) as Hin.
      { destruct (decide (key x ∈ (foldl step [] xs).*1)) as [|Hnot]; [done|].
        apply od_get_None in Hnot. congruence. }
      rewrite od_set_keys, decide_True by done.
      rewrite bool_decide_eq_false_2 by (by intros []). simpl. by rewrite app_nil_r.
    + apply od_get_None in Hget.
      rewrite od_set_keys, decide_False by done.
      by rewrite bool_decide_eq_true_2.
Qed.

Lemma group_get xs k :
  k ≠ "" →
  od_get k (foldl step [] xs)
  = match filter (fun x => key x = k) xs with
    | [] => None
    | first :: rest => Some (foldl more (init first) rest)
    end.
Proof.
  intros Hk. induction xs as [|x xs IH] using rev_ind; [done|].
  rewrite foldl_app, filter_app, filter_cons, filter_nil. simpl. rewrite Hstep.
  destruct (decide (key x = k)) as [Hx|Hx].
  - rewrite decide_False by congruence. rewrite Hx, IH.
    destruct (filter _ xs) as [|first rest]; simpl.
    + rewrite od_get_set. by rewrite decide_True.
    + rewrite od_get_set, decide_True by done. by rewrite foldl_app.
  - rewrite app_nil_r.
    destruct (decide (key x = "")); [done|].
    destruct (od_get (key x) (foldl step [] xs));
      rewrite od_get_set, decide_False by congruence; done.
Qed.

Lemma group_keys_NoDup xs : NoDup (foldl step [] xs).*1.
Proof. rewrite group_keys. apply dedup_keys_NoDup. Qed.

(** Every entry of the dictionary is the fold of the group of its key. *)
Lemma group_entry xs k v :
  (k, v) ∈ foldl step [] xs →
  k ≠ ""
  ∧ ∃ first rest,
      filter (fun x => key x = k) xs = first :: rest
      ∧ key first = k
      ∧ v = foldl more (init first) rest.
Proof.
  intros Hin.
  assert (k ≠ "") as Hk.
  { assert (k ∈ (foldl step [] xs).*1) as Hkeys.
    { apply list_elem_of_fmap. by exists (k, v). }
    rewrite group_keys in Hkeys. by apply dedup_keys in Hkeys as [? _]. }
  split; [done|].
  pose proof (od_get_elem k v _ (group_keys_NoDup xs) Hin) as Hget.
  rewrite group_get in Hget by done.
  destruct (filter _ xs) as [|first rest] eqn:Hf; [done|].
  injection Hget as <-. exists first, rest. split; [done|]. split; [|done].
  assert (first ∈ filter (fun x => key x = k) xs) as Hfirst by (rewrite Hf; left).
  by apply list_elem_of_filter in Hfirst as [? _].
Qed.
End grouping.

(** ** [merge_verbs] *)

Lemma merge_verbs_step_group by_id v :
  MergeVocab.merge_verbs_step by_id v =
    if decide (MergeVocab.verb_key v = "") then by_id
    else match od_get (MergeVocab.verb_key v) by_id with
         | None =>
             od_set (MergeVocab.verb_key v)
               (v, list_to_set (default [] (MergeVocab.objectTypes v)),
                list_to_set (default [] (MergeVocab.compatibleObjects v))) by_id
         | Some g =>
             od_set (MergeVocab.verb_key v)
               (g.1.1, g.1.2 ∪ list_to_set (default [] (MergeVocab.objectTypes v)),
                g.2 ∪ list_to_set (default [] (MergeVocab.compatibleObjects v))) by_id
         end.
Proof.
  unfold MergeVocab.merge_verbs_step.
  destruct (decide _); [done|].
  by destruct (od_get _ by_id) as [[[existing types0] objects0]|].
Qed.

Lemma merge_verbs_fold (first : MergeVocab.verb_entry) (types objects : gset string) rest :
  foldl (fun (g : MergeVocab.verb_group) v =>
           (g.1.1, g.1.2 ∪ list_to_set (default [] (MergeVocab.objectTypes v)),
            g.2 ∪ list_to_set (default [] (MergeVocab.compatibleObjects v))))
        (first, types, objects) rest
  = (first,
     types ∪ list_to_set (concat ((fun v => default [] (MergeVocab.objectTypes v)) <$> rest)),
     objects ∪ list_to_set
                 (concat ((fun v => default [] (MergeVocab.compatibleObjects v)) <$> rest))).
Proof.
  revert types objects. induction rest as [|v rest IH]; intros types objects; simpl.
  - f_equal; [f_equal|]; set_solver.
  - rewrite IH. rewrite !list_to_set_app_L. f_equal; [f_equal|]; set_solver.
Qed.

(** X16: [merge_verbs] returns one verb for each non-empty key (the
    ['id'], or ['present'] without one), in the order of first occurrence;
    the verb keeps the fields of the first verb of its key, and its
    ['objectTypes'] and ['compatibleObjects'] are the sorted unions over
    all verbs of that key. *)
Theorem merge_verbs_groups (all_verbs : list MergeVocab.verb_entry) :
  let result := MergeVocab.merge_verbs all_verbs in
  MergeVocab.verb_key <$> result
  = MergeVocab.verb_key <$> MergeVocab.dedup_by MergeVocab.verb_key all_verbs
  ∧ ∀ r, r ∈ result →
      ∃ first rest,
        filter (fun v => MergeVocab.verb_key v = MergeVocab.verb_key r) all_verbs
        = first :: rest
        ∧ MergeVocab.verb_id r = MergeVocab.verb_id first
        ∧ MergeVocab.tenses r = MergeVocab.tenses first
        ∧ MergeVocab.objectTypes r
          = Some (sorted (list_to_set (concat
              ((fun v => default [] (MergeVocab.objectTypes v)) <$> first :: rest))))
        ∧ MergeVocab.compatibleObjects r
          = Some (sorted (list_to_set (concat
              ((fun v => default [] (MergeVocab.compatibleObjects v)) <$> first :: rest)))).
Proof.
  set (by_id := foldl MergeVocab.merge_verbs_step [] all_verbs).
  assert (∀ k g, (k, g) ∈ by_id →
            k ≠ "" ∧ ∃ first rest,
              filter (fun v => MergeVocab.verb_key v = k) all_verbs = first :: rest
              ∧ MergeVocab.verb_key first = k
              ∧ g = (first,
                     list_to_set (concat
                       ((fun v => default [] (MergeVocab.objectTypes v)) <$> first :: rest)),
                     list_to_set (concat
                       ((fun v => default [] (MergeVocab.compatibleObjects v)) <$> first :: rest))))
    as Hentry.
  { intros k g Hin.
    destruct (group_entry MergeVocab.verb_key _ _ _ merge_verbs_step_group all_verbs k g Hin)
      as (Hk & first & rest & Hf & Hkey & ->).
    split; [done|]. exists first, rest. split; [done|]. split; [done|].
    rewrite merge_verbs_fold. simpl. by rewrite !list_to_set_app_L. }
  simpl. unfold MergeVocab.merge_verbs. fold by_id. split.
  - rewrite <-(group_keys MergeVocab.verb_key _ _ _ merge_verbs_step_group all_verbs).
    fold by_id. rewrite <-list_fmap_compose.
    apply Forall_fmap_ext_1, Forall_forall. intros [k g] Hin.
    destruct (Hentry k g Hin) as (_ & first & rest & _ & Hkey & ->). simpl.
    by rewrite <-Hkey.
  - intros r ([k g] & -> & Hin)%list_elem_of_fmap.
    destruct (Hentry k g Hin) as (_ & first & rest & Hf & Hkey & ->).
    exists first, rest.
    change (MergeVocab.verb_key (MergeVocab.merge_verbs_finish (k, (first, _, _))))
      with (MergeVocab.verb_key first).
    rewrite Hkey. by split.
Qed.

(** ** [merge_intro_topics] *)

Section intro_topics.
Context {item : Type} (kr : item → string).

Lemma merge_intro_topics_step_group by_kr (t : MergeVocab.topic item) :
  MergeVocab.merge_intro_topics_step kr by_kr t =
    if decide (MergeVocab.topic_kr kr t = "") then by_kr
    else match od_get (MergeVocab.topic_kr kr t) by_kr with
         | None =>
             od_set (MergeVocab.topic_kr kr t)
               (t, list_to_set (default [] (MergeVocab.compatibleNounTypes t))) by_kr
         | Some g =>
             od_set (MergeVocab.topic_kr kr t)
               (g.1, g.2 ∪ list_to_set (default [] (MergeVocab.compatibleNounTypes t))) by_kr
         end.
Proof.
  unfold MergeVocab.merge_intro_topics_step.
  destruct (decide _); [done|].
  by destruct (od_get _ by_kr) as [[existing types0]|].
Qed.

Lemma merge_intro_topics_fold (first : MergeVocab.topic item) (types : gset string) rest :
  foldl (fun (g : MergeVocab.topic item * gset string) (t : MergeVocab.topic item) =>
           (g.1, g.2 ∪ list_to_set (default [] (MergeVocab.compatibleNounTypes t))))
        (first, types) rest
  = (first,
     types ∪ list_to_set
               (concat ((fun t : MergeVocab.topic item => default [] (MergeVocab.compatibleNounTypes t)) <$> rest))).
Proof.
  revert types. induction rest as [|t rest IH]; intros types; simpl.
  - f_equal. set_solver.
  - rewrite IH. rewrite !list_to_set_app_L. f_equal. set_solver.
Qed.

(** X17: [merge_intro_topics] returns one topic for each non-empty
    ['kr'], in the order of first occurrence: the first topic of that
    ['kr'], with ['compatibleNounTypes'] replaced by the sorted union over
    the topics of that ['kr'] unless the union is empty. *)
Theorem merge_intro_topics_groups (all_topics : list (MergeVocab.topic item)) :
  let result := MergeVocab.merge_intro_topics kr all_topics in
  MergeVocab.topic_kr kr <$> result
  = MergeVocab.topic_kr kr <$> MergeVocab.dedup_by (MergeVocab.topic_kr kr) all_topics
  ∧ ∀ r, r ∈ result →
      ∃ first rest,
        filter (fun t => MergeVocab.topic_kr kr t = MergeVocab.topic_kr kr r) all_topics
        = first :: rest
        ∧ MergeVocab.topic_item r = MergeVocab.topic_item first
        ∧ let types : gset string :=
            list_to_set (concat
              ((fun t : MergeVocab.topic item => default [] (MergeVocab.compatibleNounTypes t)) <$> first :: rest)) in
          MergeVocab.compatibleNounTypes r
          = if decide (types = ∅) then MergeVocab.compatibleNounTypes first
            else Some (sorted types).
Proof.
  set (by_kr := foldl (MergeVocab.merge_intro_topics_step kr) [] all_topics).
  assert (∀ k g, (k, g) ∈ by_kr →
            k ≠ "" ∧ ∃ first rest,
              filter (fun t => MergeVocab.topic_kr kr t = k) all_topics = first :: rest
              ∧ MergeVocab.topic_kr kr first = k
              ∧ g = (first,
                     list_to_set (concat
                       ((fun t : MergeVocab.topic item => default [] (MergeVocab.compatibleNounTypes t))
                          <$> first :: rest))))
    as Hentry.
  { intros k g Hin.
    destruct (group_entry (MergeVocab.topic_kr kr) _ _ _ merge_intro_topics_step_group
                all_topics k g Hin) as (Hk & first & rest & Hf & Hkey & ->).
    split; [done|]. exists first, rest. split; [done|]. split; [done|].
    rewrite merge_intro_topics_fold. simpl. by rewrite !list_to_set_app_L. }
  assert (∀ k first types,
            MergeVocab.topic_kr kr (MergeVocab.merge_intro_topics_finish (k, (first, types)))
            = MergeVocab.topic_kr kr first) as Hfinish.
  { intros k first types. unfold MergeVocab.merge_intro_topics_finish.
    by destruct (decide (types = ∅)). }
  simpl. unfold MergeVocab.merge_intro_topics. fold by_kr. split.
  - rewrite <-(group_keys (MergeVocab.topic_kr kr) _ _ _ merge_intro_topics_step_group
                 all_topics).
    fold by_kr. rewrite <-list_fmap_compose.
    apply Forall_fmap_ext_1, Forall_forall. intros [k g] Hin.
    destruct (Hentry k g Hin) as (_ & first & rest & _ & Hkey & ->).
    unfold compose. by rewrite Hfinish.
  - intros r ([k g] & -> & Hin)%list_elem_of_fmap.
    destruct (Hentry k g Hin) as (_ & first & rest & Hf & Hkey & ->).
    exists first, rest. rewrite Hfinish, Hkey. split; [done|].
    unfold MergeVocab.merge_intro_topics_finish.
    by destruct (decide (_ = ∅)).
Qed.
End intro_topics.

(** ** [merge_flashcard_categories] *)

Section flashcards.
Context {item : Type} (kr : item → string).

Lemma merge_categories_dom (cats : list (MergeVocab.category item)) :
  dom (foldl MergeVocab.merge_categories_step ∅ cats)
  = list_to_set (MergeVocab.category_name <$> cats).
Proof.
  induction cats as [|cat cats IH] using rev_ind; [apply dom_empty_L|].
  rewrite foldl_app, fmap_app, list_to_set_app_L. simpl.
  unfold MergeVocab.merge_categories_step at 1. rewrite dom_insert_L, IH. set_solver.
Qed.

Lemma merge_categories_cards (cats : list (MergeVocab.category item)) n :
  default [] (foldl MergeVocab.merge_categories_step ∅ cats !! n)
  = concat (MergeVocab.cards
              <$> filter (fun cat => MergeVocab.category_name cat = n) cats).
Proof.
  induction cats as [|cat cats IH] using rev_ind; [done|].
  rewrite foldl_app, filter_app, fmap_app, concat_app. simpl.
  unfold MergeVocab.merge_categories_step at 1.
  destruct (decide (MergeVocab.category_name cat = n)) as [<-|Hne].
  - rewrite lookup_insert_eq, filter_cons_True by done. simpl.
    by rewrite IH, app_nil_r.
  - rewrite lookup_insert_ne, filter_cons_False by done. simpl.
    by rewrite IH, app_nil_r.
Qed.

(** X18: [merge_flashcard_categories] returns one category for each
    name that occurs (['Other'] for a category without a name), sorted by
    name; its cards are the cards of all categories of that name, in the
    order of the input, passed through [dedup_by_kr]. *)
Theorem merge_flashcard_categories_by_name (all_categories : list (MergeVocab.category item)) :
  let result := MergeVocab.merge_flashcard_categories kr all_categories in
  MergeVocab.name <$> result
  = Some <$> sorted (list_to_set (MergeVocab.category_name <$> all_categories))
  ∧ ∀ cat, cat ∈ result →
      MergeVocab.cards cat
      = MergeVocab.dedup_by_kr kr
          (concat (MergeVocab.cards
                     <$> filter (fun c => MergeVocab.category_name c
                                          = MergeVocab.category_name cat) all_categories)).
Proof.
  simpl. unfold MergeVocab.merge_flashcard_categories. split.
  - rewrite merge_categories_dom.
    change (map ?f ?l) with (f <$> l). by rewrite <-list_fmap_compose.
  - intros cat (n & -> & _)%list_elem_of_fmap.
    change (MergeVocab.category_name (MergeVocab.Category (Some n) _)) with n.
    simpl. by rewrite merge_categories_cards.
Qed.
End flashcards.

(** ** [main] of [merge_vocab.py] *)

Section merge_main.
Context {item : Type} (kr : item → string).

(** The documents that the loop of [main] reads, in the order of the
    repositories. *)
Local Abbreviation documents urlopen repos :=
  (omap (fun repo =>
           match MergeVocab.fetch_vocab urlopen repo with
           | Some (MergeVocab.Object data) => Some data
           | _ => None
           end) repos).

Lemma accumulate_fold (urlopen : string → MergeVocab.response item) acc repos :
  foldl (MergeVocab.accumulate urlopen) acc repos
  = let docs := documents urlopen repos in
    MergeVocab.Accumulators
      (MergeVocab.all_subjects acc ++ concat (MergeVocab.doc_subjects <$> docs))
      (MergeVocab.all_times acc ++ concat (MergeVocab.doc_times <$> docs))
      (MergeVocab.all_places acc ++ concat (MergeVocab.doc_places <$> docs))
      (MergeVocab.all_objects acc ++ concat (MergeVocab.doc_objects <$> docs))
      (MergeVocab.all_verbs acc ++ concat (MergeVocab.doc_verbs <$> docs))
      (MergeVocab.all_desc_subjects acc ++ concat (MergeVocab.doc_describe_subjects <$> docs))
      (MergeVocab.all_adjectives acc ++ concat (MergeVocab.doc_adjectives <$> docs))
      (MergeVocab.all_adverbs acc ++ concat (MergeVocab.doc_adverbs <$> docs))
      (MergeVocab.all_fc_categories acc ++ concat (MergeVocab.doc_categories <$> docs))
      (MergeVocab.all_intro_topics acc ++ concat (MergeVocab.doc_topics <$> docs))
      (MergeVocab.all_intro_nouns acc ++ concat (MergeVocab.doc_nouns <$> docs))
      (MergeVocab.all_quiz_situations acc ++ concat (MergeVocab.doc_situations <$> docs))
      (MergeVocab.fetched acc + length docs).
Proof.
  revert acc. induction repos as [|repo repos IH]; intros acc.
  - destruct acc. simpl. by rewrite !app_nil_r, Nat.add_0_r.
  - cbn [foldl]. rewrite IH. cbn [omap list_omap]. unfold MergeVocab.accumulate at 1 2 3 4 5 6 7 8 9 10 11 12 13.
    destruct (MergeVocab.fetch_vocab urlopen repo) as [[|data]|]; [done| |done].
    cbn -[omap]. rewrite <-!app_assoc. f_equal. lia.
Qed.

(** X19: [main] of [merge_vocab.py] merges the concatenation, in the
    order of the repositories, of the lists of the documents that
    [fetch_vocab] gave and that are not empty; [fetched] counts these
    documents and is at most the number of repositories. *)
Theorem merge_main_documents_in_order (repos : list string)
    (urlopen : string → MergeVocab.response item) :
  let docs := documents urlopen repos in
  MergeVocab.main_over kr repos urlopen
  = (MergeVocab.build_merged kr
       (MergeVocab.Accumulators
          (concat (MergeVocab.doc_subjects <$> docs))
          (concat (MergeVocab.doc_times <$> docs))
          (concat (MergeVocab.doc_places <$> docs))
          (concat (MergeVocab.doc_objects <$> docs))
          (concat (MergeVocab.doc_verbs <$> docs))
          (concat (MergeVocab.doc_describe_subjects <$> docs))
          (concat (MergeVocab.doc_adjectives <$> docs))
          (concat (MergeVocab.doc_adverbs <$> docs))
          (concat (MergeVocab.doc_categories <$> docs))
          (concat (MergeVocab.doc_topics <$> docs))
          (concat (MergeVocab.doc_nouns <$> docs))
          (concat (MergeVocab.doc_situations <$> docs))
          (length docs)),
     length docs)
  ∧ length docs ≤ length repos.
Proof.
  simpl. split.
  - unfold MergeVocab.main_over. by rewrite accumulate_fold.
  - induction repos as [|repo repos IH]; [done|]. cbn [omap list_omap].
    destruct (MergeVocab.fetch_vocab urlopen repo) as [[|data]|]; simpl; lia.
Qed.
Lemma concat_nil_inv {B} (ls : list (list B)) : concat ls = [] ↔ ∀ l, l ∈ ls → l = [].
Proof.
  induction ls as [|l ls IH]; simpl.
  - split; [by intros _ l ?%elem_of_nil|done].
  - split.
    + intros [-> Hls]%app_eq_nil l' [->|Hin]%elem_of_cons; [done|]. by apply IH.
    + intros Hall. rewrite (Hall l) by left. apply IH. intros l' Hin. apply Hall. by right.
Qed.

(** X20: the merged document has an ['intro'] exactly when some fetched
    document has an intro topic, so intro nouns are dropped when there is
    no topic at all; likewise ['quiz'] is there exactly when some fetched
    document has a quiz situation. *)
Theorem merge_main_intro_needs_topics (repos : list string)
    (urlopen : string → MergeVocab.response item) :
  let docs := documents urlopen repos in
  let m := (MergeVocab.main_over kr repos urlopen).1 in
  (MergeVocab.merged_intro m = None ↔ ∀ d, d ∈ docs → MergeVocab.doc_topics d = [])
  ∧ (MergeVocab.merged_intro m ≠ None →
     MergeVocab.merged_intro m
     = Some (MergeVocab.merge_intro_topics kr (concat (MergeVocab.doc_topics <$> docs)),
             MergeVocab.dedup_by_kr kr (concat (MergeVocab.doc_nouns <$> docs))))
  ∧ (MergeVocab.merged_quiz m = None ↔ ∀ d, d ∈ docs → MergeVocab.doc_situations d = [])
  ∧ (MergeVocab.merged_quiz m ≠ None →
     MergeVocab.merged_quiz m
     = Some (MergeVocab.merge_quiz_situations (concat (MergeVocab.doc_situations <$> docs)))).
Proof.
  intros docs m. unfold m, MergeVocab.main_over. rewrite accumulate_fold.
  cbn [fst MergeVocab.build_merged MergeVocab.merged_intro MergeVocab.merged_quiz
       MergeVocab.all_intro_topics MergeVocab.all_intro_nouns
       MergeVocab.all_quiz_situations app].
  fold docs.
  assert (∀ {B} (f : MergeVocab.document item → list B),
            concat (f <$> docs) = [] ↔ ∀ d, d ∈ docs → f d = []) as Hnil.
  { intros B f. rewrite concat_nil_inv. split.
    - intros Hall d Hd. apply Hall, list_elem_of_fmap. by exists d.
    - intros Hall l (d & -> & Hd)%list_elem_of_fmap. by apply Hall. }
  rewrite <-!Hnil.
  destruct (concat (MergeVocab.doc_topics <$> docs)) as [|t ts];
    destruct (concat (MergeVocab.doc_situations <$> docs)) as [|s ss];
    split_and!; done.
Qed.

(** X21: [fetch_vocab] returns what the [master] branch loads and turns
    to [main] only when [master] fails; it returns [None] exactly when both
    fail.  A repository whose [master] document is empty is skipped without
    a look at [main]. *)
Theorem fetch_vocab_prefers_master (urlopen : string → MergeVocab.response item)
    (repo : string) :
  (∀ data, urlopen (MergeVocab.vocab_url repo "master") = MergeVocab.Loaded data →
           MergeVocab.fetch_vocab urlopen repo = Some data)
  ∧ (MergeVocab.fetch_vocab urlopen repo = None
     ↔ (∀ data, urlopen (MergeVocab.vocab_url repo "master") ≠ MergeVocab.Loaded data)
       ∧ (∀ data, urlopen (MergeVocab.vocab_url repo "main") ≠ MergeVocab.Loaded data))
  ∧ (∀ acc, urlopen (MergeVocab.vocab_url repo "master") = MergeVocab.Loaded MergeVocab.Falsy →
            MergeVocab.accumulate urlopen acc repo = acc).
Proof.
  unfold MergeVocab.accumulate, MergeVocab.fetch_vocab. cbn [MergeVocab.fetch_from].
  split_and!.
  - by intros data ->.
  - destruct (urlopen (MergeVocab.vocab_url repo "master")) as [| |data];
      destruct (urlopen (MergeVocab.vocab_url repo "main")) as [| |data'];
      split; try done; intros [H1 H2]; try (by destruct (H1 data));
      by destruct (H2 data').
  - by intros acc ->.
Qed.
End merge_main.

(** ** The merged vocabulary as input of [build_tts.py] *)




Section merged_vocabulary.
Context {item : Type} (kr : item → string).

End merged_vocabulary.

